(** * Brighter-fatter kernel task ([bfCoeffCalc.py]): embedding and properties

    The numerical core of [BfTask] is embedded function by function.
    Means, gains and correlations are IEEE binary64 numbers (Python floats
    and numpy [float64]), modelled by Rocq's primitive [float], so that
    comparisons with NaN, signed zeros and division by zero behave as they
    do in the program; where the program computes on Python floats what
    numpy would not raise ([/] by zero, [**] out of range), the exception
    is part of the model.  The pixels of an afw image are 32-bit floats:
    they are held as the binary64 numbers of the same value, and the
    in-place arithmetic on them is left to the library.  numpy arrays are
    lists of rows; afw images are lists of columns (afw indexes
    [image[x, y]]).  Calls into numpy, scipy, [lsst.afw.math] and the C
    library are methods of the interfaces [NumPy], [AfwMath] and [Libm]. *)

From Stdlib Require Import Floats ZArith Uint63 Lia DecimalString DecimalZ.
From stdpp Require Import gmap strings list.

(* The decimal constants of the program (5.0e-14, 0.9241, 1.3, 0.7) are
   read as the nearest binary64 number, as Python reads them. *)
Set Warnings "-inexact-float,-abstract-large-number".

(* ================================================================== *)
(** * Part I: the embedding *)
(* ================================================================== *)

(** ** Python exceptions and fallible computations *)

(** The exceptions the task itself can raise, and [LibraryError] for an
    exception raised inside numpy, scipy or afw. *)
Inductive exn : Type :=
  | AssertionError
  | ValueError
  | IndexError
  | KeyError
  | UnboundLocalError
  | ZeroDivisionError
  | OverflowError
  | RuntimeError
  | LibraryError.

Inductive result (A : Type) : Type :=
  | Ok (a : A)
  | Raise (e : exn).
Arguments Ok {A} a.
Arguments Raise {A} e.

#[global] Instance result_ret : MRet result := fun _ a => Ok a.
#[global] Instance result_bind : MBind result := fun _ _ k m =>
  match m with Ok a => k a | Raise e => Raise e end.
#[global] Instance result_fmap : FMap result := fun _ _ f m =>
  match m with Ok a => Ok (f a) | Raise e => Raise e end.

(** [d[k]] on a dict, [a[i]] on a sequence: a missing key or index raises. *)
Definition or_raise {A} (e : exn) (o : option A) : result A :=
  match o with Some a => Ok a | None => Raise e end.

(** A library call: [None] is an exception raised inside the library. *)
Definition lib {A} (o : option A) : result A := or_raise LibraryError o.

(** ** numpy arrays *)

(** A two-dimensional [np.ndarray] of [float64], as the list of its rows. *)
Abbreviation ndarray := (list (list float)).

(** [rect r c a]: [a.shape == (r, c)]. *)
Definition rect (r c : nat) (a : ndarray) : Prop :=
  length a = r ∧ Forall (λ row, length row = c) a.

Definition shape0 (a : ndarray) : nat := length a.
Definition shape1 (a : ndarray) : nat := length (hd [] a).

(** [a[i, j]] as an option, and as a total read (the reads of the program
    are in range whenever the write next to them is). *)
Definition lookup2 (a : ndarray) (i j : nat) : option float :=
  a !! i ≫= (.!! j).
Definition get2 (a : ndarray) (i j : nat) : float :=
  default 0%float (lookup2 a i j).

(** [a[i, j] = v], in place. *)
Definition set2 (a : ndarray) (i j : nat) (v : float) : ndarray :=
  alter (<[j:=v]>) i a.

(** [np.zeros((r, c))]. *)
Definition np_zeros (r c : nat) : ndarray := replicate r (replicate c 0%float).

(** [np.abs(a)] and [np.sum(a)] (summed in row-major order; numpy's blocked
    pairwise summation changes the rounding only, not the terms). *)
Definition np_abs (a : ndarray) : ndarray := map (map PrimFloat.abs) a.
Definition np_sum (a : ndarray) : float := foldl PrimFloat.add 0%float (concat a).

(** [for i in ri: for j in rj: body]. *)
Definition for2 {S} (ri rj : list nat) (body : nat → nat → S → S) (s : S) : S :=
  foldl (λ s i, foldl (λ s j, body i j s) s rj) s ri.

(** ** [_tileArray] *)

(** The four assignments of the loop body.  [i] and [j] are at most
    [length], so [-i+length] and [-j+length] are the non-negative indices
    [length - i] and [length - j]. *)
Definition tile_body (in_array : ndarray) (length : nat) (i j : nat)
    (output : ndarray) : ndarray :=
  let v := get2 in_array i j in
  let output := set2 output (i + length) (j + length) v in
  let output := set2 output (length - i) (j + length) v in
  let output := set2 output (i + length) (length - j) v in
  set2 output (length - i) (length - j) v.

(** [_tileArray(in_array)].  The assertion needs a square array; on an
    empty array [length] is [-1] and [np.zeros] raises [ValueError]. *)
Definition _tileArray (in_array : ndarray) : result ndarray :=
  if negb (shape0 in_array =? shape1 in_array) then Raise AssertionError
  else match shape0 in_array with
       | 0 => Raise ValueError
       | S length =>
           Ok (for2 (seq 0 (S length)) (seq 0 (S length))
                 (tile_body in_array length)
                 (np_zeros (2 * length + 1) (2 * length + 1)))
       end.

(** ** Configuration and libraries *)

Inductive Level : Type := AMP | CCD.

(** [BfTaskConfig] (the numeric fields).  Counts are naturals. *)
Record BfTaskConfig : Type := {
  maxIterRegression : nat;
  nSigmaClipGainCalc : float;
  nSigmaClipRegression : float;
  xcorrCheckRejectLevel : float;
  maxIterSOR : nat;
  eLevelSOR : float;
  nSigmaClipKernelGen : float;
  nSigmaClipXCorr : float;
  maxLag : nat;
  nPixBorderGainCalc : nat;
  nPixBorderXCorr : nat;
  biasCorr : float;
  backgroundBinSize : nat;
  fixPtcThroughOrigin : bool;
  level : Level
}.

Definition default_config : BfTaskConfig := {|
  maxIterRegression := 10;
  nSigmaClipGainCalc := 5;
  nSigmaClipRegression := 3;
  xcorrCheckRejectLevel := 1;
  maxIterSOR := 10000;
  eLevelSOR := 5.0e-14;
  nSigmaClipKernelGen := 4;
  nSigmaClipXCorr := 5;
  maxLag := 5;
  nPixBorderGainCalc := 10;
  nPixBorderXCorr := 10;
  biasCorr := 0.9241;
  backgroundBinSize := 128;
  fixPtcThroughOrigin := true;
  level := CCD
|}.

(** An optional argument [arg=None] replaced by [if not arg: arg = dflt]:
    [None] and a zero are both falsy. *)
Definition or_default_nat (arg : option nat) (dflt : nat) : nat :=
  match arg with Some (S n) => S n | _ => dflt end.
Definition or_default_float (arg : option float) (dflt : float) : float :=
  match arg with
  | Some x => if (x =? 0)%float then dflt else x
  | None => dflt
  end.

(** An afw image, as the list of its columns: [image[x, y]]. *)
Abbreviation image := (list (list float)).

(** The numpy and scipy routines the task calls.  A result [None] is an
    exception raised inside the routine. *)
Class NumPy : Type := {
  (** [np.cos(t)] *)
  np_cos : float → float;
  (** [np.linalg.lstsq(x[:, np.newaxis], y)[0][0]]: the least-squares slope
      of a line through the origin. *)
  lstsq_origin : list float → list float → option float;
  (** [np.linalg.lstsq(np.vstack([x, np.ones(len(x))]).T, y)[0]]: slope and
      intercept of the least-squares line. *)
  lstsq_line : list float → list float → option (float * float);
  (** [scipy.stats.linregress(x, y)]: slope and intercept (only logged). *)
  linregress : list float → list float → option (float * float);
  (** [np.max(a)] (only logged). *)
  np_max : list float → option float
}.

(** The afw routines the task calls.
    [afwMath.makeStatistics(data, flag, sctrl).getValue()] for a statistics
    control with [numSigmaClip] set, over the pixels of an image or the
    entries of an array, and the background model of [makeBackground].
    The images are [ImageF] and [MaskedImageF]: their pixels are 32-bit
    floats, and the in-place operators [-=] and [*=] of afw compute in the
    pixel type.  [pixel_sub p r] and [pixel_mul p r] are the new value of a
    pixel [p] under [-= r] and [*= r], for [r] the pixel of another image
    at the same place or a scalar. *)
Class AfwMath : Type := {
  MEANCLIP : float → list float → option float;
  VARIANCECLIP : float → list float → option float;
  MEDIAN : float → list float → option float;
  (** [makeBackground(im, BackgroundControl(nx, ny, sctrl, MEANCLIP))
      .getImageF(CUBIC_SPLINE, REDUCE_INTERP_ORDER)] *)
  backgroundImage : nat → nat → float → image → option image;
  pixel_sub : float → float → float;
  pixel_mul : float → float → float
}.

(** The C library behind the power operator of Python floats. *)
Class Libm : Type := {
  pow : float → float → float
}.

(** [x**2] on a Python float, as [float.__pow__] computes it: NaN, the
    infinities, the zeros and [1.0] are answered without the library; any
    other [x] goes to [pow(|x|, 2.0)], and a result out of range is an
    [OverflowError]. *)
Definition py_square `{Libm} (x : float) : result float :=
  if is_nan x then Ok x
  else if is_infinity x then Ok (PrimFloat.abs x)
  else if (x =? 0)%float then Ok 0%float
  else if (PrimFloat.abs x =? 1)%float then Ok 1%float
  else
    let ix := pow (PrimFloat.abs x) 2 in
    if is_infinity ix then Raise OverflowError else Ok ix.

(** ** [_SOR] *)

Definition np_pi : float := 0x1.921fb54442d18p+1%float.
Definition float_of_nat (n : nat) : float :=
  PrimFloat.of_uint63 (Uint63.of_Z (Z.of_nat n)).

(** [range(start, stop, 2)]. *)
Definition range2 (start stop : nat) : list nat :=
  (λ k, start + 2 * k) <$> seq 0 ((stop - start + 1) / 2).

(** [func[1:-1, 1:-1]]. *)
Definition interior (a : ndarray) : ndarray :=
  (λ row, drop 1 (take (length row - 1) row)) <$> drop 1 (take (length a - 1) a).

Definition dx : float := 1.

(** The local variables of the [while] loop. *)
Record sor_state : Type := {
  func : ndarray;
  resid : ndarray;
  omega : float;
  nIter : nat;
  outError : float
}.

(** The initial error: the residual of the zero function. *)
Definition initial_resid (func source : ndarray) : ndarray :=
  for2 (seq 1 (shape0 func - 2)) (seq 1 (shape1 func - 2))
    (λ i j resid,
       set2 resid i j
         (get2 func i (j - 1) + get2 func i (j + 1) + get2 func (i - 1) j
          + get2 func (i + 1) j - 4 * get2 func i j
          - get2 source (i - 1) (j - 1))%float)
    (np_zeros (shape0 func) (shape1 func)).

(** One point update: [resid[i, j] = ...; func[i, j] += omega*resid[i, j]*.25]. *)
Definition relax (source : ndarray) (omega : float) (i j : nat)
    (fr : ndarray * ndarray) : ndarray * ndarray :=
  let r := (get2 fr.1 i (j - 1) + get2 fr.1 i (j + 1) + get2 fr.1 (i - 1) j
            + get2 fr.1 (i + 1) j - 4 * get2 fr.1 i j
            - dx * dx * get2 source (i - 1) (j - 1))%float in
  (set2 fr.1 i j (get2 fr.1 i j + omega * r * 0.25)%float, set2 fr.2 i j r).

(** One half-sweep: the two checkerboard loops chosen by the parity of
    [nIter] (all four ranges stop at [func.shape[0]-1]). *)
Definition half_sweep (source : ndarray) (s : sor_state) : ndarray * ndarray :=
  let stop := shape0 (func s) - 1 in
  if Nat.even (nIter s) then
    for2 (range2 2 stop) (range2 2 stop) (relax source (omega s))
      (for2 (range2 1 stop) (range2 1 stop) (relax source (omega s))
         (func s, resid s))
  else
    for2 (range2 2 stop) (range2 1 stop) (relax source (omega s))
      (for2 (range2 1 stop) (range2 2 stop) (relax source (omega s))
         (func s, resid s)).

(** The relaxation factor for the next pass. *)
Definition next_omega (rhoSpe : float) (nIter : nat) (omega : float) : float :=
  if nIter =? 0 then (1 / (1 - rhoSpe * rhoSpe / 2))%float
  else (1 / (1 - rhoSpe * rhoSpe * omega / 4))%float.

(** The body of the [while] loop: one half-sweep, the convergence test
    (the flag is [true] on [break]), then the update of [omega] and
    [nIter]. *)
Definition sor_body (source : ndarray) (rhoSpe eLevel inError : float)
    (s : sor_state) : sor_state * bool :=
  let fr := half_sweep source s in
  let outError := np_sum (np_abs fr.2) in
  if (outError <? inError * eLevel)%float then
    ({| func := fr.1; resid := fr.2; omega := omega s; nIter := nIter s;
        outError := outError |}, true)
  else
    ({| func := fr.1; resid := fr.2;
        omega := next_omega rhoSpe (nIter s) (omega s);
        nIter := S (nIter s); outError := outError |}, false).

(** [while nIter < maxIter*2: body], with [remaining = maxIter*2 - nIter]. *)
Fixpoint sor_while (body : sor_state → sor_state * bool) (remaining : nat)
    (s : sor_state) : sor_state :=
  match remaining with
  | 0 => s
  | S remaining =>
      let (s', stop) := body s in
      if stop then s' else sor_while body remaining s'
  end.

Definition sor_rho `{NumPy} (source : ndarray) : float :=
  np_cos (np_pi / float_of_nat (shape0 source))%float.

Definition sor_init (source : ndarray) : sor_state :=
  let func := np_zeros (shape0 source + 2) (shape1 source + 2) in
  {| func := func; resid := initial_resid func source;
     omega := 1; nIter := 0; outError := 0 |}.

(** The state of [_SOR] when its loop is left.  The sweeps take both index
    ranges from [func.shape[0]] ("a square grid is assumed"): every index
    is in range when the source has at least as many columns as rows. *)
Definition _SOR_run `{NumPy} (cfg : BfTaskConfig) (source : ndarray)
    (maxIter : option nat) (eLevel : option float) : sor_state :=
  let maxIter := or_default_nat maxIter (maxIterSOR cfg) in
  let eLevel := or_default_float eLevel (eLevelSOR cfg) in
  let s := sor_init source in
  let inError := np_sum (np_abs (resid s)) in
  sor_while (sor_body source (sor_rho source) eLevel inError) (maxIter * 2) s.

(** [_SOR(source, maxIter, eLevel)]: [func[1:-1, 1:-1]].  [np.pi/source.shape[0]]
    raises on an empty source.  [outError] is bound inside the loop only:
    when no half-sweep is allowed ([maxIter] and [maxIterSOR] both 0), the
    message logged after the loop reads it unbound.  Otherwise the first
    half-sweep leaves the columns of a source with fewer columns than
    rows. *)
Definition _SOR `{NumPy} (cfg : BfTaskConfig) (source : ndarray)
    (maxIter : option nat) (eLevel : option float) : result ndarray :=
  if shape0 source =? 0 then Raise ZeroDivisionError
  else if or_default_nat maxIter (maxIterSOR cfg) =? 0
  then Raise UnboundLocalError
  else if shape1 source <? shape0 source then Raise IndexError
  else Ok (interior (func (_SOR_run cfg source maxIter eLevel))).

(** The message logged at the end: [true] for "Success: SOR converged",
    [false] for "Failure: SOR did not converge". *)
Definition sor_converged (cfg : BfTaskConfig) (maxIter : option nat)
    (s : sor_state) : bool :=
  negb (or_default_nat maxIter (maxIterSOR cfg) * 2 <=? nIter s).

(** ** [_generateKernel] *)

(** [for x in l: acc = body(acc, x)], where the body may raise. *)
Fixpoint for_each {A B} (body : A → B → result A) (l : list B) (acc : A)
    : result A :=
  match l with
  | [] => Ok acc
  | x :: l => acc ← body acc x; for_each body l acc
  end.

(** The caller's correlation arrays live in a store and [corrs] is a list of
    references (indices) into it: the function updates them in place. *)
Record kernel_acc : Type := {
  store : list ndarray;
  xcorrList : list ndarray;
  fullCorr : option ndarray
}.

(** [corr /= d], on the whole array. *)
Definition divide_array (d : float) (corr : ndarray) : ndarray :=
  map (map (λ x, x / d)%float) corr.

(** [corr[0, 0] -= (mean1+mean2)]. *)
Definition subtract_means (mean1 mean2 : float) (corr : ndarray) : ndarray :=
  set2 corr 0 0 (get2 corr 0 0 - (mean1 + mean2))%float.

(** [-float(1.0*(mean1**2+mean2**2))], on the two Python floats of a pair
    of means. *)
Definition norm_factor `{Libm} (mean1 mean2 : float) : result float :=
  sq1 ← py_square mean1;
  sq2 ← py_square mean2;
  Ok (- (1 * (sq1 + sq2)))%float.

(** [np.abs(np.sum(fullCorr))/np.sum(np.abs(fullCorr))]. *)
Definition xcorrCheck (fullCorr : ndarray) : float :=
  (PrimFloat.abs (np_sum fullCorr) / np_sum (np_abs fullCorr))%float.

(** One pass of the loop over [zip(means, corrs)]. *)
Definition kernel_step `{Libm} (rejectLevel : float) (acc : kernel_acc)
    (item : (float * float) * nat) : result kernel_acc :=
  let '((mean1, mean2), ref) := item in
  corr ← or_raise IndexError (store acc !! ref);
  _ ← or_raise IndexError (lookup2 corr 0 0);
  let corr := subtract_means mean1 mean2 corr in
  let store1 := <[ref := corr]> (store acc) in
  if (0 <? get2 corr 0 0)%float then
    Ok {| store := store1; xcorrList := xcorrList acc;
          fullCorr := fullCorr acc |}
  else
    d ← norm_factor mean1 mean2;
    let corr := divide_array d corr in
    let store2 := <[ref := corr]> store1 in
    full ← _tileArray corr;
    if (rejectLevel <? xcorrCheck full)%float then
      Ok {| store := store2; xcorrList := xcorrList acc;
            fullCorr := Some full |}
    else
      Ok {| store := store2; xcorrList := xcorrList acc ++ [full];
            fullCorr := Some full |}.

Definition kernel_loop `{Libm} (rejectLevel : float) (arrays : list ndarray)
    (means : list (float * float)) (corrs : list nat) : result kernel_acc :=
  for_each (kernel_step rejectLevel) (zip means corrs)
    {| store := arrays; xcorrList := []; fullCorr := None |}.

(** The per-pixel clipped mean over the stack, [np.transpose(xcorrList)[i, j]]
    being the values [x[j, i]] of the stacked arrays [x]. *)
Definition stack_mean `{AfwMath} (nSigma : float) (xcorrList : list ndarray)
    (like : ndarray) : result ndarray :=
  mapM (λ i, mapM (λ j, lib (MEANCLIP nSigma ((λ x, get2 x j i) <$> xcorrList)))
               (seq 0 (shape1 like)))
       (seq 0 (shape0 like)).

(** [_generateKernel(corrs, means, objId, rejectLevel)]: the store after the
    call and the kernel. *)
Definition _generateKernel `{NumPy} `{AfwMath} `{Libm} (cfg : BfTaskConfig)
    (arrays : list ndarray) (corrs : list nat) (means : list (float * float))
    (rejectLevel : option float) : result (list ndarray * ndarray) :=
  let rejectLevel := or_default_float rejectLevel (xcorrCheckRejectLevel cfg) in
  acc ← kernel_loop rejectLevel arrays means corrs;
  match xcorrList acc, fullCorr acc with
  | [], _ => Raise RuntimeError
  | _, None => Raise UnboundLocalError
  | xs, Some like =>
      meanXcorr ← stack_mean (nSigmaClipKernelGen cfg) xs like;
      kernel ← _SOR cfg meanXcorr None None;
      Ok (store acc, kernel)
  end.

(** ** [_iterativeRegression] *)

(** [np.where(cond)[0]]: the positions where the condition holds. *)
Fixpoint np_where (i : nat) (cond : list bool) : list nat :=
  match cond with
  | [] => []
  | b :: cond => (if b then [i] else []) ++ np_where (S i) cond
  end.

(** [np.delete(x, index)]. *)
Fixpoint np_delete (i : nat) (x : list float) (index : list nat) : list float :=
  match x with
  | [] => []
  | v :: x =>
      if bool_decide (i ∈ index) then np_delete (S i) x index
      else v :: np_delete (S i) x index
  end.

(** [np.shape(np.where(index))[1]]: [index] is the tuple returned by the
    first [np.where]; applied to it, [np.where] finds the positions of its
    non-zero entries, so this is the number of outlier positions other
    than 0. *)
Definition shape_where_index (index : list nat) : nat :=
  length (List.filter (λ k, negb (k =? 0)) index).

(** The residuals [y - slope*x] and [y - slope*x - intercept]. *)
Definition residuals (fixThroughOrigin : bool) (slope intercept : float)
    (x y : list float) : list float :=
  if fixThroughOrigin then zip_with (λ yi xi, yi - slope * xi)%float y x
  else zip_with (λ yi xi, yi - slope * xi - intercept)%float y x.

Definition is_outlier (nSigmaClip resMean resStd r : float) : bool :=
  (resMean + nSigmaClip * resStd <? r)%float
  || (r <? resMean - nSigmaClip * resStd)%float.

(** The [while nIter < maxIter] loop, with [remaining = maxIter - nIter];
    the two loops of the function differ only in the fit, the residual and
    the returned intercept.  With no pass at all, [slope] is unbound at
    [return]. *)
Fixpoint regression_loop `{NumPy} `{AfwMath} (fixThroughOrigin : bool)
    (nSigmaClip : float) (remaining : nat) (x y : list float)
    : result (float * float) :=
  match remaining with
  | 0 => Raise UnboundLocalError
  | S remaining =>
      fit ← lib (if fixThroughOrigin
                 then (λ slope, (slope, 0%float)) <$> lstsq_origin x y
                 else lstsq_line x y);
      let res := residuals fixThroughOrigin fit.1 fit.2 x y in
      resMean ← lib (MEANCLIP nSigmaClip res);
      resVar ← lib (VARIANCECLIP nSigmaClip res);
      let resStd := PrimFloat.sqrt resVar in
      let index := np_where 0 (is_outlier nSigmaClip resMean resStd <$> res) in
      _ ← lib (np_max res);
      if (shape_where_index index =? 0) || (remaining =? 0) then Ok fit
      else regression_loop fixThroughOrigin nSigmaClip remaining
             (np_delete 0 x index) (np_delete 0 y index)
  end.

(** [_iterativeRegression(x, y, fixThroughOrigin, nSigmaClip, maxIter)]. *)
Definition _iterativeRegression `{NumPy} `{AfwMath} (cfg : BfTaskConfig)
    (x y : list float) (fixThroughOrigin : bool)
    (nSigmaClip : option float) (maxIter : option nat)
    : result (float * float) :=
  let maxIter := or_default_nat maxIter (maxIterRegression cfg) in
  let nSigmaClip := or_default_float nSigmaClip (nSigmaClipRegression cfg) in
  regression_loop fixThroughOrigin nSigmaClip maxIter x y.

(** ** [estimateGains] *)

(** A rectangle of pixels: [image[x0:x0+width, y0:y0+height]]. *)
Record Box : Type := { x0 : nat; y0 : nat; bwidth : nat; bheight : nat }.

(** An entry of the amplifier catalogue. *)
Record Amp : Type := { ampName : string; ampGain : float; ampBBox : Box }.

(** The lists collected per amplifier for the photon transfer curve. *)
Record ptc_acc : Type := {
  ampMeans : gmap string (list float);
  ampCoVariances : gmap string (list float);
  ampVariances : gmap string (list float)
}.

(** The three dicts returned by [_calcMeansAndVars] for one visit pair. *)
Record pair_stats : Type := {
  _means : gmap string float;
  _vars : gmap string float;
  _covars : gmap string float
}.

(** [_means[ampName]*10 < _vars[ampName] or _means[ampName]*10 < _covars[ampName]]. *)
Definition sanity_failed (st : pair_stats) (ampName : string) : result bool :=
  m ← or_raise KeyError (_means st !! ampName);
  v ← or_raise KeyError (_vars st !! ampName);
  if (m * 10 <? v)%float then Ok true
  else c ← or_raise KeyError (_covars st !! ampName); Ok (m * 10 <? c)%float.

(** [_vars[k]*1.3 < _covars[k] or _vars[k]*0.7 > _covars[k]]. *)
Definition dropped (st : pair_stats) (k : string) : result bool :=
  v ← or_raise KeyError (_vars st !! k);
  c ← or_raise KeyError (_covars st !! k);
  Ok ((v * 1.3 <? c)%float || (c <? v * 0.7)%float).

(** [d[k].append(v)]. *)
Definition dict_append (d : gmap string (list float)) (k : string) (v : float)
    : result (gmap string (list float)) :=
  l ← or_raise KeyError (d !! k); Ok (<[k := l ++ [v]]> d).

(** The body of [for k in _means.keys()]. *)
Definition pull_value (st : pair_stats) (acc : ptc_acc) (k : string)
    : result ptc_acc :=
  skip ← dropped st k;
  if (skip : bool) then Ok acc
  else
    m ← or_raise KeyError (_means st !! k);
    v ← or_raise KeyError (_vars st !! k);
    c ← or_raise KeyError (_covars st !! k);
    ms ← dict_append (ampMeans acc) k m;
    vs ← dict_append (ampVariances acc) k v;
    cs ← dict_append (ampCoVariances acc) k c;
    Ok {| ampMeans := ms; ampCoVariances := cs; ampVariances := vs |}.

(** The sanity checks of one visit pair: [breaker] counts the amplifiers of
    the detector that fail. *)
Definition breaker (detector : list Amp) (st : pair_stats) : result nat :=
  fails ← mapM (λ amp, sanity_failed st (ampName amp)) detector;
  Ok (length (List.filter id fails)).

(** The body of the loop over the visit pairs, after [_calcMeansAndVars]:
    [if breaker: continue], else the values are pulled out key by key. *)
Definition accumulate_pair (detector : list Amp) (acc : ptc_acc)
    (st : pair_stats) : result ptc_acc :=
  b ← breaker detector st;
  if negb (b =? 0) then Ok acc
  else for_each (pull_value st) (map_to_list (_means st)).*1 acc.

Definition ptc_init (detector : list Amp) : ptc_acc :=
  let empty : gmap string (list float) :=
    list_to_map ((λ amp, (ampName amp, [])) <$> detector) in
  {| ampMeans := empty; ampCoVariances := empty; ampVariances := empty |}.

(** The first loop of [estimateGains]; [calc] is [_calcMeansAndVars] for
    the data reference at hand (it runs ISR on the two visits and measures
    every amplifier; the loop uses its three dicts only). *)
Definition accumulate {V} (detector : list Amp) (calc : V → result pair_stats)
    (visitPairs : list V) : result ptc_acc :=
  for_each (λ acc visPair, st ← calc visPair; accumulate_pair detector acc st)
    visitPairs (ptc_init detector).

(** The gain of one amplifier from its collected lists. *)
Definition amp_gain `{NumPy} `{AfwMath} (cfg : BfTaskConfig) (acc : ptc_acc)
    (name : string) : result float :=
  means ← or_raise KeyError (ampMeans acc !! name);
  covs ← or_raise KeyError (ampCoVariances acc !! name);
  _ ← lib (linregress means covs);
  fitFix ← _iterativeRegression cfg means covs true None None;
  fitUnfix ← _iterativeRegression cfg means covs false None None;
  let slopeToUse := if fixPtcThroughOrigin cfg then fitFix.1 else fitUnfix.1 in
  Ok (1 / slopeToUse)%float.

(** [estimateGains(dataRef, visitPairs)]: [(gains, nomGains)]. *)
Definition estimateGains `{NumPy} `{AfwMath} {V} (cfg : BfTaskConfig)
    (detector : list Amp) (calc : V → result pair_stats) (visitPairs : list V)
    : result (gmap string float * gmap string float) :=
  acc ← accumulate detector calc visitPairs;
  for_each (λ (g : gmap string float * gmap string float) amp,
              gain ← amp_gain cfg acc (ampName amp);
              Ok (<[ampName amp := gain]> g.1,
                  <[ampName amp := ampGain amp]> g.2))
    detector (∅, ∅).

(** ** afw images *)

(** Slices of an image are taken as Python takes the slices of a sequence,
    relative to the image that is sliced; an image without columns has
    height 0. *)
Definition getWidth (im : image) : nat := length im.
Definition getHeight (im : image) : nat := length (hd [] im).

(** The pixels handed to [makeStatistics]. *)
Definition pixels (im : image) : list float := concat im.

(** [l[start:stop]] for non-negative bounds, and the bound [-b] of a slice
    [l[...:-b]] of a sequence of length [n] (with [b = 0] the stop is
    index 0 and the slice is empty). *)
Definition py_slice {A} (start stop : nat) (l : list A) : list A :=
  take (stop - start) (drop start l).
Definition neg_stop (n b : nat) : nat := if b =? 0 then 0 else n - b.

(** A copy of the pixels of [im[box]]. *)
Definition crop (b : Box) (im : image) : image :=
  py_slice (y0 b) (y0 b + bheight b) <$> py_slice (x0 b) (x0 b + bwidth b) im.

(** An in-place operation on the view [im[box]]: the pixels of the parent
    image inside the box change. *)
Definition on_view (f : float → float) (b : Box) (im : image) : image :=
  imap (λ x col,
          if bool_decide (x0 b ≤ x < x0 b + bwidth b) then
            imap (λ y p, if bool_decide (y0 b ≤ y < y0 b + bheight b)
                         then f p else p) col
          else col) im.

(** The box of [im[border:-border, border:-border]]. *)
Definition border_box (border : nat) (im : image) : Box :=
  {| x0 := border; y0 := border;
     bwidth := neg_stop (getWidth im) border - border;
     bheight := neg_stop (getHeight im) border - border |}.

(** The box of [im[0:-maxLag, :-maxLag]]. *)
Definition lag_box (maxLag : nat) (im : image) : Box :=
  {| x0 := 0; y0 := 0;
     bwidth := neg_stop (getWidth im) maxLag;
     bheight := neg_stop (getHeight im) maxLag |}.

(** [a -= b] and [a *= b] between images of the same dimensions (afw
    raises otherwise), and with a scalar. *)
Definition same_dimensions (a b : image) : bool :=
  bool_decide (length <$> a = length <$> b).
Definition im_sub `{AfwMath} (a b : image) : image :=
  zip_with (zip_with pixel_sub) a b.
Definition im_mul `{AfwMath} (a b : image) : image :=
  zip_with (zip_with pixel_mul) a b.
Definition minus `{AfwMath} (r : float) (p : float) : float := pixel_sub p r.
Definition times `{AfwMath} (r : float) (p : float) : float := pixel_mul p r.

(** ** [_prepareImage] *)

(** Keys of the returned dicts: an amplifier name or the detector id. *)
Inductive Key : Type := AmpKey (name : string) | DetKey (id : Z).

#[global] Instance Key_eq_dec : EqDecision Key.
Proof. solve_decision. Defined.
#[global] Instance Key_countable : Countable Key.
Proof.
  refine (inj_countable'
            (λ k, match k with AmpKey s => inl s | DetKey z => inr z end)
            (λ x, match x with inl s => AmpKey s | inr z => DetKey z end) _).
  by intros [].
Defined.

Record Exposure : Type := {
  detectorId : Z;
  ampInfoCat : list Amp;
  maskedImage : image
}.

(** The local variables: [mi] and [temp] are the two clones that the views
    write through; the returned areas are views of [mi], kept as boxes;
    [rescaleIm] is the view of the last amplifier visited. *)
Record prep_state : Type := {
  mi : image;
  temp : image;
  means : gmap Key float;
  returnAreas : gmap Key Box;
  rescaleIm : option Box
}.

(** The body of [for amp in ampInfoCat]. *)
Definition prepare_amp `{AfwMath} (cfg : BfTaskConfig)
    (gains : gmap string float) (lvl : Level) (st : prep_state) (amp : Amp)
    : result prep_state :=
  let border := nPixBorderXCorr cfg in
  let sigma := nSigmaClipXCorr cfg in
  let box := ampBBox amp in
  mean ← lib (MEANCLIP sigma (pixels (crop box (mi st))));
  gain ← or_raise KeyError (gains !! ampName amp);
  let mi1 := on_view (times gain) box (mi st) in
  let temp1 := on_view (times gain) box (temp st) in
  _ ← lib (MEANCLIP sigma (pixels (crop box mi1)));
  let mi2 := on_view (minus (mean * gain)%float) box mi1 in
  match lvl with
  | AMP =>
      m ← lib (MEANCLIP sigma
                 (pixels (crop (border_box border (crop box temp1))
                            (crop box temp1))));
      Ok {| mi := mi2; temp := temp1;
            means := <[AmpKey (ampName amp) := m]> (means st);
            returnAreas := <[AmpKey (ampName amp) := box]> (returnAreas st);
            rescaleIm := Some box |}
  | CCD =>
      Ok {| mi := mi2; temp := temp1; means := means st;
            returnAreas := returnAreas st; rescaleIm := Some box |}
  end.

(** The block [if level == 'CCD'] after the loop. *)
Definition prepare_ccd `{AfwMath} (cfg : BfTaskConfig) (detName : Z)
    (st : prep_state) : result prep_state :=
  let border := nPixBorderXCorr cfg in
  let sigma := nSigmaClipXCorr cfg in
  m ← lib (MEANCLIP sigma
             (pixels (crop (border_box border (temp st)) (temp st))));
  view ← or_raise UnboundLocalError (rescaleIm st);
  Ok {| mi := mi st; temp := temp st;
        means := <[DetKey detName := m]> (means st);
        returnAreas := <[DetKey detName := view]> (returnAreas st);
        rescaleIm := rescaleIm st |}.

Definition prepare_loop `{AfwMath} (cfg : BfTaskConfig)
    (exp : Exposure) (gains : gmap string float) (lvl : Level)
    : result prep_state :=
  for_each (prepare_amp cfg gains lvl) (ampInfoCat exp)
    {| mi := maskedImage exp; temp := maskedImage exp;
       means := ∅; returnAreas := ∅; rescaleIm := None |}.

(** [_prepareImage(exp, gains, level)]: [(returnAreas, means)], each
    returned view read off the working image. *)
Definition _prepareImage `{AfwMath} (cfg : BfTaskConfig)
    (exp : Exposure) (gains : gmap string float) (lvl : Level)
    : result (gmap Key image * gmap Key float) :=
  st ← prepare_loop cfg exp gains lvl;
  st ← match lvl with
       | CCD => prepare_ccd cfg (detectorId exp) st
       | AMP => Ok st
       end;
  Ok ((λ box, crop box (mi st)) <$> returnAreas st, means st).

(** ** [_crossCorrelate] *)

(** One entry [xcorr[xlag, ylag]].  The clipped mean and [biasCorr] are
    Python floats: their quotient raises when [biasCorr] is zero. *)
Definition lag_correlation `{AfwMath} (sigma biasCorr : float)
    (diff dim0 : image) (width height xlag ylag : nat) : result float :=
  let dim_xy := crop {| x0 := xlag; y0 := ylag; bwidth := width;
                        bheight := height |} diff in
  m ← lib (MEANCLIP sigma (pixels dim_xy));
  let dim_xy := map (map (minus m)) dim_xy in
  let dim_xy := im_mul dim_xy dim0 in
  v ← lib (MEANCLIP sigma (pixels dim_xy));
  if (biasCorr =? 0)%float then Raise ZeroDivisionError
  else Ok (v / biasCorr)%float.

(** [_crossCorrelate(maskedIm0, maskedIm1)].  [dim0] is a view of [diff], so
    subtracting its mean changes [diff] inside the view. *)
Definition _crossCorrelate `{AfwMath} (cfg : BfTaskConfig)
    (maskedIm0 maskedIm1 : image) : result ndarray :=
  let sigma := nSigmaClipXCorr cfg in
  if negb (same_dimensions maskedIm0 maskedIm1) then Raise LibraryError
  else
    let diff := im_sub maskedIm0 maskedIm1 in
    let diff := crop (border_box (nPixBorderXCorr cfg) diff) diff in
    if backgroundBinSize cfg =? 0 then Raise ZeroDivisionError
    else
      let nx := getWidth diff / backgroundBinSize cfg in
      let ny := getHeight diff / backgroundBinSize cfg in
      bkgd ← lib (backgroundImage nx ny sigma diff);
      if negb (same_dimensions diff bkgd) then Raise LibraryError
      else
        let diff := im_sub diff bkgd in
        _ ← lib (MEDIAN sigma (pixels diff));
        _ ← lib (VARIANCECLIP sigma (pixels diff));
        let box0 := lag_box (maxLag cfg) diff in
        m0 ← lib (MEANCLIP sigma (pixels (crop box0 diff)));
        let diff := on_view (minus m0) box0 diff in
        let dim0 := crop box0 diff in
        let width := getWidth dim0 in
        let height := getHeight dim0 in
        mapM (λ xlag,
                mapM (λ ylag,
                        lag_correlation sigma (biasCorr cfg) diff dim0
                          width height xlag ylag)
                  (seq 0 (maxLag cfg + 1)))
          (seq 0 (maxLag cfg + 1)).

(** ** A reference library for the examples *)

(** Plain statistics, which agree with the clipped ones on data without
    outliers (the median, which the task only logs, is replaced by the
    mean), and closed-form least squares.  As the statistics engine of the
    specification, they fail on an empty sample.  The pixel arithmetic and
    the squares are those of binary64, which stand in for the 32-bit
    arithmetic of afw and for [pow]: they are exact, and so the same, on
    the whole numbers and halves of the pixels and means that the examples
    quote. *)
Definition fsum (l : list float) : float := foldl PrimFloat.add 0%float l.
Definition fmean (l : list float) : float :=
  (fsum l / float_of_nat (length l))%float.
Definition fvariance (l : list float) : float :=
  (fsum ((λ v, (v - fmean l) * (v - fmean l)) <$> l)
   / float_of_nat (length l - 1))%float.
Definition nonempty {A} (l : list float) (v : A) : option A :=
  match l with [] => None | _ => Some v end.

Definition fit_origin (x y : list float) : float :=
  (fsum (zip_with PrimFloat.mul x y) / fsum (zip_with PrimFloat.mul x x))%float.
Definition fit_line (x y : list float) : float * float :=
  let n := float_of_nat (length x) in
  let slope := ((n * fsum (zip_with PrimFloat.mul x y) - fsum x * fsum y)
                / (n * fsum (zip_with PrimFloat.mul x x) - fsum x * fsum x))%float in
  (slope, ((fsum y - slope * fsum x) / n)%float).

(** [np.cos] at the arguments [pi/1], [pi/2] and [pi/3] of the examples. *)
Definition cos_table (t : float) : float :=
  if (t =? np_pi)%float then (-1)%float
  else if (t =? np_pi / 2)%float then 0x1.1a62633145c07p-54%float
  else if (t =? np_pi / 3)%float then 0x1.0000000000001p-1%float
  else nan.

Definition ref_numpy : NumPy := {|
  np_cos := cos_table;
  lstsq_origin x y := nonempty x (fit_origin x y);
  lstsq_line x y := nonempty x (fit_line x y);
  linregress x y := nonempty x (fit_line x y);
  np_max l := nonempty l (foldl (λ a b, if (a <? b)%float then b else a)
                            (hd 0%float l) l)
|}.

(** The background of a single bin is the mean of the image. *)
Definition ref_afw : AfwMath := {|
  MEANCLIP _ l := nonempty l (fmean l);
  VARIANCECLIP _ l := nonempty l (fvariance l);
  MEDIAN _ l := nonempty l (fmean l);
  backgroundImage nx ny _ im :=
    if (nx =? 0) || (ny =? 0) then None
    else nonempty (pixels im) (map (map (λ _, fmean (pixels im))) im);
  pixel_sub := PrimFloat.sub;
  pixel_mul := PrimFloat.mul
|}.

(** A C library whose [pow(x, 2.0)] is the rounded product [x*x]. *)
Definition ref_libm : Libm := {|
  pow x y := if (y =? 2)%float then (x * x)%float else nan
|}.

(** The functions stay folded when a goal is simplified. *)
Arguments _tileArray : simpl never.
Arguments subtract_means : simpl never.
Arguments divide_array : simpl never.
Arguments norm_factor : simpl never.
Arguments xcorrCheck : simpl never.
Arguments get2 : simpl never.
Arguments set2 : simpl never.
Arguments lookup2 : simpl never.
Arguments np_sum : simpl never.
Arguments np_abs : simpl never.
Arguments crop : simpl never.
Arguments on_view : simpl never.
Arguments pixels : simpl never.
Arguments border_box : simpl never.
Arguments lag_box : simpl never.
Arguments residuals : simpl never.
Arguments np_where : simpl never.
Arguments np_delete : simpl never.
Arguments _iterativeRegression : simpl never.
Arguments py_square : simpl never.

(** Modelled from the spec: the statistics engine (section 4.1, "Fails with
    EmptyRegionError if all samples are clipped away") is the library
    behind [makeStatistics]: of a sample without any value nothing is left
    after clipping, and the clipped mean fails. *)
Class AfwStatistics `{AfwMath} : Prop := {
  MEANCLIP_fails : ∀ sigma, MEANCLIP sigma [] = None
}.

(** The statistics engine loses no sample: it returns a value on every
    sample that is not empty. *)
Definition returns_on_samples `{AfwMath} : Prop :=
  ∀ sigma l, l ≠ [] →
    is_Some (MEANCLIP sigma l) ∧ is_Some (VARIANCECLIP sigma l)
    ∧ is_Some (MEDIAN sigma l).

(** A library that never raises: the statistics of an empty sample are
    NaN. *)
Definition total_afw : AfwMath := {|
  MEANCLIP _ l := Some (fmean l);
  VARIANCECLIP _ l := Some (fvariance l);
  MEDIAN _ l := Some (fmean l);
  backgroundImage _ _ _ im := Some (map (map (λ _, fmean (pixels im))) im);
  pixel_sub := PrimFloat.sub;
  pixel_mul := PrimFloat.mul
|}.

(** A small configuration for the examples: lags 0 and 1, a border of one
    pixel, one background bin for a region of 3 x 3 pixels. *)
Definition example_config : BfTaskConfig := {|
  maxIterRegression := 10;
  nSigmaClipGainCalc := 5;
  nSigmaClipRegression := 3;
  xcorrCheckRejectLevel := 1;
  maxIterSOR := 10;
  eLevelSOR := 5.0e-14;
  nSigmaClipKernelGen := 4;
  nSigmaClipXCorr := 5;
  maxLag := 1;
  nPixBorderGainCalc := 1;
  nPixBorderXCorr := 1;
  biasCorr := 1;
  backgroundBinSize := 3;
  fixPtcThroughOrigin := true;
  level := CCD
|}.

(** The same with [maxLag = 0]. *)
Definition zero_lag_config : BfTaskConfig := {|
  maxIterRegression := 10;
  nSigmaClipGainCalc := 5;
  nSigmaClipRegression := 3;
  xcorrCheckRejectLevel := 1;
  maxIterSOR := 10;
  eLevelSOR := 5.0e-14;
  nSigmaClipKernelGen := 4;
  nSigmaClipXCorr := 5;
  maxLag := 0;
  nPixBorderGainCalc := 1;
  nPixBorderXCorr := 1;
  biasCorr := 1;
  backgroundBinSize := 3;
  fixPtcThroughOrigin := true;
  level := CCD
|}.

(** A detector of two amplifiers of 2 x 3 pixels, side by side. *)
Definition amp_A : Amp :=
  {| ampName := "A"; ampGain := 1;
     ampBBox := {| x0 := 0; y0 := 0; bwidth := 2; bheight := 3 |} |}.
Definition amp_B : Amp :=
  {| ampName := "B"; ampGain := 1;
     ampBBox := {| x0 := 2; y0 := 0; bwidth := 2; bheight := 3 |} |}.
Definition two_amp_exposure : Exposure :=
  {| detectorId := 7; ampInfoCat := [amp_A; amp_B];
     maskedImage := [[1; 2; 3]; [4; 5; 6]; [7; 8; 9]; [10; 11; 12]]%float |}.

(** Two images of 5 x 5 pixels. *)
Definition image_5x5 : image :=
  [[1; 2; 3; 4; 5]; [2; 4; 3; 5; 1]; [5; 3; 1; 2; 4]; [3; 1; 4; 2; 5];
   [4; 5; 2; 1; 3]]%float.
Definition zeros_5x5 : image := replicate 5 (replicate 5 0%float).

(** An exposure without amplifiers, and a detector of two amplifiers of
    3 x 3 pixels, side by side. *)
Definition no_amp_exposure : Exposure :=
  {| detectorId := 7; ampInfoCat := [];
     maskedImage := [[1; 2; 3]; [4; 5; 6]; [7; 8; 9]]%float |}.

Definition amp_L : Amp :=
  {| ampName := "L"; ampGain := 1;
     ampBBox := {| x0 := 0; y0 := 0; bwidth := 3; bheight := 3 |} |}.
Definition amp_R : Amp :=
  {| ampName := "R"; ampGain := 1;
     ampBBox := {| x0 := 3; y0 := 0; bwidth := 3; bheight := 3 |} |}.
Definition wide_exposure : Exposure :=
  {| detectorId := 7; ampInfoCat := [amp_L; amp_R];
     maskedImage := [[1; 2; 3]; [4; 5; 6]; [7; 8; 9];
                     [10; 11; 12]; [13; 14; 15]; [16; 17; 18]]%float |}.

(** ** [_calcMeansAndVars] *)

(** [view -= other] on the view [im[box]]: the pixels of the parent image
    inside the box change, each by the pixel of [other] at the same place
    of the view. *)
Definition sub_on_view `{AfwMath} (b : Box) (other im : image) : image :=
  imap (λ x col,
          if bool_decide (x0 b ≤ x < x0 b + bwidth b) then
            imap (λ y p, if bool_decide (y0 b ≤ y < y0 b + bheight b)
                         then pixel_sub p (get2 other (x - x0 b) (y - y0 b))
                         else p) col
          else col) im.

(** The body of the first loop over the amplifiers, for one image: the
    clipped mean inside the border is appended to [ampMeans[ampName]] and
    subtracted from the amplifier region of the image, in place. *)
Definition measure_amp `{AfwMath} (cfg : BfTaskConfig)
    (st : image * gmap string (list float)) (amp : Amp)
    : result (image * gmap string (list float)) :=
  let border := nPixBorderGainCalc cfg in
  let ampIm := crop (ampBBox amp) st.1 in
  mean ← lib (MEANCLIP (nSigmaClipGainCalc cfg)
                (pixels (crop (border_box border ampIm) ampIm)));
  Ok (on_view (minus mean) (ampBBox amp) st.1,
      <[ampName amp := default [] (st.2 !! ampName amp) ++ [mean]]> st.2).

(** The box of [im[border:-border-maxLag, border:-border-maxLag]]. *)
Definition border_lag_box (border maxLag : nat) (im : image) : Box :=
  {| x0 := border; y0 := border;
     bwidth := neg_stop (getWidth im) (border + maxLag) - border;
     bheight := neg_stop (getHeight im) (border + maxLag) - border |}.

(** The quarter correlation of one amplifier of the difference image. *)
Definition amp_xcorr `{AfwMath} (cfg : BfTaskConfig) (diff : image)
    (amp : Amp) : result ndarray :=
  let sigma := nSigmaClipGainCalc cfg in
  let border := nPixBorderGainCalc cfg in
  let diffAmpIm := crop (ampBBox amp) diff in
  let box := border_lag_box border (maxLag cfg) diffAmpIm in
  m ← lib (MEANCLIP sigma (pixels (crop box diffAmpIm)));
  let diffAmpIm := on_view (minus m) box diffAmpIm in
  let diffAmpImCrop := crop box diffAmpIm in
  let w := getWidth diffAmpImCrop in
  let h := getHeight diffAmpImCrop in
  mapM (λ xlag,
          mapM (λ ylag,
                  lag_correlation sigma (biasCorr cfg) diffAmpIm diffAmpImCrop
                    w h (border + xlag) (border + ylag))
            (seq 0 (maxLag cfg + 1)))
    (seq 0 (maxLag cfg + 1)).

(** [means[ampName] = ampMeans[ampName][0] + ampMeans[ampName][1]]. *)
Definition sum_means (ampMeans : gmap string (list float))
    (means : gmap string float) (amp : Amp) : result (gmap string float) :=
  l ← or_raise KeyError (ampMeans !! ampName amp);
  m0 ← or_raise IndexError (l !! 0);
  m1 ← or_raise IndexError (l !! 1);
  Ok (<[ampName amp := (m0 + m1)%float]> means).

(** The dicts of the second loop; [meansDict] is unbound until the body
    has run once. *)
Record stats_acc : Type := {
  variances : gmap string float;
  coVars : gmap string float;
  meansDict : option (gmap string float)
}.

(** The body of the second loop over the amplifiers. *)
Definition measure_covariance `{AfwMath} (cfg : BfTaskConfig)
    (detector : list Amp) (ampMeans : gmap string (list float))
    (diff : image) (acc : stats_acc) (amp : Amp) : result stats_acc :=
  xcorr ← amp_xcorr cfg diff amp;
  v ← or_raise IndexError (lookup2 xcorr 0 0);
  xcorr_full ← _tileArray xcorr;
  means ← for_each (sum_means ampMeans) detector ∅;
  Ok {| variances := <[ampName amp := v]> (variances acc);
        coVars := <[ampName amp := np_sum xcorr_full]> (coVars acc);
        meansDict := Some means |}.

(** [_calcMeansAndVars(dataRef, v1, v2)], from the two images that ISR
    returns for the visits and the detector of the first. *)
Definition _calcMeansAndVars `{AfwMath} (cfg : BfTaskConfig)
    (detector : list Amp) (im1 im2 : image) : result pair_stats :=
  let sigma := nSigmaClipGainCalc cfg in
  let border := nPixBorderGainCalc cfg in
  st1 ← for_each (measure_amp cfg) detector (im1, ∅);
  st2 ← for_each (measure_amp cfg) detector (im2, st1.2);
  let ampMeans := st2.2 in
  if negb (same_dimensions st1.1 st2.1) then Raise LibraryError
  else
    let diff := im_sub st1.1 st2.1 in
    let box := border_box border diff in
    let temp := crop box diff in
    if backgroundBinSize cfg =? 0 then Raise ZeroDivisionError
    else
      let nx := getWidth temp / backgroundBinSize cfg in
      let ny := getHeight temp / backgroundBinSize cfg in
      bkgd ← lib (backgroundImage nx ny sigma temp);
      if negb (same_dimensions temp bkgd) then Raise LibraryError
      else
        let diff := sub_on_view box bkgd diff in
        acc ← for_each (measure_covariance cfg detector ampMeans diff)
                detector
                {| variances := ∅; coVars := ∅; meansDict := None |};
        match meansDict acc with
        | None => Raise UnboundLocalError
        | Some means =>
            Ok {| _means := means; _vars := variances acc;
                  _covars := coVars acc |}
        end.

(** A detector of one amplifier that covers an image of 5 x 5 pixels. *)
Definition amp_whole : Amp :=
  {| ampName := "A"; ampGain := 1;
     ampBBox := {| x0 := 0; y0 := 0; bwidth := 5; bheight := 5 |} |}.

(** ** [BfTaskConfig.validateIsrConfig] *)

(** An entry of [self.isr.toDict()]: a Python bool, or some other object
    ([None], a number, a nested dict). *)
Inductive py_value : Type := PyBool (b : bool) | PyObject.

#[global] Instance py_value_eq_dec : EqDecision py_value.
Proof. solve_decision. Defined.

(** [v is False] and [v is True]. *)
Definition is_False (v : py_value) : bool :=
  match v with PyBool false => true | _ => false end.
Definition is_True (v : py_value) : bool :=
  match v with PyBool true => true | _ => false end.

Definition mandatory : list string := ["doAssembleCcd"; "doOverscan"].
Definition forbidden : list string :=
  ["doApplyGains"; "normalizeGains"; "doFlat"; "doFringe";
   "doAddDistortionModel"; "doBrighterFatter"; "doUseOpticsTransmission";
   "doUseFilterTransmission"; "doUseSensorTransmission";
   "doUseAtmosphereTransmission"; "doGuider"; "doStrayLight"; "doTweakFlat"].
Definition desirableTrue : list string :=
  ["doBias"; "doDark"; "doCrosstalk"; "doDefect"; "doLinearize"].

(** [for configParam in params: if bad(configDict[configParam]): raise
    RuntimeError]. *)
Definition check_params (bad : py_value → bool)
    (configDict : gmap string py_value) (params : list string) : result () :=
  for_each (λ _ configParam,
              v ← or_raise KeyError (configDict !! configParam);
              if bad v then Raise RuntimeError else Ok ())
    params ().

(** [for configParam in desirableTrue: if configDict[configParam] is False:
    logger.warn(...)]: the parameters warned about, in order. *)
Definition warn_params (configDict : gmap string py_value)
    (params : list string) : result (list string) :=
  for_each (λ warned configParam,
              v ← or_raise KeyError (configDict !! configParam);
              Ok (if is_False v then warned ++ [configParam] else warned))
    params [].

(** [validateIsrConfig(logger)], on the dict of the ISR config and the
    truth value of [isr.assembleCcd.doTrim]: the warnings logged. *)
Definition validateIsrConfig (configDict : gmap string py_value)
    (doTrim : bool) : result (list string) :=
  _ ← check_params is_False configDict mandatory;
  _ ← check_params is_True configDict forbidden;
  warned ← warn_params configDict desirableTrue;
  if negb doTrim then Raise RuntimeError else Ok warned.

(** An ISR configuration that passes without a warning. *)
Definition good_isr_config : gmap string py_value :=
  list_to_map (((λ p, (p, PyBool true)) <$> mandatory)
               ++ ((λ p, (p, PyBool false)) <$> forbidden)
               ++ ((λ p, (p, PyBool true)) <$> desirableTrue)).

(** ** [_getNameOfSet] *)

(** [str(z)] of a Python int, and [int(s)] on the text of a decimal number
    (an optional minus sign and digits, the only texts the function passes):
    any other text, the empty one included, is a [ValueError]. *)
Definition py_str (z : Z) : string := NilZero.string_of_int (Z.to_int z).
Definition py_int (s : string) : result Z :=
  match NilZero.int_of_string s with
  | Some d => Ok (Z.of_int d)
  | None => Raise ValueError
  end.

(** [os.path.commonprefix([a, b])]: the longest common prefix. *)
Fixpoint commonprefix (a b : string) : string :=
  match a, b with
  | String c a', String d b' =>
      if Ascii.eqb c d then String c (commonprefix a' b') else EmptyString
  | _, _ => EmptyString
  end.

(** [s[n:]]. *)
Definition string_from (n : nat) (s : string) : string :=
  String.substring n (String.length s - n) s.

(** [_addPairToName(valName, val0, val1)], the list after the call. *)
Definition _addPairToName (valName : list string) (val0 val1 : Z)
    : result (list string) :=
  let sval1 := py_str val1 in
  if negb (val0 =? val1)%Z then
    let pre := commonprefix (py_str val0) sval1 in
    sval1 ← py_int (string_from (String.length pre) sval1);
    Ok (valName ++ [py_str val0 +:+ "-" +:+ py_str sval1])
  else Ok (valName ++ [py_str val0]).

(** The body of [for val in vals[1:]], on [(valName, val0, val1)]. *)
Definition name_step (st : list string * Z * Z) (val : Z)
    : result (list string * Z * Z) :=
  let '(valName, val0, val1) := st in
  if (val =? val1 + 1)%Z then Ok (valName, val0, val)
  else valName ← _addPairToName valName val0 val1; Ok (valName, val, val).

(** [_getNameOfSet(vals)] on a list of ints. *)
Definition _getNameOfSet (vals : list Z) : result string :=
  match vals with
  | [] => Ok EmptyString
  | val0 :: rest =>
      st ← for_each name_step rest ([], val0, val0);
      valName ← _addPairToName st.1.1 st.1.2 st.2;
      Ok (String.concat ", " valName)
  end.

(** ** [BfTask.run] *)

(** The keys of a dict in insertion order, from the keys in the order of
    their assignments: a key assigned again keeps its first place. *)
Fixpoint dict_keys (seen ks : list Key) : list Key :=
  match ks with
  | [] => []
  | k :: ks =>
      if bool_decide (k ∈ seen) then dict_keys seen ks
      else k :: dict_keys (k :: seen) ks
  end.

(** The keys of the dicts of [_prepareImage], in insertion order. *)
Definition prepared_keys (lvl : Level) (exp : Exposure) : list Key :=
  match lvl with
  | CCD => [DetKey (detectorId exp)]
  | AMP => dict_keys [] (AmpKey ∘ ampName <$> ampInfoCat exp)
  end.

(** The two dicts of lists that [run] fills, keyed by detector object. *)
Record run_state : Type := {
  xcorrs : gmap Key (list ndarray);
  pairMeans : gmap Key (list (float * float))
}.

(** The body of [for det_object in _scaledMaskedIm1.keys()]. *)
Definition correlate_object `{AfwMath} (cfg : BfTaskConfig)
    (_scaledMaskedIm1 _scaledMaskedIm2 : gmap Key image)
    (_means1 _means2 : gmap Key float) (st : run_state) (det_object : Key)
    : result run_state :=
  xs ← or_raise KeyError (xcorrs st !! det_object);
  im1 ← or_raise KeyError (_scaledMaskedIm1 !! det_object);
  im2 ← or_raise KeyError (_scaledMaskedIm2 !! det_object);
  xcorr ← _crossCorrelate cfg im1 im2;
  ms ← or_raise KeyError (pairMeans st !! det_object);
  mean1 ← or_raise KeyError (_means1 !! det_object);
  mean2 ← or_raise KeyError (_means2 !! det_object);
  Ok {| xcorrs := <[det_object := xs ++ [xcorr]]> (xcorrs st);
        pairMeans := <[det_object := ms ++ [(mean1, mean2)]]> (pairMeans st) |}.

(** The body of [for (v1, v2) in visitPairs]; [isr] runs ISR on a visit of
    the CCD at hand. *)
Definition correlate_pair `{AfwMath} {V} (cfg : BfTaskConfig)
    (isr : V → result Exposure) (gains : gmap string float)
    (st : run_state) (visPair : V * V) : result run_state :=
  exp1 ← isr visPair.1;
  exp2 ← isr visPair.2;
  prep1 ← _prepareImage cfg exp1 gains (level cfg);
  prep2 ← _prepareImage cfg exp2 gains (level cfg);
  for_each (correlate_object cfg prep1.1 prep2.1 prep1.2 prep2.2)
    (prepared_keys (level cfg) exp1) st.

(** [_calcMeansAndVars(dataRef, v1, v2)] with the ISR runs it starts. *)
Definition calc_pair `{AfwMath} {V} (cfg : BfTaskConfig)
    (isr : V → result Exposure) (visPair : V * V) : result pair_stats :=
  exp1 ← isr visPair.1;
  exp2 ← isr visPair.2;
  _calcMeansAndVars cfg (ampInfoCat exp1) (maskedImage exp1) (maskedImage exp2).

(** The gains: estimated, or read from the repository ([None] or an empty
    dict is refused). *)
Definition run_gains `{NumPy} `{AfwMath} {V} (cfg : BfTaskConfig)
    (doCalcGains : bool) (raw_detector : list Amp)
    (bfGain : option (gmap string float)) (isr : V → result Exposure)
    (visitPairs : list (V * V)) : result (gmap string float) :=
  if doCalcGains then
    g ← estimateGains cfg raw_detector (calc_pair cfg isr) visitPairs;
    Ok g.1
  else
    match bfGain with
    | Some gains => if bool_decide (gains = ∅) then Raise RuntimeError
                    else Ok gains
    | None => Raise RuntimeError
    end.

(** The keys of [xcorrs] and [means], in the order of their creation. *)
Definition run_keys (cfg : BfTaskConfig) (ccdNum : Z) (raw_detector : list Amp)
    : list Key :=
  match level cfg with
  | CCD => [DetKey ccdNum]
  | AMP => dict_keys [] (AmpKey ∘ ampName <$> raw_detector)
  end.

(** The body of [for det_object in xcorrs.keys()]: each correlation array
    is an object of its own, handed over by reference. *)
Definition kernel_of_object `{NumPy} `{AfwMath} `{Libm} (cfg : BfTaskConfig)
    (st : run_state) (kernels : gmap Key ndarray) (det_object : Key)
    : result (gmap Key ndarray) :=
  corrs ← or_raise KeyError (xcorrs st !! det_object);
  means ← or_raise KeyError (pairMeans st !! det_object);
  r ← _generateKernel cfg corrs (seq 0 (length corrs)) means None;
  Ok (<[det_object := r.2]> kernels).

(** [run(dataRef, visitPairs)]: the gains and the kernels that are put into
    the repository. *)
Definition run `{NumPy} `{AfwMath} `{Libm} {V} (cfg : BfTaskConfig)
    (doCalcGains : bool)
    (ccdNum : Z) (raw_detector : list Amp)
    (bfGain : option (gmap string float)) (isr : V → result Exposure)
    (visitPairs : list (V * V))
    : result (gmap string float * gmap Key ndarray) :=
  let keys := run_keys cfg ccdNum raw_detector in
  let st := {| xcorrs := list_to_map ((λ k, (k, [])) <$> keys);
               pairMeans := list_to_map ((λ k, (k, [])) <$> keys) |} in
  gains ← run_gains cfg doCalcGains raw_detector bfGain isr visitPairs;
  st ← for_each (correlate_pair cfg isr gains) visitPairs st;
  kernels ← for_each (kernel_of_object cfg st) keys ∅;
  Ok (gains, kernels).

(** ISR for the examples: visit 1 is a structured image, every other visit
    a blank one, of a CCD with one amplifier. *)
Definition exposure_of (im : image) : Exposure :=
  {| detectorId := 7; ampInfoCat := [amp_whole]; maskedImage := im |}.
Definition example_isr (visit : Z) : result Exposure :=
  Ok (exposure_of (if (visit =? 1)%Z then image_5x5 else zeros_5x5)).

(* ================================================================== *)
(** * Part II: properties *)
(* ================================================================== *)

(** ** Arrays *)

Lemma rect_set2 r c a i j v : rect r c a → rect r c (set2 a i j v).
Proof.
  intros [Hl Hf]. split.
  - unfold set2. by rewrite length_alter.
  - unfold set2. apply Forall_lookup. intros k row Hk.
    destruct (decide (i = k)) as [->|Hne].
    + rewrite list_lookup_alter_eq in Hk.
      destruct (a !! k) as [row0|] eqn:E; simplify_eq/=.
      rewrite length_insert. eapply (Forall_lookup_1 _ _ _ _ Hf E).
    + rewrite list_lookup_alter_ne in Hk by done.
      eapply (Forall_lookup_1 _ _ _ _ Hf Hk).
Qed.

Lemma rect_np_zeros r c : rect r c (np_zeros r c).
Proof.
  split; [apply length_replicate|].
  apply Forall_replicate, length_replicate.
Qed.

Lemma lookup2_rect r c a i j :
  rect r c a → i < r → j < c → is_Some (lookup2 a i j).
Proof.
  intros [Hl Hf] Hi Hj. unfold lookup2.
  destruct (lookup_lt_is_Some_2 a i) as [row Hrow]; [lia|].
  rewrite Hrow. simpl. apply lookup_lt_is_Some_2.
  rewrite (Forall_lookup_1 _ _ _ _ Hf Hrow). done.
Qed.

Lemma get2_set2 r c a i j v i' j' :
  rect r c a → i < r → j < c →
  get2 (set2 a i j v) i' j' =
    if bool_decide (i' = i ∧ j' = j) then v else get2 a i' j'.
Proof.
  intros [Hl Hf] Hi Hj. unfold get2, lookup2, set2.
  destruct (decide (i = i')) as [<-|Hne].
  - rewrite list_lookup_alter_eq.
    destruct (lookup_lt_is_Some_2 a i) as [row Hrow]; [lia|].
    rewrite Hrow. simpl.
    assert (length row = c) as Hc by apply (Forall_lookup_1 _ _ _ _ Hf Hrow).
    destruct (decide (j = j')) as [<-|Hnej].
    + rewrite list_lookup_insert_eq by lia.
      case_bool_decide as Hb; [done|]. by destruct Hb.
    + rewrite list_lookup_insert_ne by done.
      case_bool_decide as Hb; [|done]. by destruct Hb as [_ ->].
  - rewrite list_lookup_alter_ne by done.
    case_bool_decide as Hb; [|done]. by destruct Hb as [-> _].
Qed.

Lemma get2_np_zeros r c i j : get2 (np_zeros r c) i j = 0%float.
Proof.
  unfold get2, lookup2, np_zeros.
  destruct (decide (i < r)) as [Hi|Hi].
  - rewrite lookup_replicate_2 by done. simpl.
    destruct (decide (j < c)) as [Hj|Hj].
    + by rewrite lookup_replicate_2.
    + by rewrite (proj1 (lookup_replicate_None _ _ _)) by lia.
  - by rewrite (proj1 (lookup_replicate_None _ _ _)) by lia.
Qed.

(** The nested loops visit the pairs [(i, j)] in lexicographic order. *)
Lemma for2_flat {S} (ri rj : list nat) (body : nat → nat → S → S) (s : S) :
  for2 ri rj body s =
    foldl (λ s p, body p.1 p.2 s) s (i ← ri; (λ j, (i, j)) <$> rj).
Proof.
  unfold for2. revert s. induction ri as [|i ri IH]; intros s; [done|].
  simpl. rewrite foldl_app, foldl_fmap. simpl. apply IH.
Qed.

(** ** [_tileArray] *)

(** The index of the quarter array that lands on row (or column) [r] of the
    tiled array: the distance of [r] to the centre [length]. *)
Definition lag_of (length r : nat) : nat :=
  if decide (r < length) then length - r else r - length.

Lemma tile_body_get2 Q len i j out r c :
  rect (2 * len + 1) (2 * len + 1) out → i ≤ len → j ≤ len →
  get2 (tile_body Q len i j out) r c =
    if bool_decide (lag_of len r = i ∧ lag_of len c = j ∧ r ≤ 2 * len ∧ c ≤ 2 * len)
    then get2 Q i j else get2 out r c.
Proof.
  intros Hout Hi Hj. unfold tile_body, lag_of.
  rewrite !(get2_set2 (2 * len + 1) (2 * len + 1))
    by (repeat apply rect_set2; done || lia).
  repeat case_bool_decide; repeat case_decide; try done; lia.
Qed.

Lemma tile_body_rect Q len i j out n :
  rect n n out → rect n n (tile_body Q len i j out).
Proof. intros H. unfold tile_body. by repeat apply rect_set2. Qed.

Lemma tile_fold_rect Q len ps out n :
  rect n n out →
  rect n n (foldl (λ s p, tile_body Q len p.1 p.2 s) out ps).
Proof.
  revert out. induction ps as [|p ps IH]; intros out H; [done|].
  simpl. by apply IH, tile_body_rect.
Qed.

(** After the loop has run over the index pairs [ps], a cell holds the
    quarter value of its lags if that pair was visited, and is untouched
    otherwise. *)
Lemma tile_fold_get2 Q len ps out r c :
  rect (2 * len + 1) (2 * len + 1) out →
  Forall (λ p, p.1 ≤ len ∧ p.2 ≤ len) ps →
  r ≤ 2 * len → c ≤ 2 * len →
  get2 (foldl (λ s p, tile_body Q len p.1 p.2 s) out ps) r c =
    if bool_decide ((lag_of len r, lag_of len c) ∈ ps)
    then get2 Q (lag_of len r) (lag_of len c) else get2 out r c.
Proof.
  intros Hout Hps Hr Hc. revert out Hout.
  induction Hps as [|[i j] ps [Hi Hj] Hps IH]; intros out Hout;
    cbn [foldl fst snd] in *.
  - case_bool_decide as Hin; [|done]. by apply elem_of_nil in Hin.
  - rewrite IH by by apply tile_body_rect. clear IH.
    rewrite tile_body_get2 by done.
    repeat case_bool_decide; try done; rewrite elem_of_cons in *;
      first [ by intuition simplify_eq
            | exfalso; intuition (simplify_eq; eauto) ].
Qed.

Lemma lag_pairs_all len r c :
  r ≤ 2 * len → c ≤ 2 * len →
  (lag_of len r, lag_of len c)
    ∈ (i ← seq 0 (S len); (λ j, (i, j)) <$> seq 0 (S len)).
Proof.
  intros Hr Hc. apply list_elem_of_bind. exists (lag_of len r). split.
  - apply list_elem_of_fmap. exists (lag_of len c). split; [done|].
    apply elem_of_seq. unfold lag_of. case_decide; lia.
  - apply elem_of_seq. unfold lag_of. case_decide; lia.
Qed.

Lemma lag_pairs_bounded len :
  Forall (λ p : nat * nat, p.1 ≤ len ∧ p.2 ≤ len)
    (i ← seq 0 (S len); (λ j, (i, j)) <$> seq 0 (S len)).
Proof.
  apply Forall_forall. intros [i j] Hin.
  apply list_elem_of_bind in Hin as (i' & Hin & Hi).
  apply list_elem_of_fmap in Hin as (j' & Heq & Hj). simplify_eq.
  apply elem_of_seq in Hi, Hj. cbn [fst snd]. lia.
Qed.

(** Closed form of the tiled array. *)
Lemma tileArray_closed_form Q n :
  0 < n → rect n n Q →
  ∃ out, _tileArray Q = Ok out
    ∧ rect (2 * n - 1) (2 * n - 1) out
    ∧ ∀ r c, r ≤ 2 * (n - 1) → c ≤ 2 * (n - 1) →
        get2 out r c = get2 Q (lag_of (n - 1) r) (lag_of (n - 1) c).
Proof.
  intros Hn [Hl Hf]. unfold _tileArray, shape0, shape1.
  destruct Q as [|row Q]; [simpl in Hl; lia|].
  assert (length row = n) as Hrow by by inversion Hf.
  cbn [hd]. rewrite Hrow, <- Hl, Nat.eqb_refl. cbn [negb length].
  eexists. split; [done|].
  rewrite for2_flat.
  replace (2 * S (length Q) - 1) with (2 * length Q + 1) by lia.
  replace (S (length Q) - 1) with (length Q) by lia.
  split.
  - apply tile_fold_rect, rect_np_zeros.
  - intros r c Hr Hc.
    rewrite tile_fold_get2;
      [|apply rect_np_zeros|apply lag_pairs_bounded|done..].
    rewrite bool_decide_eq_true_2; [done|by apply lag_pairs_all].
Qed.

(** C7. For a square quarter array [Q] of side [n], [_tileArray] returns an
    array of side [2n-1] with centre index [n-1]; the value at quarter
    index [(i, j)] is found at the four positions (centre ± i, centre ± j);
    the result is unchanged by reflecting rows or columns about the
    centre, and its centre entry is [Q[0, 0]]. *)
Theorem tileArray_symmetric (Q : ndarray) (n : nat) :
  0 < n → rect n n Q →
  ∃ out, _tileArray Q = Ok out
    ∧ rect (2 * n - 1) (2 * n - 1) out
    ∧ (∀ i j, i < n → j < n →
         get2 out (n - 1 + i) (n - 1 + j) = get2 Q i j
         ∧ get2 out (n - 1 - i) (n - 1 + j) = get2 Q i j
         ∧ get2 out (n - 1 + i) (n - 1 - j) = get2 Q i j
         ∧ get2 out (n - 1 - i) (n - 1 - j) = get2 Q i j)
    ∧ (∀ r c, r ≤ 2 * (n - 1) → c ≤ 2 * (n - 1) →
         get2 out (2 * (n - 1) - r) c = get2 out r c
         ∧ get2 out r (2 * (n - 1) - c) = get2 out r c)
    ∧ get2 out (n - 1) (n - 1) = get2 Q 0 0.
Proof.
  intros Hn HQ.
  destruct (tileArray_closed_form Q n Hn HQ) as (out & Hrun & Hrect & Hget).
  exists out. split; [done|]. split; [done|].
  assert (∀ k, k < n → lag_of (n - 1) (n - 1 + k) = k) as Hplus.
  { intros k Hk. unfold lag_of. case_decide; lia. }
  assert (∀ k, k < n → lag_of (n - 1) (n - 1 - k) = k) as Hminus.
  { intros k Hk. unfold lag_of. case_decide; lia. }
  assert (∀ r, r ≤ 2 * (n - 1) →
            lag_of (n - 1) (2 * (n - 1) - r) = lag_of (n - 1) r) as Hrefl.
  { intros r Hr. unfold lag_of. repeat case_decide; lia. }
  split; [|split].
  - intros i j Hi Hj.
    rewrite !Hget by lia. rewrite !Hplus, !Hminus by done. done.
  - intros r c Hr Hc. rewrite !Hget by lia. rewrite !Hrefl by done. done.
  - rewrite Hget by lia.
    replace (n - 1) with (n - 1 + 0) at 2 4 by lia. by rewrite Hplus.
Qed.

(** The docstring's example, and a witness for C7 on it. *)
Lemma tileArray_symmetric_witness :
  ∃ out, _tileArray [[1; 2; 3]; [4; 5; 6]; [7; 8; 9]]%float = Ok out
    ∧ out = [[9; 8; 7; 8; 9]; [6; 5; 4; 5; 6]; [3; 2; 1; 2; 3];
             [6; 5; 4; 5; 6]; [9; 8; 7; 8; 9]]%float
    ∧ get2 out 2 2 = 1%float.
Proof.
  destruct (tileArray_symmetric [[1; 2; 3]; [4; 5; 6]; [7; 8; 9]]%float 3)
    as (out & Hrun & _ & _ & _ & Hc).
  - lia.
  - split; [reflexivity|]. repeat constructor.
  - exists out. split; [exact Hrun|]. split; [|exact Hc].
    vm_compute in Hrun. congruence.
Defined.

(** ** [_SOR]: the relaxation schedule and the stopping rule *)

(** The relaxation factor in effect during half-sweep number [k] (counted
    from 0) when no test has stopped the loop before. *)
Fixpoint omega_at (rhoSpe : float) (k : nat) : float :=
  match k with
  | 0 => 1%float
  | S k' => next_omega rhoSpe k' (omega_at rhoSpe k')
  end.

(** A pass of the loop body whose test fails. *)
Definition sweep_once (source : ndarray) (rhoSpe : float) (s : sor_state)
    : sor_state :=
  let fr := half_sweep source s in
  {| func := fr.1; resid := fr.2;
     omega := next_omega rhoSpe (nIter s) (omega s);
     nIter := S (nIter s); outError := np_sum (np_abs fr.2) |}.

(** The loop state after [k] passes whose tests all failed. *)
Definition after_sweeps (source : ndarray) (rhoSpe : float) (k : nat)
    : sor_state :=
  Nat.iter k (sweep_once source rhoSpe) (sor_init source).

(** The test made at the end of half-sweep number [k]. *)
Definition converged_at (source : ndarray) (rhoSpe threshold : float)
    (k : nat) : bool :=
  (outError (after_sweeps source rhoSpe (S k)) <? threshold)%float.

(** The state in which the loop is left by [break] in half-sweep [h]:
    [omega] and [nIter] are not updated any more. *)
Definition stopped_in (source : ndarray) (rhoSpe : float) (h : nat)
    : sor_state :=
  let s := after_sweeps source rhoSpe h in
  let fr := half_sweep source s in
  {| func := fr.1; resid := fr.2; omega := omega s; nIter := nIter s;
     outError := np_sum (np_abs fr.2) |}.

Lemma after_sweeps_S source rho k :
  after_sweeps source rho (S k) = sweep_once source rho (after_sweeps source rho k).
Proof. reflexivity. Qed.

Lemma after_sweeps_nIter source rho k : nIter (after_sweeps source rho k) = k.
Proof.
  induction k as [|k IH]; [done|]. rewrite after_sweeps_S. simpl. by rewrite IH.
Qed.

Lemma after_sweeps_omega source rho k :
  omega (after_sweeps source rho k) = omega_at rho k.
Proof.
  induction k as [|k IH]; [done|].
  rewrite after_sweeps_S. cbn [sweep_once omega omega_at].
  by rewrite IH, after_sweeps_nIter.
Qed.

Lemma sor_body_continue source rho eLevel inError k :
  converged_at source rho (inError * eLevel) k = false →
  sor_body source rho eLevel inError (after_sweeps source rho k)
  = (after_sweeps source rho (S k), false).
Proof.
  unfold converged_at. rewrite after_sweeps_S.
  unfold sor_body, sweep_once. cbn [outError]. by intros ->.
Qed.

Lemma sor_body_break source rho eLevel inError k :
  converged_at source rho (inError * eLevel) k = true →
  sor_body source rho eLevel inError (after_sweeps source rho k)
  = (stopped_in source rho k, true).
Proof.
  unfold converged_at. rewrite after_sweeps_S.
  unfold sor_body, sweep_once, stopped_in. cbn [outError]. by intros ->.
Qed.

(** The loop, started after [n] passes with [remaining] passes allowed,
    is left in the first half-sweep whose test succeeds, or else when the
    allowance is used up. *)
Lemma sor_while_spec source rho eLevel inError remaining n :
  let conv := converged_at source rho (inError * eLevel) in
  let final := sor_while (sor_body source rho eLevel inError) remaining
                 (after_sweeps source rho n) in
  (∃ h, n ≤ h < n + remaining
        ∧ (∀ k, n ≤ k < h → conv k = false) ∧ conv h = true
        ∧ final = stopped_in source rho h)
  ∨ ((∀ k, n ≤ k < n + remaining → conv k = false)
     ∧ final = after_sweeps source rho (n + remaining)).
Proof.
  intros conv. revert n.
  induction remaining as [|rem IH]; intros n final.
  - right. split; [intros; lia|]. subst final. simpl. f_equal. lia.
  - subst final. cbn [sor_while].
    destruct (conv n) eqn:Hn.
    + rewrite sor_body_break by done. left. exists n.
      split; [lia|]. split; [intros; lia|]. done.
    + rewrite sor_body_continue by done.
      destruct (IH (S n)) as [(h & Hh & Hbefore & Hat & Hfin)|[Hnone Hfin]].
      * left. exists h. split; [lia|]. split; [|done].
        intros k Hk. destruct (decide (k = n)) as [->|]; [done|].
        apply Hbefore. lia.
      * right. split.
        -- intros k Hk. destruct (decide (k = n)) as [->|]; [done|].
           apply Hnone. lia.
        -- rewrite Hfin. f_equal. lia.
Qed.

(** C5 (as the code has it).  The relaxation factor starts at 1 and
    follows the recurrence [1/(1 - rho^2/2)], then [1/(1 - rho^2*omega/4)],
    with [rho = cos(pi/source.shape[0])]; it is recomputed after every
    half-sweep whose test fails, so half-sweep [k] runs with [omega_at rho k].
    The test [outError < inError*eLevel] is made after every half-sweep on
    the sum of the absolute entries of [resid], and the loop is left in the
    first half-sweep whose test succeeds, or after [2*maxIter]
    half-sweeps; the interior of [func] is returned.  When no half-sweep
    is allowed at all ([2*maxIter = 0]) the call raises instead: the
    message logged after the loop reads [outError], which only the loop
    binds. *)
Theorem SOR_schedule_and_stop `{NumPy} (cfg : BfTaskConfig) (source : ndarray)
    (maxIter : option nat) (eLevel : option float) :
  0 < shape0 source → shape0 source ≤ shape1 source →
  let rho := np_cos (np_pi / float_of_nat (shape0 source))%float in
  let budget := or_default_nat maxIter (maxIterSOR cfg) * 2 in
  let inError := np_sum (np_abs (resid (sor_init source))) in
  let threshold := (inError * or_default_float eLevel (eLevelSOR cfg))%float in
  let final := _SOR_run cfg source maxIter eLevel in
  (omega_at rho 0 = 1%float
   ∧ omega_at rho 1 = (1 / (1 - rho * rho / 2))%float
   ∧ ∀ k, omega_at rho (S (S k))
          = (1 / (1 - rho * rho * omega_at rho (S k) / 4))%float)
  ∧ (∀ k, nIter (after_sweeps source rho k) = k
          ∧ omega (after_sweeps source rho k) = omega_at rho k)
  ∧ ((∃ h, h < budget
          ∧ (∀ k, k < h → converged_at source rho threshold k = false)
          ∧ converged_at source rho threshold h = true
          ∧ final = stopped_in source rho h
          ∧ nIter final = h ∧ omega final = omega_at rho h)
     ∨ ((∀ k, k < budget → converged_at source rho threshold k = false)
        ∧ final = after_sweeps source rho budget
        ∧ nIter final = budget))
  ∧ (0 < budget →
     _SOR cfg source maxIter eLevel = Ok (interior (func final)))
  ∧ (budget = 0 →
     _SOR cfg source maxIter eLevel = Raise UnboundLocalError).
Proof.
  intros Hrows Hcols rho budget inError threshold final.
  split; [by repeat split|].
  split; [intros k; split;
            [apply after_sweeps_nIter|apply after_sweeps_omega]|].
  pose proof (sor_while_spec source rho
                (or_default_float eLevel (eLevelSOR cfg)) inError
                (or_default_nat maxIter (maxIterSOR cfg) * 2) 0) as Hspec.
  cbn zeta in Hspec.
  change (after_sweeps source rho 0) with (sor_init source) in Hspec.
  fold threshold budget in Hspec.
  change (sor_while _ budget (sor_init source)) with final in Hspec.
  split.
  - destruct Hspec as [(h & Hh & Hbefore & Hat & Hfin)|[Hnone Hfin]].
    + left. exists h. split; [lia|]. split; [intros; apply Hbefore; lia|].
      split; [done|]. split; [done|]. rewrite Hfin. unfold stopped_in.
      cbn [nIter omega]. by rewrite after_sweeps_nIter, after_sweeps_omega.
    + right. split; [intros; apply Hnone; lia|]. split; [done|].
      rewrite Hfin. apply after_sweeps_nIter.
  - unfold _SOR. subst budget.
    destruct (Nat.eqb_spec (shape0 source) 0) as [|_]; [lia|].
    destruct (Nat.eqb_spec (or_default_nat maxIter (maxIterSOR cfg)) 0)
      as [Hzero|Hpos].
    + split; [lia|done].
    + destruct (Nat.ltb_spec (shape1 source) (shape0 source)) as [|_];
        [lia|].
      split; [done|lia].
Qed.

(** ** Floating-point facts used below *)

Lemma finite_cases (w : float) :
  is_finite w = true →
  (∃ s, Prim2SF w = S754_zero s) ∨ (∃ s m e, Prim2SF w = S754_finite s m e).
Proof.
  unfold is_finite, is_nan, is_infinity.
  rewrite !FloatAxioms.eqb_spec, FloatAxioms.abs_spec.
  destruct (Prim2SF w) as [s|s| |s m e] eqn:E; cbn.
  - eauto.
  - destruct s; cbn; discriminate.
  - discriminate.
  - eauto 6.
Qed.

(** [0 + w*0*.25] is [0] for a finite [w] (it is NaN for an infinite one). *)
Lemma relax_zero (w : float) :
  is_finite w = true → (0 + w * 0 * 0.25)%float = 0%float.
Proof.
  intros Hw. apply Prim2SF_inj.
  rewrite FloatAxioms.add_spec, !FloatAxioms.mul_spec.
  destruct (finite_cases w Hw) as [[s ->]|(s & m & e & ->)];
    destruct s; reflexivity.
Qed.

(** [0 < 0*x] is false for every [x], also an infinite or NaN one. *)
Lemma zero_not_below (x : float) : (0 <? 0 * x)%float = false.
Proof.
  rewrite FloatAxioms.ltb_spec, FloatAxioms.mul_spec.
  destruct (Prim2SF x) as [s|s| |s m e]; try destruct s; reflexivity.
Qed.

Lemma negative_not_positive (x : float) :
  (x <? 0)%float = true → (0 <? x)%float = false.
Proof.
  rewrite !FloatAxioms.ltb_spec.
  destruct (Prim2SF x) as [s|s| |s m e]; try destruct s; cbn; congruence.
Qed.

Lemma eqb_zero (x : float) :
  (x =? 0)%float = true → x = 0%float ∨ x = (-0)%float.
Proof.
  rewrite FloatAxioms.eqb_spec. intros H.
  destruct (Prim2SF x) as [s|s| |s m e] eqn:E; try destruct s;
    try discriminate H.
  - right. apply Prim2SF_inj. rewrite E. reflexivity.
  - left. apply Prim2SF_inj. rewrite E. reflexivity.
Qed.

(** ** [_SOR] on a source of zeros *)

Lemma set2_np_zeros r c i j : set2 (np_zeros r c) i j 0%float = np_zeros r c.
Proof.
  unfold set2, np_zeros. apply list_eq. intros k.
  rewrite list_lookup_alter. case_decide as Hk; [|done]. subst k.
  destruct (replicate r (replicate c 0%float) !! i) as [row|] eqn:E; [|done].
  apply lookup_replicate in E as [-> _]. simpl. by rewrite insert_replicate.
Qed.

Lemma for2_fixpoint {S} (ri rj : list nat) (body : nat → nat → S → S) (s : S) :
  (∀ i j, body i j s = s) → for2 ri rj body s = s.
Proof.
  intros Hfix. unfold for2.
  induction ri as [|i ri IH]; [done|]. cbn [foldl].
  assert (foldl (λ s j, body i j s) s rj = s) as ->; [|done].
  clear IH. induction rj as [|j rj IH]; [done|]. cbn [foldl]. by rewrite Hfix.
Qed.

Lemma np_sum_abs_zeros r c : np_sum (np_abs (np_zeros r c)) = 0%float.
Proof.
  unfold np_sum, np_abs, np_zeros.
  change map with (@fmap list _). rewrite !fmap_replicate.
  change (PrimFloat.abs 0) with 0%float.
  induction r as [|r IH]; [done|]. cbn [replicate concat].
  rewrite foldl_app.
  assert (foldl PrimFloat.add 0%float (replicate c 0%float) = 0%float) as ->;
    [|done].
  clear IH. induction c as [|c IH]; [done|]. cbn [replicate foldl].
  change (0 + 0)%float with 0%float. done.
Qed.

Lemma shape0_np_zeros r c : shape0 (np_zeros r c) = r.
Proof. apply length_replicate. Qed.

Lemma shape1_np_zeros r c : 0 < r → shape1 (np_zeros r c) = c.
Proof.
  intros Hr. unfold shape1, np_zeros. destruct r; [lia|].
  cbn [replicate hd]. apply length_replicate.
Qed.

Lemma initial_resid_zeros n :
  initial_resid (np_zeros (n + 2) (n + 2)) (np_zeros n n)
  = np_zeros (n + 2) (n + 2).
Proof.
  unfold initial_resid.
  rewrite shape0_np_zeros, shape1_np_zeros by lia.
  apply for2_fixpoint. intros i j.
  rewrite !get2_np_zeros.
  change (0 + 0 + 0 + 0 - 4 * 0 - 0)%float with 0%float.
  apply set2_np_zeros.
Qed.

Lemma relax_zeros n w i j :
  is_finite w = true →
  relax (np_zeros n n) w i j (np_zeros (n + 2) (n + 2), np_zeros (n + 2) (n + 2))
  = (np_zeros (n + 2) (n + 2), np_zeros (n + 2) (n + 2)).
Proof.
  intros Hw. unfold relax. cbn [fst snd]. rewrite !get2_np_zeros.
  change (0 + 0 + 0 + 0 - 4 * 0 - dx * dx * 0)%float with 0%float.
  rewrite (relax_zero w Hw). by rewrite set2_np_zeros.
Qed.

Lemma half_sweep_zeros n s :
  func s = np_zeros (n + 2) (n + 2) → resid s = np_zeros (n + 2) (n + 2) →
  is_finite (omega s) = true →
  half_sweep (np_zeros n n) s
  = (np_zeros (n + 2) (n + 2), np_zeros (n + 2) (n + 2)).
Proof.
  intros Hf Hr Hw. unfold half_sweep. rewrite Hf, Hr.
  set (z := (np_zeros (n + 2) (n + 2), np_zeros (n + 2) (n + 2))).
  destruct (Nat.even (nIter s));
    do 2 rewrite (for2_fixpoint _ _ _ z) by (intros; by apply relax_zeros);
    done.
Qed.

Lemma after_sweeps_zeros n rho k :
  (∀ j, j < k → is_finite (omega_at rho j) = true) →
  after_sweeps (np_zeros n n) rho k
  = {| func := np_zeros (n + 2) (n + 2); resid := np_zeros (n + 2) (n + 2);
       omega := omega_at rho k; nIter := k; outError := 0 |}.
Proof.
  induction k as [|k IH]; intros Hfin.
  - unfold after_sweeps, sor_init. cbn [Nat.iter].
    rewrite shape0_np_zeros.
    assert (shape1 (np_zeros n n) + 2 = n + 2) as ->.
    { destruct n; [done|]. by rewrite shape1_np_zeros by lia. }
    by rewrite initial_resid_zeros.
  - rewrite after_sweeps_S, IH by (intros; apply Hfin; lia).
    unfold sweep_once.
    rewrite (half_sweep_zeros n) by (done || (cbn [omega]; apply Hfin; lia)).
    cbn [fst snd nIter omega omega_at]. by rewrite np_sum_abs_zeros.
Qed.

Lemma interior_zeros n : interior (np_zeros (n + 2) (n + 2)) = np_zeros n n.
Proof.
  unfold interior, np_zeros.
  rewrite length_replicate, take_replicate, drop_replicate, fmap_replicate.
  rewrite length_replicate, take_replicate, drop_replicate.
  f_equal; [lia|]. f_equal. lia.
Qed.

(** C6 (as the code has it).  On a source of zeros the solver returns the
    all-zero interior, but the test [outError < inError*eLevel] is [0 < 0]
    and never succeeds: the loop runs all [2*maxIter] half-sweeps and the
    failure to converge is logged.  (The relaxation factors are finite, as
    they are for [rho = cos(pi/n)].)  With no half-sweep allowed
    ([2*maxIter = 0]) the loop body never runs, [outError] is never bound
    and the message after the loop raises. *)
Theorem SOR_zero_source `{NumPy} (cfg : BfTaskConfig) (n : nat)
    (maxIter : option nat) (eLevel : option float) :
  let source := np_zeros n n in
  let budget := or_default_nat maxIter (maxIterSOR cfg) * 2 in
  0 < n →
  (∀ k, k < budget → is_finite (omega_at (sor_rho source) k) = true) →
  (0 < budget → _SOR cfg source maxIter eLevel = Ok (np_zeros n n))
  ∧ (budget = 0 → _SOR cfg source maxIter eLevel = Raise UnboundLocalError)
  ∧ nIter (_SOR_run cfg source maxIter eLevel) = budget
  ∧ sor_converged cfg maxIter (_SOR_run cfg source maxIter eLevel) = false.
Proof.
  intros source budget Hn Hfin.
  set (rho := sor_rho source) in *.
  set (e := or_default_float eLevel (eLevelSOR cfg)).
  assert (np_sum (np_abs (resid (sor_init source))) = 0%float) as Hin.
  { change (sor_init source) with (after_sweeps source rho 0).
    unfold source. rewrite after_sweeps_zeros by (intros; lia).
    cbn [resid]. apply np_sum_abs_zeros. }
  assert (∀ k, k < budget → converged_at source rho (0 * e) k = false) as Hno.
  { intros k Hk. unfold converged_at, source.
    rewrite after_sweeps_zeros by (intros; apply Hfin; lia).
    cbn [outError]. apply zero_not_below. }
  assert (_SOR_run cfg source maxIter eLevel = after_sweeps source rho budget)
    as Hrun.
  { unfold _SOR_run. cbn zeta. rewrite Hin. fold e budget rho.
    destruct (sor_while_spec source rho e 0%float budget 0)
      as [(h & Hh & _ & Hat & _)|[_ Hfinal]].
    - rewrite Hno in Hat by lia. done.
    - exact Hfinal. }
  unfold _SOR, sor_converged. rewrite Hrun. fold budget.
  unfold source at 1 2 3 4 5 6. rewrite shape0_np_zeros, shape1_np_zeros by done.
  destruct (Nat.eqb_spec n 0) as [->|_]; [lia|].
  rewrite Nat.ltb_irrefl.
  unfold source. rewrite after_sweeps_zeros by (intros; apply Hfin; lia).
  cbn [func nIter]. rewrite interior_zeros.
  split; [|split; [|split; [done|by rewrite Nat.leb_refl]]].
  - intros Hpos.
    destruct (Nat.eqb_spec (or_default_nat maxIter (maxIterSOR cfg)) 0);
      [subst budget; lia|done].
  - intros Hzero.
    destruct (Nat.eqb_spec (or_default_nat maxIter (maxIterSOR cfg)) 0);
      [done|subst budget; lia].
Qed.

(** ** [_generateKernel]: the loop over the samples *)

Lemma lookup2_set2_eq a i j v :
  is_Some (lookup2 a i j) → lookup2 (set2 a i j v) i j = Some v.
Proof.
  unfold lookup2, set2. intros [x Hx]. rewrite list_lookup_alter_eq.
  destruct (a !! i) as [row|]; [|done]. simpl in *.
  apply list_lookup_insert_eq. by eapply lookup_lt_Some.
Qed.

Lemma lookup2_set2_ne a i j v i' j' :
  (i', j') ≠ (i, j) → lookup2 (set2 a i j v) i' j' = lookup2 a i' j'.
Proof.
  unfold lookup2, set2. intros Hne.
  destruct (decide (i = i')) as [<-|Hi].
  - rewrite list_lookup_alter_eq. destruct (a !! i) as [row|]; [|done]. cbn.
    apply list_lookup_insert_ne. congruence.
  - by rewrite list_lookup_alter_ne.
Qed.

Lemma lookup2_divide_array d a i j :
  lookup2 (divide_array d a) i j = (λ x, x / d)%float <$> lookup2 a i j.
Proof.
  unfold lookup2, divide_array. change map with (@fmap list _).
  rewrite list_lookup_fmap. destruct (a !! i) as [row|]; [|done]. simpl.
  by rewrite list_lookup_fmap.
Qed.

(** The squares [mean**2] of Python floats: the only exception is
    [OverflowError], and on an ordinary value (finite, not 0, not 1 in
    magnitude) the square is the [pow] of the C library. *)
Lemma py_square_raises `{Libm} (x : float) (e : exn) :
  py_square x = Raise e → e = OverflowError.
Proof.
  unfold py_square. intros Hsq.
  repeat match type of Hsq with
         | (if ?b then _ else _) = _ => destruct b
         end; congruence.
Qed.

Lemma py_square_ordinary `{Libm} (x : float) :
  is_nan x = false → is_infinity x = false → (x =? 0)%float = false →
  (PrimFloat.abs x =? 1)%float = false →
  py_square x = if is_infinity (pow (PrimFloat.abs x) 2)
                then Raise OverflowError else Ok (pow (PrimFloat.abs x) 2).
Proof. unfold py_square. by intros -> -> -> ->. Qed.

Lemma norm_factor_Ok `{Libm} (mean1 mean2 sq1 sq2 : float) :
  py_square mean1 = Ok sq1 → py_square mean2 = Ok sq2 →
  norm_factor mean1 mean2 = Ok (- (1 * (sq1 + sq2)))%float.
Proof. unfold norm_factor. by intros -> ->. Qed.

Lemma norm_factor_squares `{Libm} (mean1 mean2 d : float) :
  norm_factor mean1 mean2 = Ok d →
  ∃ sq1 sq2, py_square mean1 = Ok sq1 ∧ py_square mean2 = Ok sq2
    ∧ d = (- (1 * (sq1 + sq2)))%float.
Proof.
  unfold norm_factor. intros Hd.
  destruct (py_square mean1) as [sq1|]; [|done]. cbn in Hd.
  destruct (py_square mean2) as [sq2|]; [|done]. cbn in Hd.
  exists sq1, sq2. by simplify_eq.
Qed.

Lemma norm_factor_raises `{Libm} (mean1 mean2 : float) :
  py_square mean1 = Raise OverflowError
  ∨ py_square mean2 = Raise OverflowError →
  norm_factor mean1 mean2 = Raise OverflowError.
Proof.
  unfold norm_factor. intros [Hsq|Hsq].
  - by rewrite Hsq.
  - destruct (py_square mean1) as [sq1|e] eqn:Hsq1; cbn.
    + by rewrite Hsq.
    + by rewrite (py_square_raises _ _ Hsq1).
Qed.

(** The array that a sample leaves in the store: with the means subtracted
    from [[0, 0]], and, unless the sample is skipped, divided by
    [-(mean1**2+mean2**2)]; when a square overflows the division does not
    take place (the subtraction already has). *)
Definition left_in_store `{Libm} (mean1 mean2 : float) (corr : ndarray)
    : ndarray :=
  let corrected := subtract_means mean1 mean2 corr in
  if (0 <? get2 corrected 0 0)%float then corrected
  else match py_square mean1, py_square mean2 with
       | Ok sq1, Ok sq2 => divide_array (- (1 * (sq1 + sq2)))%float corrected
       | _, _ => corrected
       end.

Lemma kernel_step_store `{Libm} rejectLevel acc mean1 mean2 ref acc' :
  kernel_step rejectLevel acc ((mean1, mean2), ref) = Ok acc' →
  ∃ corr, store acc !! ref = Some corr
    ∧ is_Some (lookup2 corr 0 0)
    ∧ store acc' = <[ref := left_in_store mean1 mean2 corr]> (store acc)
    ∧ ((0 <? get2 (subtract_means mean1 mean2 corr) 0 0)%float = false →
       ∃ sq1 sq2, py_square mean1 = Ok sq1 ∧ py_square mean2 = Ok sq2).
Proof.
  unfold kernel_step, left_in_store. intros Hstep.
  destruct (store acc !! ref) as [corr|] eqn:Hcorr; [|done].
  exists corr. split; [done|]. cbn in Hstep.
  destruct (lookup2 corr 0 0) as [c00|] eqn:H00; [|done].
  split; [done|]. cbn in Hstep.
  destruct (0 <? get2 (subtract_means mean1 mean2 corr) 0 0)%float.
  - split; [by simplify_eq|done].
  - destruct (norm_factor mean1 mean2) as [d|] eqn:Hd; [|done].
    apply norm_factor_squares in Hd as (sq1 & sq2 & Hsq1 & Hsq2 & ->).
    rewrite Hsq1, Hsq2. cbn in Hstep.
    rewrite list_insert_insert_eq in Hstep.
    destruct (_tileArray _) as [full|]; [|done]. cbn in Hstep.
    split; [|by eauto].
    destruct (rejectLevel <? _)%float; by simplify_eq.
Qed.

(** C2 (as the code has it).  For a sample [(mean1, mean2, corr)] the loop
    subtracts [mean1+mean2] from [corr[0, 0]]; the sample is skipped (the
    loop goes on) exactly when the corrected entry is strictly positive, a
    corrected entry equal to 0 being kept; every other sample is divided,
    entry by entry, by [-(mean1**2+mean2**2)] and then tiled, and is kept
    unless the sum check rejects it.  The squares are those of Python
    floats: on an ordinary mean the [pow] of the C library, and the pass
    raises [OverflowError] when one of them overflows. *)
Theorem kernel_step_outcome `{Libm} (rejectLevel : float) (acc : kernel_acc)
    (mean1 mean2 : float) (ref : nat) (corr : ndarray) :
  store acc !! ref = Some corr → is_Some (lookup2 corr 0 0) →
  let corrected := subtract_means mean1 mean2 corr in
  get2 corrected 0 0 = (get2 corr 0 0 - (mean1 + mean2))%float
  ∧ (∀ i j, (i, j) ≠ (0, 0) → lookup2 corrected i j = lookup2 corr i j)
  ∧ ((0 <? get2 corrected 0 0)%float = true →
       kernel_step rejectLevel acc ((mean1, mean2), ref)
       = Ok {| store := <[ref := corrected]> (store acc);
               xcorrList := xcorrList acc; fullCorr := fullCorr acc |})
  ∧ ((0 <? get2 corrected 0 0)%float = false →
       (∀ sq1 sq2, py_square mean1 = Ok sq1 → py_square mean2 = Ok sq2 →
          let normalized :=
            divide_array (- (1 * (sq1 + sq2)))%float corrected in
          (∀ i j, lookup2 normalized i j
                  = (λ x, x / - (1 * (sq1 + sq2)))%float
                      <$> lookup2 corrected i j)
          ∧ ∀ full, _tileArray normalized = Ok full →
              kernel_step rejectLevel acc ((mean1, mean2), ref)
              = Ok {| store := <[ref := normalized]> (store acc);
                      xcorrList :=
                        if (rejectLevel <? xcorrCheck full)%float
                        then xcorrList acc else xcorrList acc ++ [full];
                      fullCorr := Some full |})
       ∧ (py_square mean1 = Raise OverflowError
          ∨ py_square mean2 = Raise OverflowError →
          kernel_step rejectLevel acc ((mean1, mean2), ref)
          = Raise OverflowError))
  ∧ (∀ x, is_nan x = false → is_infinity x = false →
          (x =? 0)%float = false → (PrimFloat.abs x =? 1)%float = false →
          py_square x = if is_infinity (pow (PrimFloat.abs x) 2)
                        then Raise OverflowError
                        else Ok (pow (PrimFloat.abs x) 2)).
Proof.
  intros Hcorr H00 corrected.
  split; [|split; [|split; [|split]]].
  - unfold corrected, subtract_means, get2 at 1.
    by rewrite lookup2_set2_eq.
  - intros i j Hij. by apply lookup2_set2_ne.
  - intros Hpos. unfold kernel_step. rewrite Hcorr. cbn.
    destruct H00 as [c00 ->]. cbn. fold corrected. by rewrite Hpos.
  - intros Hnot. split.
    + intros sq1 sq2 Hsq1 Hsq2 normalized. split.
      * intros i j. apply lookup2_divide_array.
      * intros full Htile. unfold kernel_step. rewrite Hcorr. cbn.
        destruct H00 as [c00 ->]. cbn. fold corrected. rewrite Hnot.
        rewrite (norm_factor_Ok _ _ _ _ Hsq1 Hsq2). cbn.
        fold normalized. rewrite Htile. cbn. rewrite list_insert_insert_eq.
        by destruct (rejectLevel <? xcorrCheck full)%float.
    + intros Hover. unfold kernel_step. rewrite Hcorr. cbn.
      destruct H00 as [c00 ->]. cbn. fold corrected. rewrite Hnot.
      by rewrite (norm_factor_raises _ _ Hover).
  - apply py_square_ordinary.
Qed.

(** The loop changes the store only at the references it visits, and leaves
    at each of them the array computed from what it found there. *)
Lemma kernel_loop_store `{Libm} rejectLevel items acc acc' :
  NoDup items.*2 →
  for_each (kernel_step rejectLevel) items acc = Ok acc' →
  (∀ r, r ∉ items.*2 → store acc' !! r = store acc !! r)
  ∧ (∀ mean1 mean2 ref corr,
       ((mean1, mean2), ref) ∈ items → store acc !! ref = Some corr →
       is_Some (lookup2 corr 0 0)
       ∧ store acc' !! ref = Some (left_in_store mean1 mean2 corr)
       ∧ ((0 <? get2 (subtract_means mean1 mean2 corr) 0 0)%float = false →
          ∃ sq1 sq2, py_square mean1 = Ok sq1 ∧ py_square mean2 = Ok sq2)).
Proof.
  revert acc. induction items as [|[[m1 m2] r0] items IH]; intros acc Hnd Hrun.
  - cbn in Hrun. simplify_eq. split; [done|]. intros ???? Hin.
    by apply elem_of_nil in Hin.
  - cbn [for_each] in Hrun.
    destruct (kernel_step rejectLevel acc (m1, m2, r0)) as [acc1|] eqn:Hstep;
      [|done].
    cbn in Hrun, Hnd. apply NoDup_cons in Hnd as [Hfresh Hnd].
    destruct (kernel_step_store _ _ _ _ _ _ Hstep)
      as (corr0 & Hc0 & H00 & Hst & Hsq).
    destruct (IH acc1 Hnd Hrun) as [Hother Hvisited].
    split.
    + intros r Hr. cbn in Hr. apply not_elem_of_cons in Hr as [Hne Hr].
      rewrite Hother, Hst by done. by rewrite list_lookup_insert_ne.
    + intros mean1 mean2 ref corr Hin Hcorr.
      apply elem_of_cons in Hin as [Heq|Hin].
      * simplify_eq. split; [done|]. split; [|done].
        rewrite Hother, Hst by done.
        apply list_lookup_insert_eq. by eapply lookup_lt_Some.
      * apply (Hvisited mean1 mean2 ref corr Hin).
        rewrite Hst, list_lookup_insert_ne; [done|].
        intros ->. apply Hfresh.
        by apply (list_elem_of_fmap_2 snd) in Hin.
Qed.

Lemma zip_snd_NoDup {A} (l : list A) (k : list nat) :
  NoDup k → NoDup (zip l k).*2.
Proof.
  intros Hnd. revert l. induction Hnd as [|x k Hx Hnd IH]; intros l.
  - destruct l; constructor.
  - destruct l as [|a l]; [constructor|]. cbn. apply NoDup_cons. split; [|done].
    intros Hin. apply Hx. apply list_elem_of_fmap in Hin as ([a' x'] & -> & Hin).
    by apply elem_of_zip_r in Hin.
Qed.

(** The in-place update that one sample makes to the store. *)
Definition update_in_place `{Libm} (st : list ndarray)
    (item : (float * float) * nat) : list ndarray :=
  match st !! item.2 with
  | Some corr => <[item.2 := left_in_store item.1.1 item.1.2 corr]> st
  | None => st
  end.

Lemma kernel_loop_fold `{Libm} rejectLevel items acc acc' :
  for_each (kernel_step rejectLevel) items acc = Ok acc' →
  store acc' = foldl update_in_place (store acc) items.
Proof.
  revert acc. induction items as [|[[m1 m2] r0] items IH]; intros acc Hrun.
  - cbn in Hrun. by simplify_eq.
  - cbn [for_each] in Hrun.
    destruct (kernel_step rejectLevel acc (m1, m2, r0)) as [acc1|] eqn:Hstep;
      [|done].
    cbn in Hrun. rewrite (IH acc1 Hrun). cbn [foldl]. f_equal.
    destruct (kernel_step_store _ _ _ _ _ _ Hstep)
      as (corr0 & Hc0 & _ & Hst & _).
    unfold update_in_place. cbn [fst snd]. by rewrite Hc0.
Qed.


(** ** [estimateGains]: the sanity check *)

Lemma mapM_ok {A B} (f : A → result B) (g : A → B) (l : list A) :
  (∀ x, x ∈ l → f x = Ok (g x)) → mapM f l = Ok (g <$> l).
Proof.
  induction l as [|x l IH]; intros Hf; [done|].
  cbn [mapM]. rewrite (Hf x) by left.
  rewrite IH by (intros; apply Hf; by right). done.
Qed.

(** The sanity condition of one region, on dicts that hold the region. *)
Definition fails_sanity (st : pair_stats) (name : string) : bool :=
  match _means st !! name, _vars st !! name, _covars st !! name with
  | Some m, Some v, Some c => (m * 10 <? v)%float || (m * 10 <? c)%float
  | _, _, _ => false
  end.

Definition has_stats (st : pair_stats) (name : string) : Prop :=
  is_Some (_means st !! name) ∧ is_Some (_vars st !! name)
  ∧ is_Some (_covars st !! name).

Lemma sanity_failed_ok st name :
  has_stats st name → sanity_failed st name = Ok (fails_sanity st name).
Proof.
  intros ([m Hm] & [v Hv] & [c Hc]). unfold sanity_failed, fails_sanity.
  rewrite Hm, Hv, Hc. cbn. by destruct (m * 10 <? v)%float.
Qed.

Lemma filter_id_empty (g : list bool) :
  (length (List.filter id g) =? 0) = negb (existsb id g).
Proof. induction g as [|[] g IH]; done. Qed.

Lemma existsb_fmap {A} (f : A → bool) (l : list A) :
  existsb id (f <$> l) = existsb f l.
Proof. induction l as [|x l IH]; [done|]. cbn. by rewrite IH. Qed.

(** C3 (as the code has it).  A visit pair is checked region by region with
    [mean*10 < variance or mean*10 < covariance]; when some region of the
    detector fails, the whole pair is skipped: no list of any region
    changes, and the loop goes on.  Only when no region fails are the
    values of the pair pulled out, key by key. *)
Theorem sanity_check_rejects_whole_pair (detector : list Amp) (acc : ptc_acc)
    (st : pair_stats) :
  (∀ amp, amp ∈ detector → has_stats st (ampName amp)) →
  accumulate_pair detector acc st
  = if existsb (λ amp, fails_sanity st (ampName amp)) detector then Ok acc
    else for_each (pull_value st) (map_to_list (_means st)).*1 acc.
Proof.
  intros Hstats. unfold accumulate_pair, breaker.
  rewrite (mapM_ok _ (λ amp, fails_sanity st (ampName amp)))
    by (intros; by apply sanity_failed_ok, Hstats).
  cbn. rewrite filter_id_empty, negb_involutive, existsb_fmap. done.
Qed.

(** ** [estimateGains]: the gains *)

(** The slope that [estimateGains] inverts for one amplifier: the robust
    regression of the collected covariances against the collected means,
    through the origin or not as configured (both fits are always run). *)
Definition slope_to_use `{NumPy} `{AfwMath} (cfg : BfTaskConfig)
    (acc : ptc_acc) (name : string) : result float :=
  means ← or_raise KeyError (ampMeans acc !! name);
  covs ← or_raise KeyError (ampCoVariances acc !! name);
  _ ← lib (linregress means covs);
  fitFix ← _iterativeRegression cfg means covs true None None;
  fitUnfix ← _iterativeRegression cfg means covs false None None;
  Ok (if fixPtcThroughOrigin cfg then fitFix.1 else fitUnfix.1).

Lemma amp_gain_slope `{NumPy} `{AfwMath} cfg acc name :
  amp_gain cfg acc name = (s ← slope_to_use cfg acc name; Ok (1 / s)%float).
Proof.
  unfold amp_gain, slope_to_use.
  destruct (or_raise KeyError (ampMeans acc !! name)) as [means|]; [|done].
  destruct (or_raise KeyError (ampCoVariances acc !! name)) as [covs|]; [|done].
  cbn. destruct (lib (linregress means covs)); [|done]. cbn.
  destruct (_iterativeRegression cfg means covs true None None); [|done].
  cbn. by destruct (_iterativeRegression cfg means covs false None None).
Qed.

Lemma reciprocal_of_zero (s : float) :
  (s =? 0)%float = true → is_infinity (1 / s) = true.
Proof. intros Hs. by destruct (eqb_zero s Hs) as [-> | ->]. Qed.

(** The second loop of [estimateGains], from any dicts. *)
Lemma gains_loop `{NumPy} `{AfwMath} cfg acc (detector : list Amp)
    (g0 : gmap string float * gmap string float) :
  (∀ amp, amp ∈ detector → ∃ s, slope_to_use cfg acc (ampName amp) = Ok s) →
  ∃ g, for_each (λ (g : gmap string float * gmap string float) amp,
                   gain ← amp_gain cfg acc (ampName amp);
                   Ok (<[ampName amp := gain]> g.1,
                       <[ampName amp := ampGain amp]> g.2))
         detector g0 = Ok g
    ∧ (∀ k, k ∉ ampName <$> detector → g.1 !! k = g0.1 !! k)
    ∧ (∀ amp s, amp ∈ detector → slope_to_use cfg acc (ampName amp) = Ok s →
         g.1 !! ampName amp = Some (1 / s)%float).
Proof.
  revert g0. induction detector as [|a detector IH]; intros g0 Hfit.
  - exists g0. split; [done|]. split; [done|]. intros ?? Hin.
    by apply elem_of_nil in Hin.
  - destruct (Hfit a) as [sa Hsa]; [left|].
    cbn [for_each]. rewrite amp_gain_slope, Hsa. cbn.
    destruct (IH (<[ampName a := (1 / sa)%float]> g0.1,
                  <[ampName a := ampGain a]> g0.2)) as (g & Hrun & Hout & Hin).
    { intros amp Hamp. apply Hfit. by right. }
    exists g. split; [done|]. split.
    + intros k Hk. apply not_elem_of_cons in Hk as [Hne Hk].
      rewrite Hout by done. cbn. by rewrite lookup_insert_ne.
    + intros amp s Hamp Hs.
      apply elem_of_cons in Hamp as [->|Hamp]; [|by apply Hin].
      rewrite Hsa in Hs. simplify_eq.
      destruct (decide (ampName a ∈ ampName <$> detector)) as [Hdup|Hfresh].
      * apply list_elem_of_fmap in Hdup as (a' & Hname & Ha').
        rewrite Hname. apply Hin; [done|]. by rewrite <- Hname.
      * rewrite Hout by done. cbn. by rewrite lookup_insert_eq.
Qed.

(** C4 (as the code has it).  Whenever the fits of every region return,
    [estimateGains] returns, and the gain of a region is 1 divided by the
    slope of the robust regression of covariance against mean over its
    retained samples, the slope of the origin-fixed or of the free fit as
    [fixPtcThroughOrigin] says.  No slope is refused: for a zero slope the
    gain is an infinity. *)
Theorem estimateGains_inverts_slope `{NumPy} `{AfwMath} {V}
    (cfg : BfTaskConfig) (detector : list Amp)
    (calc : V → result pair_stats) (visitPairs : list V) (acc : ptc_acc) :
  accumulate detector calc visitPairs = Ok acc →
  (∀ amp, amp ∈ detector → ∃ s, slope_to_use cfg acc (ampName amp) = Ok s) →
  ∃ gains nomGains,
    estimateGains cfg detector calc visitPairs = Ok (gains, nomGains)
    ∧ ∀ amp s, amp ∈ detector →
        slope_to_use cfg acc (ampName amp) = Ok s →
        gains !! ampName amp = Some (1 / s)%float
        ∧ ((s =? 0)%float = true → is_infinity (1 / s) = true).
Proof.
  intros Hacc Hfit. unfold estimateGains. rewrite Hacc. cbn.
  destruct (gains_loop cfg acc detector (∅, ∅) Hfit)
    as ([gains nomGains] & Hrun & _ & Hin).
  exists gains, nomGains. split; [done|].
  intros amp s Hamp Hs. split; [by apply Hin|apply reciprocal_of_zero].
Qed.

(** ** [_iterativeRegression] *)

Lemma regression_loop_raises `{NumPy} `{AfwMath} fixThroughOrigin nSigmaClip
    remaining x y e :
  regression_loop fixThroughOrigin nSigmaClip remaining x y = Raise e →
  e = LibraryError ∨ (remaining = 0 ∧ e = UnboundLocalError).
Proof.
  revert x y. induction remaining as [|rem IH]; intros x y Hloop.
  - cbn in Hloop. right. by simplify_eq.
  - left. cbn [regression_loop] in Hloop.
    destruct (if fixThroughOrigin then _ else _) as [fit|]; cbn in Hloop;
      [|by simplify_eq].
    destruct (MEANCLIP _ _) as [resMean|]; cbn in Hloop; [|by simplify_eq].
    destruct (VARIANCECLIP _ _) as [resVar|]; cbn in Hloop; [|by simplify_eq].
    destruct (np_max _) as [mx|]; cbn in Hloop; [|by simplify_eq].
    destruct (_ || _) eqn:Hstop; [done|].
    destruct (IH _ _ Hloop) as [?|[-> _]]; [done|].
    (* no further pass is started when none remains *)
    by rewrite orb_true_r in Hstop.
Qed.

(** C8 (as the code has it).  The iterative fit does not look at the number
    of points.  With the single point [(a, b)], and a pass allowed, it
    returns the least-squares fit of that point as soon as the library
    calls return, for the origin-fixed and for the free variant alike; and
    on any data its only failures are those of the library calls, or an
    unbound result when no pass is allowed. *)
Theorem iterativeRegression_counts_no_points `{NumPy} `{AfwMath}
    (cfg : BfTaskConfig) (fixThroughOrigin : bool)
    (nSigmaClip : option float) (maxIter : option nat) :
  (∀ (a b : float) fit,
     0 < or_default_nat maxIter (maxIterRegression cfg) →
     (if fixThroughOrigin
      then (λ slope, (slope, 0%float)) <$> lstsq_origin [a] [b]
      else lstsq_line [a] [b]) = Some fit →
     let sigma := or_default_float nSigmaClip (nSigmaClipRegression cfg) in
     let res := residuals fixThroughOrigin fit.1 fit.2 [a] [b] in
     is_Some (MEANCLIP sigma res) → is_Some (VARIANCECLIP sigma res) →
     is_Some (np_max res) →
     _iterativeRegression cfg [a] [b] fixThroughOrigin nSigmaClip maxIter
     = Ok fit)
  ∧ (∀ x y e,
       _iterativeRegression cfg x y fixThroughOrigin nSigmaClip maxIter
       = Raise e →
       e = LibraryError ∨ e = UnboundLocalError).
Proof.
  split.
  - intros a b fit Hiter Hfit sigma res [m Hm] [v Hv] [mx Hmx].
    unfold _iterativeRegression. fold sigma.
    destruct (or_default_nat maxIter (maxIterRegression cfg)) as [|rem];
      [lia|].
    cbn [regression_loop]. rewrite Hfit. cbn. fold res.
    rewrite Hm. cbn. rewrite Hv. cbn. rewrite Hmx. cbn.
    assert (shape_where_index
              (np_where 0 (is_outlier sigma m (PrimFloat.sqrt v) <$> res)) = 0)
      as ->; [|done].
    unfold res, residuals.
    destruct fixThroughOrigin; cbn; by destruct (is_outlier _ _ _ _).
  - intros x y e Hraise. unfold _iterativeRegression in Hraise.
    apply regression_loop_raises in Hraise as [?|[_ ?]]; auto.
Qed.

(** ** Images: views and copies *)

Lemma lookup_py_slice {A} (start n : nat) (l : list A) (i : nat) :
  py_slice start (start + n) l !! i
  = if decide (i < n) then l !! (start + i) else None.
Proof.
  unfold py_slice. replace (start + n - start) with n by lia.
  case_decide.
  - by rewrite lookup_take_lt, lookup_drop.
  - by rewrite lookup_take_ge by lia.
Qed.

(** A copy of a view that was updated in place holds the updated pixels of
    the box. *)
Lemma crop_on_view (f : float → float) (b : Box) (im : image) :
  crop b (on_view f b im) = map (map f) (crop b im).
Proof.
  unfold crop, on_view. change map with (@fmap list _).
  apply list_eq. intros x.
  rewrite !list_lookup_fmap, !lookup_py_slice.
  case_decide as Hx; [|done].
  rewrite list_lookup_imap.
  destruct (im !! (x0 b + x)) as [col|]; [|done]. cbn.
  rewrite bool_decide_eq_true_2 by lia. f_equal.
  apply list_eq. intros y.
  rewrite list_lookup_fmap, !lookup_py_slice.
  case_decide as Hy; [|done].
  rewrite list_lookup_imap.
  destruct (col !! (y0 b + y)) as [p|]; [|done]. cbn.
  by rewrite bool_decide_eq_true_2 by lia.
Qed.

Lemma image_map_compose (f g : float → float) (im : image) :
  map (map f) (map (map g) im) = map (map (λ p, f (g p))) im.
Proof.
  rewrite List.map_map. apply List.map_ext. intros col. apply List.map_map.
Qed.

Lemma for_each_snoc {A B} (body : A → B → result A) (l : list B) (x : B)
    (acc : A) :
  for_each body (l ++ [x]) acc = (acc' ← for_each body l acc; body acc' x).
Proof.
  revert acc. induction l as [|y l IH]; intros acc; cbn.
  - by destruct (body acc x).
  - destruct (body acc y); [apply IH|done].
Qed.

(** ** [_prepareImage] at the CCD level *)

(** The gain that the loop reads for an amplifier. *)
Definition gain_of (gains : gmap string float) (amp : Amp) : float :=
  default 0%float (gains !! ampName amp).

(** The image in which the box of every amplifier has been multiplied by
    the gain of that amplifier, in the arithmetic of the pixels. *)
Definition gain_scaled `{AfwMath} (gains : gmap string float)
    (amps : list Amp) (im : image) : image :=
  foldl (λ im amp,
           on_view (λ p, pixel_mul p (gain_of gains amp)) (ampBBox amp) im)
    im amps.

(** The working image after the passes of the loop over [amps] on the
    image [im]: in turn, the box of each amplifier is multiplied by the gain
    of the amplifier and then has [mean*gain] subtracted, [mean] being the
    clipped mean of the box as the pass found it. *)
Fixpoint rescaled `{AfwMath} (cfg : BfTaskConfig) (gains : gmap string float)
    (amps : list Amp) (im : image) : option image :=
  match amps with
  | [] => Some im
  | amp :: amps =>
      match MEANCLIP (nSigmaClipXCorr cfg) (pixels (crop (ampBBox amp) im)),
            gains !! ampName amp with
      | Some mean, Some gain =>
          rescaled cfg gains amps
            (on_view (λ p, pixel_sub p (mean * gain)%float) (ampBBox amp)
               (on_view (λ p, pixel_mul p gain) (ampBBox amp) im))
      | _, _ => None
      end
  end.

(** What one pass of the loop does to the working image, at either level. *)
Lemma prepare_amp_mi `{AfwMath} cfg gains lvl st amp st' :
  prepare_amp cfg gains lvl st amp = Ok st' →
  ∃ mean gain,
    MEANCLIP (nSigmaClipXCorr cfg) (pixels (crop (ampBBox amp) (mi st)))
      = Some mean
    ∧ gains !! ampName amp = Some gain
    ∧ mi st' = on_view (λ p, pixel_sub p (mean * gain)%float) (ampBBox amp)
                 (on_view (λ p, pixel_mul p gain) (ampBBox amp) (mi st)).
Proof.
  unfold prepare_amp. intros Hstep.
  destruct (MEANCLIP _ (pixels (crop (ampBBox amp) (mi st)))) as [mean|];
    [|done].
  cbn in Hstep.
  destruct (gains !! ampName amp) as [gain|]; [|done]. cbn in Hstep.
  exists mean, gain. split; [done|]. split; [done|].
  destruct (MEANCLIP _ (pixels (crop (ampBBox amp) (on_view _ _ (mi st)))))
    as [logged|]; [|done].
  cbn in Hstep.
  destruct lvl.
  - destruct (MEANCLIP _ _) as [m|]; [|done]. cbn in Hstep. by simplify_eq.
  - by simplify_eq.
Qed.

Lemma prepare_loop_mi `{AfwMath} cfg gains lvl amps st0 st :
  for_each (prepare_amp cfg gains lvl) amps st0 = Ok st →
  rescaled cfg gains amps (mi st0) = Some (mi st).
Proof.
  revert st0. induction amps as [|amp amps IH]; intros st0 Hloop.
  - cbn in Hloop. by simplify_eq.
  - cbn [for_each] in Hloop.
    destruct (prepare_amp cfg gains lvl st0 amp) as [st1|] eqn:Hstep;
      [|done].
    cbn in Hloop.
    destruct (prepare_amp_mi _ _ _ _ _ _ Hstep)
      as (mean & gain & Hmean & Hgain & Hmi).
    cbn [rescaled]. rewrite Hmean, Hgain, <-Hmi. by apply IH.
Qed.

(** What one pass of the loop does at the CCD level. *)
Lemma prepare_amp_ccd `{AfwMath} cfg gains st amp st' :
  prepare_amp cfg gains CCD st amp = Ok st' →
  ∃ mean gain,
    MEANCLIP (nSigmaClipXCorr cfg) (pixels (crop (ampBBox amp) (mi st)))
      = Some mean
    ∧ gains !! ampName amp = Some gain
    ∧ mi st' = on_view (λ p, pixel_sub p (mean * gain)%float) (ampBBox amp)
                 (on_view (λ p, pixel_mul p gain) (ampBBox amp) (mi st))
    ∧ temp st' = on_view (λ p, pixel_mul p gain) (ampBBox amp) (temp st)
    ∧ means st' = means st ∧ returnAreas st' = returnAreas st
    ∧ rescaleIm st' = Some (ampBBox amp).
Proof.
  unfold prepare_amp. intros Hstep.
  destruct (MEANCLIP _ _) as [mean|]; [|done]. cbn in Hstep.
  destruct (gains !! ampName amp) as [gain|]; [|done]. cbn in Hstep.
  destruct (MEANCLIP _ _) as [logged|]; [|done]. cbn in Hstep.
  simplify_eq. by exists mean, gain.
Qed.

Lemma prepare_loop_ccd `{AfwMath} cfg gains amps st0 st :
  for_each (prepare_amp cfg gains CCD) amps st0 = Ok st →
  means st = means st0 ∧ returnAreas st = returnAreas st0
  ∧ temp st = gain_scaled gains amps (temp st0)
  ∧ (∀ a, a ∈ amps → is_Some (gains !! ampName a))
  ∧ (amps = [] → rescaleIm st = rescaleIm st0).
Proof.
  revert st0. induction amps as [|amp amps IH]; intros st0 Hloop.
  - cbn in Hloop. simplify_eq. do 3 (split; [done|]). split; [|done].
    intros a Ha. by apply elem_of_nil in Ha.
  - cbn [for_each] in Hloop.
    destruct (prepare_amp cfg gains CCD st0 amp) as [st1|] eqn:Hstep; [|done].
    cbn in Hloop.
    destruct (prepare_amp_ccd _ _ _ _ _ Hstep)
      as (mean & gain & _ & Hgain & _ & Htemp & Hmeans & Hareas & _).
    destruct (IH st1 Hloop) as (Hm & Ha & Ht & Hg & _).
    rewrite Hm, Ha, Ht, Hmeans, Hareas, Htemp.
    split; [done|]. split; [done|]. split; [|split; [|done]].
    + cbn. unfold gain_of. by rewrite Hgain.
    + intros a [->|Hin]%elem_of_cons; [by rewrite Hgain|by apply Hg].
Qed.

(** C1 (as the code has it).  At the CCD level both returned dicts have
    exactly one entry, under the detector id.  The gain table is used as
    at the AMP level: the loop rescales the exposure's image amplifier by
    amplifier, and every pixel of the returned image is a pixel [p] of the
    image so rescaled for the amplifiers before, turned into
    [p*gain - mean*gain] in the arithmetic of the pixels, with the gain of
    its amplifier from the table and the clipped mean of the pixels of that
    amplifier; the reported mean is the clipped mean, inside the border, of
    the exposure's image in which each amplifier has been multiplied by its
    own gain.  (The returned image is the view of the amplifier visited
    last.) *)
Theorem prepareImage_CCD_rescales `{AfwMath} (cfg : BfTaskConfig)
    (exp : Exposure) (gains : gmap string float)
    (areas : gmap Key image) (mns : gmap Key float) :
  _prepareImage cfg exp gains CCD = Ok (areas, mns) →
  ∃ (before : list Amp) (amp : Amp) (working : image) (gain mean m : float),
    ampInfoCat exp = before ++ [amp]
    ∧ rescaled cfg gains before (maskedImage exp) = Some working
    ∧ gains !! ampName amp = Some gain
    ∧ MEANCLIP (nSigmaClipXCorr cfg) (pixels (crop (ampBBox amp) working))
      = Some mean
    ∧ areas = {[ DetKey (detectorId exp) :=
                   map (map (λ p, pixel_sub (pixel_mul p gain)
                                    (mean * gain)%float))
                     (crop (ampBBox amp) working) ]}
    ∧ mns = {[ DetKey (detectorId exp) := m ]}
    ∧ (∀ a, a ∈ ampInfoCat exp → is_Some (gains !! ampName a))
    ∧ let scaled := gain_scaled gains (ampInfoCat exp) (maskedImage exp) in
      MEANCLIP (nSigmaClipXCorr cfg)
        (pixels (crop (border_box (nPixBorderXCorr cfg) scaled) scaled))
      = Some m.
Proof.
  unfold _prepareImage, prepare_loop. intros Hrun.
  destruct (for_each _ _ _) as [st|] eqn:Hloop; [|done]. cbn in Hrun.
  destruct (prepare_ccd cfg (detectorId exp) st) as [st'|] eqn:Hccd; [|done].
  cbn in Hrun. simplify_eq.
  destruct (prepare_loop_ccd _ _ _ _ _ Hloop)
    as (Hmeans & Hareas & Htemp & Hgains & Hnil).
  cbn in Hmeans, Hareas, Htemp, Hnil.
  unfold prepare_ccd in Hccd.
  destruct (MEANCLIP _ _) as [m|] eqn:Hm; [|done]. cbn in Hccd.
  destruct (rescaleIm st) as [view|] eqn:Hview; [|done]. cbn in Hccd.
  simplify_eq. cbn [mi means returnAreas].
  destruct (ampInfoCat exp) as [|a0 amps0] eqn:Hcat using rev_ind.
  { by specialize (Hnil eq_refl). }
  clear IHamps0. rewrite for_each_snoc in Hloop.
  destruct (for_each _ amps0 _) as [prev|] eqn:Hprev; [|done]. cbn in Hloop.
  apply prepare_loop_mi in Hprev. cbn [mi] in Hprev.
  destruct (prepare_amp_ccd _ _ _ _ _ Hloop)
    as (mean & gain & Hmean & Hgain & Hmi & _ & _ & _ & Hlast).
  rewrite Hview in Hlast. simplify_eq.
  exists amps0, a0, (mi prev), gain, mean, m.
  split; [done|]. split; [done|].
  split; [done|]. split; [done|].
  rewrite Hareas, Hmeans, !insert_empty, map_fmap_singleton, Hmi.
  rewrite !crop_on_view, image_map_compose.
  split; [done|]. split; [done|]. split; [done|].
  cbn zeta. by rewrite <- Htemp.
Qed.

(** ** Images: dimensions *)

(** For an image, [rect w h im] says that it has [w] columns of [h] pixels. *)
Lemma rect_lookup w h (im : image) :
  rect w h im ↔ length im = w ∧ ∀ x col, im !! x = Some col → length col = h.
Proof. unfold rect. by rewrite Forall_lookup. Qed.

Lemma rect_crop_min w h (im : image) (b : Box) :
  rect w h im →
  rect (bwidth b `min` (w - x0 b)) (bheight b `min` (h - y0 b)) (crop b im).
Proof.
  rewrite !rect_lookup. intros [Hw Hcols]. unfold crop, py_slice. split.
  - rewrite length_fmap, length_take, length_drop. lia.
  - intros x col. rewrite list_lookup_fmap.
    destruct (take _ _ !! x) as [col0|] eqn:E; [|done]. cbn. intros [= <-].
    apply lookup_take_Some in E as [E _]. rewrite lookup_drop in E.
    apply Hcols in E. rewrite length_take, length_drop. lia.
Qed.

Lemma rect_crop w h (im : image) (b : Box) :
  rect w h im → x0 b + bwidth b ≤ w → y0 b + bheight b ≤ h →
  rect (bwidth b) (bheight b) (crop b im).
Proof.
  intros Him Hx Hy. pose proof (rect_crop_min w h im b Him) as Hc.
  by rewrite !Nat.min_l in Hc by lia.
Qed.

Lemma rect_on_view w h (f : float → float) (b : Box) (im : image) :
  rect w h im → rect w h (on_view f b im).
Proof.
  rewrite !rect_lookup. intros [Hw Hcols]. unfold on_view. split.
  - by rewrite length_imap.
  - intros x col. rewrite list_lookup_imap.
    destruct (im !! x) as [col0|] eqn:E; [|done]. cbn. intros [= <-].
    apply Hcols in E. case_bool_decide; [|done]. by rewrite length_imap.
Qed.

Lemma rect_zip_with w h (f : float → float → float) (a b : image) :
  rect w h a → rect w h b → rect w h (zip_with (zip_with f) a b).
Proof.
  rewrite !rect_lookup. intros [Hwa Ha] [Hwb Hb]. split.
  - rewrite length_zip_with. lia.
  - intros x col Hcol. apply lookup_zip_with_Some in Hcol
      as (ca & cb & -> & Hca & Hcb).
    apply Ha in Hca. apply Hb in Hcb. rewrite length_zip_with. lia.
Qed.

Lemma rect_map w h (f : float → float) (im : image) :
  rect w h im → rect w h (map (map f) im).
Proof.
  rewrite !rect_lookup. intros [Hw Hcols]. change map with (@fmap list _). split.
  - by rewrite length_fmap.
  - intros x col. rewrite list_lookup_fmap.
    destruct (im !! x) as [col0|] eqn:E; [|done]. cbn. intros [= <-].
    rewrite length_fmap. by eapply Hcols.
Qed.

Lemma rect_pixels w h (im : image) :
  rect w h im → 0 < w → 0 < h → pixels im ≠ [].
Proof.
  intros [Hw Hcols] Hwpos Hhpos. unfold pixels.
  destruct im as [|col im]; [simpl in Hw; lia|].
  apply Forall_cons in Hcols as [Hcol _].
  destruct col; [simpl in Hcol; lia|done].
Qed.

Lemma rect_dimensions w h (im : image) :
  rect w h im → 0 < w → getWidth im = w ∧ getHeight im = h.
Proof.
  intros [Hw Hcols] Hwpos. split; [done|]. unfold getHeight.
  destruct im as [|col im]; [simpl in Hw; lia|].
  by apply Forall_cons in Hcols as [Hcol _].
Qed.

Lemma rect_same_dimensions w h (a b : image) :
  rect w h a → rect w h b → same_dimensions a b = true.
Proof.
  intros [Hwa Ha] [Hwb Hb]. unfold same_dimensions.
  apply bool_decide_eq_true. apply list_eq_same_length with w;
    rewrite ?length_fmap; [done..|].
  intros x la lb Hx. rewrite !list_lookup_fmap.
  destruct (a !! x) as [ca|] eqn:Eca; [|done].
  destruct (b !! x) as [cb|] eqn:Ecb; [|done]. cbn. intros [= <-] [= <-].
  rewrite (Forall_lookup_1 _ _ _ _ Ha Eca).
  by rewrite (Forall_lookup_1 _ _ _ _ Hb Ecb).
Qed.

(** Subtracting an image of the same dimensions keeps the dimensions. *)
Lemma im_sub_dimensions `{AfwMath} (a b : image) :
  same_dimensions a b = true →
  getWidth (im_sub a b) = getWidth a ∧ getHeight (im_sub a b) = getHeight a.
Proof.
  unfold same_dimensions. intros Hsame%bool_decide_eq_true.
  unfold getWidth, getHeight, im_sub.
  destruct a as [|ca a], b as [|cb b]; try done.
  cbn in Hsame. injection Hsame as Hc Hrest. cbn. split.
  - f_equal. rewrite length_zip_with.
    apply (f_equal length) in Hrest. rewrite !length_fmap in Hrest. lia.
  - rewrite length_zip_with. lia.
Qed.

(** A box without width or without height holds no pixel. *)
Lemma pixels_crop_empty (b : Box) (im : image) :
  bwidth b = 0 ∨ bheight b = 0 → pixels (crop b im) = [].
Proof.
  unfold pixels, crop, py_slice. intros [-> | ->].
  - by replace (x0 b + 0 - x0 b) with 0 by lia.
  - replace (y0 b + 0 - y0 b) with 0 by lia.
    induction (take _ _) as [|col cols IH]; [done|]. cbn. exact IH.
Qed.

Lemma neg_stop_le n b : n ≤ b → neg_stop n b = 0.
Proof. unfold neg_stop. intros Hn. destruct (b =? 0); lia. Qed.

Lemma neg_stop_pos n b : 0 < b → neg_stop n b = n - b.
Proof.
  unfold neg_stop. intros Hb. destruct (Nat.eqb_spec b 0); [lia|done].
Qed.

(** ** [_crossCorrelate] *)

Lemma mapM_seq {B} (f : nat → result B) (s n : nat) :
  (∀ i, s ≤ i < s + n → ∃ v, f i = Ok v) →
  ∃ l, mapM f (seq s n) = Ok l ∧ length l = n
    ∧ ∀ i, i < n → ∃ v, l !! i = Some v ∧ f (s + i) = Ok v.
Proof.
  revert s. induction n as [|n IH]; intros s Hf.
  - exists []. split; [done|]. split; [done|]. intros; lia.
  - destruct (Hf s) as [v Hv]; [lia|].
    destruct (IH (S s)) as (l & Hl & Hlen & Hget); [intros; apply Hf; lia|].
    exists (v :: l). cbn [seq mapM]. rewrite Hv. cbn. rewrite Hl. cbn.
    split; [done|]. split; [by rewrite Hlen|].
    intros [|i] Hi.
    + exists v. by rewrite Nat.add_0_r.
    + destruct (Hget i) as (v' & Hv' & Hfi); [lia|]. exists v'.
      split; [done|]. by replace (s + S i) with (S s + i) by lia.
Qed.

Lemma lag_correlation_returns `{AfwMath}
    (sigma biasCorr : float) (diff dim0 : image) (w h w0 h0 xlag ylag : nat) :
  returns_on_samples → (biasCorr =? 0)%float = false →
  rect w h diff → rect w0 h0 dim0 → 0 < w0 → 0 < h0 →
  xlag + w0 ≤ w → ylag + h0 ≤ h →
  ∃ v, lag_correlation sigma biasCorr diff dim0 w0 h0 xlag ylag
       = Ok (v / biasCorr)%float.
Proof.
  intros Hstat Hbias Hdiff Hdim0 Hw0 Hh0 Hx Hy. unfold lag_correlation.
  set (box := {| x0 := xlag; y0 := ylag; bwidth := w0; bheight := h0 |}).
  assert (rect w0 h0 (crop box diff)) as Hxy by by apply (rect_crop w h).
  destruct (Hstat sigma (pixels (crop box diff))) as [[m ->] _];
    [by apply (rect_pixels w0 h0)|].
  cbn.
  set (prod := im_mul _ dim0).
  assert (rect w0 h0 prod) as Hprod
    by by apply rect_zip_with; [apply rect_map|].
  destruct (Hstat sigma (pixels prod)) as [[v ->] _];
    [by apply (rect_pixels w0 h0)|].
  cbn. rewrite Hbias. by exists v.
Qed.


(** ** [_iterativeRegression]: which fit is returned *)

Lemma np_where_elem (i : nat) (cond : list bool) (k : nat) :
  k ∈ np_where i cond ↔ ∃ j, k = i + j ∧ cond !! j = Some true.
Proof.
  revert i. induction cond as [|b cond IH]; intros i.
  - unfold np_where. split; [by intros ?%elem_of_nil|by intros (j & _ & ?)].
  - change (np_where i (b :: cond))
      with ((if b then [i] else []) ++ np_where (S i) cond).
    rewrite elem_of_app, IH. split.
    + intros [Hk|(j & -> & Hj)].
      * destruct b; [|by apply elem_of_nil in Hk].
        apply list_elem_of_singleton in Hk as ->. exists 0. split; [lia|done].
      * exists (S j). split; [lia|done].
    + intros ([|j] & -> & Hj).
      * left. cbn in Hj. simplify_eq. rewrite Nat.add_0_r.
        by apply list_elem_of_singleton.
      * right. exists j. split; [lia|done].
Qed.

Lemma shape_where_index_zero (index : list nat) :
  shape_where_index index = 0 ↔ ∀ k, k ∈ index → k = 0.
Proof.
  unfold shape_where_index. induction index as [|k index IH].
  - split; [by intros _ k ?%elem_of_nil|done].
  - cbn [List.filter]. destruct k as [|k]; cbn [Nat.eqb negb].
    + rewrite IH. split.
      * intros Hall k [->|?]%elem_of_cons; auto.
      * intros Hall k ?. apply Hall. by right.
    + split; [done|]. intros Hall. specialize (Hall (S k)).
      discriminate Hall. by left.
Qed.

(** [np.delete] with the same positions, on the two coordinates of a list
    of points, deletes points. *)
Lemma np_delete_points (i : nat) (x y : list float) (index : list nat) :
  length x = length y →
  ∃ pts, pts `sublist_of` zip x y
    ∧ np_delete i x index = pts.*1 ∧ np_delete i y index = pts.*2.
Proof.
  revert i y. induction x as [|a x IH]; intros i [|b y] Hlen;
    try discriminate Hlen.
  - exists []. by repeat split.
  - destruct (IH (S i) y) as (pts & Hsub & Hx & Hy); [by injection Hlen|].
    change (np_delete i (a :: x) index)
      with (if bool_decide (i ∈ index) then np_delete (S i) x index
            else a :: np_delete (S i) x index).
    change (np_delete i (b :: y) index)
      with (if bool_decide (i ∈ index) then np_delete (S i) y index
            else b :: np_delete (S i) y index).
    case_bool_decide.
    + exists pts. split; [by apply sublist_cons|done].
    + exists ((a, b) :: pts). split; [by apply sublist_skip|].
      by rewrite Hx, Hy.
Qed.

Lemma regression_loop_fit `{NumPy} `{AfwMath} fixThroughOrigin nSigmaClip
    remaining x y fit :
  length x = length y →
  regression_loop fixThroughOrigin nSigmaClip remaining x y = Ok fit →
  ∃ pts, pts `sublist_of` zip x y
    ∧ (if fixThroughOrigin
       then (λ slope, (slope, 0%float)) <$> lstsq_origin pts.*1 pts.*2
       else lstsq_line pts.*1 pts.*2) = Some fit.
Proof.
  revert x y. induction remaining as [|rem IH]; intros x y Hlen Hloop;
    [done|].
  cbn [regression_loop] in Hloop.
  destruct (if fixThroughOrigin then _ else _) as [fit0|] eqn:Hfit;
    cbn in Hloop; [|done].
  destruct (MEANCLIP _ _) as [resMean|]; cbn in Hloop; [|done].
  destruct (VARIANCECLIP _ _) as [resVar|]; cbn in Hloop; [|done].
  destruct (np_max _) as [mx|]; cbn in Hloop; [|done].
  destruct (_ || _).
  - simplify_eq. exists (zip x y). split; [done|].
    by rewrite fst_zip, snd_zip by lia.
  - set (index := np_where 0 _) in Hloop.
    destruct (np_delete_points 0 x y index Hlen) as (pts1 & Hsub1 & Hx & Hy).
    rewrite Hx, Hy in Hloop.
    apply IH in Hloop as (pts & Hsub & Hfit');
      [|by rewrite !length_fmap].
    exists pts. split; [|done].
    etrans; [done|]. by rewrite zip_fst_snd.
Qed.

(** X1.  Whatever [_iterativeRegression] returns on the points
    [(x[k], y[k])] is the least-squares fit that the library computes on a
    sub-sample of these points (points are only ever deleted, both
    coordinates together, never added or altered), and the origin-fixed
    variant reports the intercept 0. *)
Theorem iterativeRegression_fits_subsample `{NumPy} `{AfwMath}
    (cfg : BfTaskConfig) (x y : list float) (fixThroughOrigin : bool)
    (nSigmaClip : option float) (maxIter : option nat)
    (slope intercept : float) :
  length x = length y →
  _iterativeRegression cfg x y fixThroughOrigin nSigmaClip maxIter
  = Ok (slope, intercept) →
  ∃ pts : list (float * float),
    pts `sublist_of` zip x y
    ∧ (if fixThroughOrigin
       then lstsq_origin pts.*1 pts.*2 = Some slope ∧ intercept = 0%float
       else lstsq_line pts.*1 pts.*2 = Some (slope, intercept)).
Proof.
  unfold _iterativeRegression. intros Hlen Hloop.
  apply regression_loop_fit in Hloop as (pts & Hsub & Hfit); [|done].
  exists pts. split; [done|].
  destruct fixThroughOrigin; [|done].
  destruct (lstsq_origin pts.*1 pts.*2); cbn in Hfit; by simplify_eq.
Qed.

(** X2.  The stopping test counts the outlier positions other than 0
    ([np.where] applied to the tuple of positions finds its non-zero
    entries).  So when no point other than the first is an outlier of the
    first fit, that fit is returned: a first point outside the clipping
    band is never deleted. *)
Theorem iterativeRegression_keeps_first_point `{NumPy} `{AfwMath}
    (cfg : BfTaskConfig) (x y : list float) (fixThroughOrigin : bool)
    (nSigmaClip : option float) (maxIter : option nat)
    (fit : float * float) (resMean resVar : float) :
  let sigma := or_default_float nSigmaClip (nSigmaClipRegression cfg) in
  let res := residuals fixThroughOrigin fit.1 fit.2 x y in
  0 < or_default_nat maxIter (maxIterRegression cfg) →
  (if fixThroughOrigin
   then (λ slope, (slope, 0%float)) <$> lstsq_origin x y
   else lstsq_line x y) = Some fit →
  MEANCLIP sigma res = Some resMean →
  VARIANCECLIP sigma res = Some resVar →
  is_Some (np_max res) →
  (∀ k r, res !! S k = Some r →
          is_outlier sigma resMean (PrimFloat.sqrt resVar) r = false) →
  _iterativeRegression cfg x y fixThroughOrigin nSigmaClip maxIter = Ok fit.
Proof.
  intros sigma res Hiter Hfit Hm Hv [mx Hmx] Hin.
  unfold _iterativeRegression. fold sigma.
  destruct (or_default_nat maxIter (maxIterRegression cfg)) as [|rem];
    [lia|].
  cbn [regression_loop]. rewrite Hfit. cbn. fold res.
  rewrite Hm. cbn. rewrite Hv. cbn. rewrite Hmx. cbn.
  assert (shape_where_index
            (np_where 0 (is_outlier sigma resMean (PrimFloat.sqrt resVar)
                           <$> res)) = 0) as ->; [|done].
  apply shape_where_index_zero. intros k (j & -> & Hj)%np_where_elem.
  destruct j as [|j]; [done|].
  rewrite list_lookup_fmap in Hj.
  destruct (res !! S j) as [r|] eqn:Hr; [|done].
  cbn in Hj. apply Hin in Hr. congruence.
Qed.

Lemma mapM_Ok_inv {A B} (f : A → result B) (l : list A) (k : list B) :
  mapM f l = Ok k →
  length k = length l
  ∧ ∀ i x, l !! i = Some x → ∃ v, k !! i = Some v ∧ f x = Ok v.
Proof.
  revert k. induction l as [|a l IH]; intros k Hk.
  - injection Hk as <-. split; [done|]. intros i x Hx. by destruct i.
  - cbn [mapM] in Hk. destruct (f a) as [b|] eqn:Hb; [|done].
    destruct (mapM f l) as [k'|]; [|done]. injection Hk as <-.
    destruct (IH k' eq_refl) as [Hlen Hall]. split; [cbn; lia|].
    intros [|i] x Hx; cbn in Hx; simplify_eq; [by exists b|].
    by apply Hall.
Qed.

(** X3.  Whenever [_crossCorrelate] returns, whatever the images and the
    library, the result is a square array of side [maxLag + 1], and each of
    its entries is a clipped mean divided by [biasCorr]. *)
Theorem crossCorrelate_shape `{AfwMath} (cfg : BfTaskConfig)
    (maskedIm0 maskedIm1 : image) (xcorr : ndarray) :
  _crossCorrelate cfg maskedIm0 maskedIm1 = Ok xcorr →
  rect (maxLag cfg + 1) (maxLag cfg + 1) xcorr
  ∧ ∀ xlag ylag, xlag ≤ maxLag cfg → ylag ≤ maxLag cfg →
      ∃ sample v, MEANCLIP (nSigmaClipXCorr cfg) sample = Some v
        ∧ lookup2 xcorr xlag ylag = Some (v / biasCorr cfg)%float.
Proof.
  unfold _crossCorrelate. intros Hrun.
  destruct (negb (same_dimensions maskedIm0 maskedIm1)); [done|].
  destruct (backgroundBinSize cfg =? 0); [done|].
  destruct (backgroundImage _ _ _ _) as [bkgd|]; cbn in Hrun; [|done].
  destruct (negb (same_dimensions _ bkgd)); [done|].
  destruct (MEDIAN _ _); cbn in Hrun; [|done].
  destruct (VARIANCECLIP _ _); cbn in Hrun; [|done].
  destruct (MEANCLIP _ _) as [m0|]; cbn in Hrun; [|done].
  apply mapM_Ok_inv in Hrun as [Hlen Hrows]. rewrite length_seq in Hlen.
  assert (∀ xlag row, xcorr !! xlag = Some row →
            length row = maxLag cfg + 1
            ∧ ∀ ylag, ylag ≤ maxLag cfg →
                ∃ sample v, MEANCLIP (nSigmaClipXCorr cfg) sample = Some v
                  ∧ row !! ylag = Some (v / biasCorr cfg)%float) as Hrow.
  { intros xlag row Hxlag.
    assert (xlag < maxLag cfg + 1) as Hlt
      by (rewrite <-Hlen; by eapply lookup_lt_Some).
    destruct (Hrows xlag xlag) as (row' & Hrow' & Hcols);
      [by rewrite lookup_seq|]. simplify_eq.
    apply mapM_Ok_inv in Hcols as [Hlen' Hcols]. rewrite length_seq in Hlen'.
    split; [done|]. intros ylag Hylag.
    destruct (Hcols ylag ylag) as (v & Hv & Hlag);
      [rewrite lookup_seq; split; [done|lia]|].
    unfold lag_correlation in Hlag.
    destruct (MEANCLIP _ _) as [m|]; cbn in Hlag; [|done].
    destruct (MEANCLIP _ (pixels (im_mul _ _))) as [w|] eqn:Hw;
      cbn in Hlag; [|done].
    destruct (biasCorr cfg =? 0)%float; [done|].
    simplify_eq. eauto. }
  split.
  - split; [done|]. apply Forall_lookup. intros i row Hi.
    by destruct (Hrow i row Hi).
  - intros xlag ylag Hxlag Hylag.
    destruct (lookup_lt_is_Some_2 xcorr xlag) as [row Hi]; [lia|].
    destruct (Hrow xlag row Hi) as [_ Hcols].
    destruct (Hcols ylag Hylag) as (sample & v & Hv & Hy).
    exists sample, v. split; [done|]. unfold lookup2. by rewrite Hi.
Qed.

(** ** [_prepareImage]: keys and failures *)

(** One step of a computation in [result]: case on the library call or
    the lookup at its head. *)
Ltac step_in H :=
  lazymatch type of H with
  | (lib ?o ≫= _) = _ => destruct o eqn:?; cbn in H
  | (or_raise _ ?o ≫= _) = _ => destruct o eqn:?; cbn in H
  | ((lib ?o ≫= _) ≫= _) = _ => destruct o eqn:?; cbn in H
  | ((or_raise _ ?o ≫= _) ≫= _) = _ => destruct o eqn:?; cbn in H
  end.

Lemma prepare_amp_raises `{AfwMath} cfg gains lvl st amp e :
  prepare_amp cfg gains lvl st amp = Raise e → e = KeyError ∨ e = LibraryError.
Proof.
  unfold prepare_amp. intros Hrun.
  do 3 (step_in Hrun; [|simplify_eq; auto]).
  destruct lvl; [|done].
  step_in Hrun; [done|simplify_eq; auto].
Qed.

Lemma prepare_amp_needs_gain `{AfwMath} cfg gains lvl st amp st' :
  prepare_amp cfg gains lvl st amp = Ok st' → is_Some (gains !! ampName amp).
Proof.
  unfold prepare_amp. intros Hrun.
  step_in Hrun; [|done]. by step_in Hrun.
Qed.

Lemma for_each_raises {A B} (body : A → B → result A) (P : exn → Prop)
    (l : list B) (acc : A) (e : exn) :
  (∀ acc x e, x ∈ l → body acc x = Raise e → P e) →
  for_each body l acc = Raise e → P e.
Proof.
  revert acc. induction l as [|x l IH]; intros acc Hbody Hrun; [done|].
  cbn [for_each] in Hrun. destruct (body acc x) as [acc'|e'] eqn:Hx.
  - apply (IH acc'); [|done]. intros ??? ?. apply Hbody. by right.
  - cbn in Hrun. simplify_eq. eapply Hbody; [|done]. by left.
Qed.

Lemma for_each_Ok_each {A B} (body : A → B → result A) (l : list B)
    (acc acc' : A) (x : B) :
  for_each body l acc = Ok acc' → x ∈ l →
  ∃ a a', body a x = Ok a'.
Proof.
  revert acc. induction l as [|y l IH]; intros acc Hrun Hx;
    [by apply elem_of_nil in Hx|].
  cbn [for_each] in Hrun. destruct (body acc y) as [acc1|] eqn:Hy; [|done].
  apply elem_of_cons in Hx as [->|Hx]; [by eauto|]. by apply (IH acc1).
Qed.

(** X4.  [_prepareImage] reads [gains[ampName]] for every amplifier of the
    catalogue, at both levels: when the gain of some amplifier is missing
    the call raises, with [KeyError] unless a statistics call failed
    before. *)
Theorem prepareImage_needs_every_gain `{AfwMath} (cfg : BfTaskConfig)
    (exp : Exposure) (gains : gmap string float) (lvl : Level) (amp : Amp) :
  amp ∈ ampInfoCat exp → gains !! ampName amp = None →
  ∃ e, _prepareImage cfg exp gains lvl = Raise e
    ∧ (e = KeyError ∨ e = LibraryError).
Proof.
  intros Hamp Hgain. unfold _prepareImage, prepare_loop.
  destruct (for_each _ _ _) as [st|e] eqn:Hloop.
  - destruct (for_each_Ok_each _ _ _ _ _ Hloop Hamp) as (a & a' & Hbody).
    apply prepare_amp_needs_gain in Hbody as [g Hg]. congruence.
  - exists e. split; [done|].
    eapply (for_each_raises _ (λ e, e = KeyError ∨ e = LibraryError));
      [|exact Hloop].
    intros acc x e' _. apply prepare_amp_raises.
Qed.

(** X5.  With an empty amplifier catalogue, [_prepareImage] returns two
    empty dicts at level AMP; at level CCD it never returns: once the mean
    of the image is taken, [rescaleIm] is read without ever having been
    bound. *)
Theorem prepareImage_empty_catalogue `{AfwMath} (cfg : BfTaskConfig)
    (exp : Exposure) (gains : gmap string float) :
  ampInfoCat exp = [] →
  _prepareImage cfg exp gains AMP = Ok (∅, ∅)
  ∧ _prepareImage cfg exp gains CCD
    = match MEANCLIP (nSigmaClipXCorr cfg)
              (pixels (crop (border_box (nPixBorderXCorr cfg) (maskedImage exp))
                         (maskedImage exp))) with
      | Some _ => Raise UnboundLocalError
      | None => Raise LibraryError
      end.
Proof.
  intros Hcat. unfold _prepareImage, prepare_loop. rewrite Hcat.
  cbn [for_each]. split.
  - cbn. by rewrite fmap_empty.
  - unfold prepare_ccd. cbn. by destruct (MEANCLIP _ _).
Qed.

Lemma prepare_amp_keys `{AfwMath} cfg gains st amp st' :
  prepare_amp cfg gains AMP st amp = Ok st' →
  dom (means st') = {[ AmpKey (ampName amp) ]} ∪ dom (means st)
  ∧ dom (returnAreas st') = {[ AmpKey (ampName amp) ]} ∪ dom (returnAreas st)
  ∧ returnAreas st' !! AmpKey (ampName amp) = Some (ampBBox amp)
  ∧ ∀ k, k ≠ AmpKey (ampName amp) →
         returnAreas st' !! k = returnAreas st !! k.
Proof.
  unfold prepare_amp. intros Hrun.
  do 4 (step_in Hrun; [|done]).
  simplify_eq. cbn. rewrite !dom_insert_L.
  split; [done|]. split; [done|]. split; [by rewrite lookup_insert_eq|].
  intros k Hk. by rewrite lookup_insert_ne.
Qed.

Lemma prepare_loop_keys `{AfwMath} cfg gains amps st0 st :
  for_each (prepare_amp cfg gains AMP) amps st0 = Ok st →
  dom (means st) = list_to_set (AmpKey ∘ ampName <$> amps) ∪ dom (means st0)
  ∧ dom (returnAreas st)
    = list_to_set (AmpKey ∘ ampName <$> amps) ∪ dom (returnAreas st0)
  ∧ ∀ name box,
      returnAreas st !! AmpKey name = Some box →
      returnAreas st0 !! AmpKey name = Some box
      ∨ ∃ amp, amp ∈ amps ∧ ampName amp = name ∧ ampBBox amp = box.
Proof.
  revert st0. induction amps as [|amp amps IH]; intros st0 Hrun.
  - cbn in Hrun. simplify_eq. cbn.
    rewrite !(left_id_L ∅ (∪)). split; [done|]. split; [done|]. by left.
  - cbn [for_each] in Hrun.
    destruct (prepare_amp cfg gains AMP st0 amp) as [st1|] eqn:Hamp; [|done].
    cbn in Hrun. apply IH in Hrun as (Hm & Ha & Hbox).
    apply prepare_amp_keys in Hamp as (Hm1 & Ha1 & Hnew & Hold).
    rewrite Hm, Ha, Hm1, Ha1. rewrite fmap_cons. cbn [list_to_set].
    set (names := list_to_set (AmpKey ∘ ampName <$> amps) : gset Key).
    split; [by rewrite (assoc_L (∪) names), (comm_L (∪) names)|].
    split; [by rewrite (assoc_L (∪) names), (comm_L (∪) names)|].
    intros name box Hlook. destruct (Hbox name box Hlook) as [H1|H1].
    + destruct (decide (name = ampName amp)) as [->|Hne].
      * right. exists amp. rewrite Hnew in H1. simplify_eq.
        split; [by left|done].
      * left. rewrite Hold in H1 by congruence. done.
    + right. destruct H1 as (amp' & ? & ? & ?). exists amp'.
      split; [by right|done].
Qed.

(** X6.  At level AMP, whenever [_prepareImage] returns, both dicts have
    exactly the amplifier names of the catalogue as keys (never the
    detector id), and each returned area is the pixel box of an amplifier
    of that name in one and the same image: the exposure's image as the
    loop leaves it, every amplifier rescaled in turn. *)
Theorem prepareImage_AMP_keys `{AfwMath} (cfg : BfTaskConfig)
    (exp : Exposure) (gains : gmap string float)
    (areas : gmap Key image) (mns : gmap Key float) :
  _prepareImage cfg exp gains AMP = Ok (areas, mns) →
  dom areas = list_to_set (AmpKey ∘ ampName <$> ampInfoCat exp)
  ∧ dom mns = list_to_set (AmpKey ∘ ampName <$> ampInfoCat exp)
  ∧ (∀ id, areas !! DetKey id = None ∧ mns !! DetKey id = None)
  ∧ ∃ working,
      rescaled cfg gains (ampInfoCat exp) (maskedImage exp) = Some working
      ∧ ∀ name area,
          areas !! AmpKey name = Some area →
          ∃ amp, amp ∈ ampInfoCat exp ∧ ampName amp = name
            ∧ area = crop (ampBBox amp) working.
Proof.
  unfold _prepareImage, prepare_loop. intros Hrun.
  destruct (for_each _ _ _) as [st|] eqn:Hloop; [|done].
  cbn in Hrun. simplify_eq.
  pose proof (prepare_loop_mi _ _ _ _ _ _ Hloop) as Hworking.
  cbn [mi] in Hworking.
  apply prepare_loop_keys in Hloop as (Hm & Ha & Hbox).
  cbn [means returnAreas] in Hm, Ha, Hbox.
  rewrite dom_empty_L, (right_id_L ∅ (∪)) in Hm.
  rewrite dom_empty_L, (right_id_L ∅ (∪)) in Ha.
  rewrite dom_fmap_L. split; [done|]. split; [done|]. split.
  - intros id. split.
    + apply not_elem_of_dom. rewrite dom_fmap_L, Ha.
      rewrite elem_of_list_to_set, list_elem_of_fmap. by intros (? & ? & _).
    + apply not_elem_of_dom. rewrite Hm.
      rewrite elem_of_list_to_set, list_elem_of_fmap. by intros (? & ? & _).
  - exists (mi st). split; [done|].
    intros name area Hlook. rewrite lookup_fmap in Hlook.
    destruct (returnAreas st !! AmpKey name) as [box|] eqn:Hb; [|done].
    cbn in Hlook. simplify_eq.
    destruct (Hbox name box Hb) as [H1|(amp & ? & ? & ?)];
      [by rewrite lookup_empty in H1|].
    exists amp. by simplify_eq.
Qed.

(** ** [estimateGains]: the collected lists *)

(** The accepted samples of an amplifier, one [(mean, variance, covariance)]
    per visit pair that contributed. *)
Abbreviation samples := (gmap string (list (float * float * float))).

Definition column (f : float * float * float → float) (d : samples)
    : gmap string (list float) :=
  (λ l : list (float * float * float), f <$> l) <$> d.

Definition columns_of (d : samples) : ptc_acc :=
  {| ampMeans := column (λ t, t.1.1) d;
     ampCoVariances := column (λ t, t.2) d;
     ampVariances := column (λ t, t.1.2) d |}.

Lemma for_each_count {A B} (body : A → B → result A) (P : nat → A → Prop)
    (l : list B) (n : nat) (acc acc' : A) :
  (∀ n a x a', P n a → body a x = Ok a' → P (S n) a') →
  P n acc → for_each body l acc = Ok acc' → P (n + length l) acc'.
Proof.
  intros Hbody. revert n acc. induction l as [|x l IH]; intros n acc HP Hrun.
  - cbn in Hrun. simplify_eq. by rewrite Nat.add_0_r.
  - cbn [for_each] in Hrun. destruct (body acc x) as [a|] eqn:Hx; [|done].
    cbn in Hrun. cbn [length]. replace (n + S (length l)) with (S n + length l)
      by lia.
    eapply IH; [|done]. by eapply Hbody.
Qed.

Lemma pull_value_columns (st : pair_stats) (d : samples) (k : string)
    (acc' : ptc_acc) :
  pull_value st (columns_of d) k = Ok acc' →
  acc' = columns_of d
  ∨ ∃ l m v c, d !! k = Some l ∧ _means st !! k = Some m
      ∧ _vars st !! k = Some v ∧ _covars st !! k = Some c
      ∧ acc' = columns_of (<[k := l ++ [(m, v, c)]]> d).
Proof.
  unfold pull_value, dropped. intros Hrun.
  do 2 (step_in Hrun; [|done]).
  destruct (_ || _); [left; by simplify_eq|].
  step_in Hrun; [|done].
  unfold dict_append, column in Hrun. rewrite !lookup_fmap in Hrun.
  destruct (d !! k) as [l|] eqn:Hl; [|done]. cbn in Hrun. simplify_eq.
  right. eexists l, _, _, _. do 4 (split; [done|]).
  unfold columns_of, column. rewrite !fmap_insert, !fmap_app. done.
Qed.

Lemma pull_values_columns (st : pair_stats) (keys : list string)
    (d : samples) (acc' : ptc_acc) :
  NoDup keys →
  for_each (pull_value st) keys (columns_of d) = Ok acc' →
  ∃ d', acc' = columns_of d' ∧ dom d' = dom d
    ∧ ∀ k l, d !! k = Some l →
        d' !! k = Some l
        ∨ k ∈ keys ∧ ∃ m v c, _means st !! k = Some m
            ∧ _vars st !! k = Some v ∧ _covars st !! k = Some c
            ∧ d' !! k = Some (l ++ [(m, v, c)]).
Proof.
  intros Hnd. revert d. induction Hnd as [|k keys Hk Hnd IH]; intros d Hrun.
  - cbn in Hrun. simplify_eq. exists d. split; [done|]. split; [done|].
    by left.
  - cbn [for_each] in Hrun.
    destruct (pull_value st (columns_of d) k) as [acc1|] eqn:Hpull; [|done].
    cbn in Hrun.
    apply pull_value_columns in Hpull
      as [->|(l & m & v & c & Hl & Hm & Hv & Hc & ->)].
    + destruct (IH d Hrun) as (d' & -> & Hdom & Hd'). exists d'.
      split; [done|]. split; [done|]. intros k' l' Hl'.
      destruct (Hd' k' l' Hl') as [?|[? ?]]; [by left|right].
      split; [by right|done].
    + destruct (IH _ Hrun) as (d' & -> & Hdom & Hd'). exists d'.
      split; [done|]. split.
      { rewrite Hdom, dom_insert_L. apply (elem_of_dom_2 d) in Hl.
        apply subseteq_union_1_L. by apply singleton_subseteq_l. }
      intros k' l' Hl'. destruct (decide (k' = k)) as [->|Hne].
      * simplify_eq. right. split; [by left|]. exists m, v, c.
        do 3 (split; [done|]).
        destruct (Hd' k (l ++ [(m, v, c)])) as [?|[? _]];
          [by rewrite lookup_insert_eq|done|done].
      * destruct (Hd' k' l') as [?|[? ?]];
          [by rewrite lookup_insert_ne|by left|right].
        split; [by right|done].
Qed.

Lemma accumulate_pair_columns (detector : list Amp) (st : pair_stats)
    (d : samples) (acc' : ptc_acc) :
  accumulate_pair detector (columns_of d) st = Ok acc' →
  ∃ d', acc' = columns_of d' ∧ dom d' = dom d
    ∧ ∀ k l, d !! k = Some l →
        d' !! k = Some l
        ∨ ∃ m v c, _means st !! k = Some m
            ∧ _vars st !! k = Some v ∧ _covars st !! k = Some c
            ∧ d' !! k = Some (l ++ [(m, v, c)]).
Proof.
  unfold accumulate_pair. intros Hrun.
  destruct (breaker detector st) as [b|]; [|done]. cbn in Hrun.
  destruct (negb (b =? 0)).
  - simplify_eq. exists d. split; [done|]. split; [done|]. by left.
  - apply pull_values_columns in Hrun as (d' & -> & Hdom & Hd');
      [|apply NoDup_fst_map_to_list].
    exists d'. split; [done|]. split; [done|]. intros k l Hl.
    destruct (Hd' k l Hl) as [?|[_ ?]]; [by left|by right].
Qed.

Lemma ptc_init_columns (detector : list Amp) :
  ptc_init detector
  = columns_of (list_to_map ((λ amp, (ampName amp, [])) <$> detector)).
Proof.
  unfold ptc_init, columns_of, column. f_equal.
  all: induction detector as [|amp detector IH]; cbn;
    [by rewrite fmap_empty|by rewrite fmap_insert, <-IH].
Qed.

Lemma dom_ptc_init (detector : list Amp) :
  dom (list_to_map ((λ amp, (ampName amp, [])) <$> detector) : samples)
  = list_to_set (ampName <$> detector).
Proof.
  induction detector as [|amp detector IH]; cbn;
    [by rewrite dom_empty_L|by rewrite dom_insert_L, IH].
Qed.

Lemma lookup_ptc_init (detector : list Amp) (k : string)
    (l : list (float * float * float)) :
  (list_to_map ((λ amp, (ampName amp, [])) <$> detector) : samples) !! k
    = Some l → l = [].
Proof.
  induction detector as [|amp detector IH]; cbn; [done|].
  destruct (decide (k = ampName amp)) as [->|Hne].
  - rewrite lookup_insert_eq. congruence.
  - by rewrite lookup_insert_ne.
Qed.

(** X7.  The three per-amplifier lists that [estimateGains] collects are
    the three columns of one list of samples: for every amplifier name of
    the detector (and for no other key) the lists of means, variances and
    covariances exist and have the same length, and that length is at most
    the number of visit pairs (a pair adds at most one point per
    amplifier). *)
Theorem estimateGains_lists_in_step {V} (detector : list Amp)
    (calc : V → result pair_stats) (visitPairs : list V) (acc : ptc_acc) :
  accumulate detector calc visitPairs = Ok acc →
  ∃ d : samples,
    ampMeans acc = column (λ t, t.1.1) d
    ∧ ampVariances acc = column (λ t, t.1.2) d
    ∧ ampCoVariances acc = column (λ t, t.2) d
    ∧ dom d = list_to_set (ampName <$> detector)
    ∧ ∀ k l, d !! k = Some l → length l ≤ length visitPairs.
Proof.
  unfold accumulate. rewrite ptc_init_columns. intros Hrun.
  apply (for_each_count _
           (λ n acc, ∃ d : samples, acc = columns_of d
              ∧ dom d = list_to_set (ampName <$> detector)
              ∧ ∀ k l, d !! k = Some l → length l ≤ n) _ 0) in Hrun.
  - destruct Hrun as (d & -> & Hdom & Hlen). exists d.
    do 3 (split; [done|]). split; [done|]. exact Hlen.
  - intros n a visPair a' (d & -> & Hdom & Hlen) Hbody.
    destruct (calc visPair) as [st|]; [|done]. cbn in Hbody.
    apply accumulate_pair_columns in Hbody as (d' & -> & Hdom' & Hd').
    exists d'. split; [done|]. split; [by rewrite Hdom'|].
    intros k l' Hl'.
    assert (is_Some (d !! k)) as [l Hl]
      by (apply elem_of_dom; rewrite <-Hdom'; by apply elem_of_dom_2 in Hl').
    specialize (Hlen k l Hl).
    destruct (Hd' k l Hl) as [?|(m & v & c & _ & _ & _ & ?)]; simplify_eq.
    + lia.
    + rewrite length_app. cbn. lia.
  - eexists. split; [done|]. split; [apply dom_ptc_init|].
    intros k l Hl. apply lookup_ptc_init in Hl as ->. cbn. lia.
Qed.

(** ** [estimateGains]: a dict of statistics without an amplifier *)

Lemma mapM_raises {A B} (f : A → result B) (l : list A) (x : A) (e : exn) :
  x ∈ l → (∀ y e', f y = Raise e' → e' = e) → f x = Raise e →
  mapM f l = Raise e.
Proof.
  intros Hx Hall Hfx. induction l as [|y l IH]; [by apply elem_of_nil in Hx|].
  cbn [mapM]. destruct (f y) as [b|e'] eqn:Hy.
  - apply elem_of_cons in Hx as [->|Hx]; [congruence|].
    rewrite (IH Hx). done.
  - apply Hall in Hy as ->. done.
Qed.

Lemma sanity_failed_raises st name e :
  sanity_failed st name = Raise e → e = KeyError.
Proof.
  unfold sanity_failed. intros Hrun.
  do 2 (step_in Hrun; [|by simplify_eq]).
  destruct (_ <? _)%float; [done|].
  step_in Hrun; [done|by simplify_eq].
Qed.

(** X8.  The sanity check reads [_means], [_vars] and [_covars] under the
    name of every amplifier of the detector: a visit pair whose mean or
    variance dict lacks one of them makes the loop body, and with it
    [estimateGains], raise [KeyError]. *)
Theorem estimateGains_missing_statistics `{NumPy} `{AfwMath} {V}
    (cfg : BfTaskConfig) (detector : list Amp) (calc : V → result pair_stats)
    (acc : ptc_acc) (st : pair_stats) (visPair : V) (amp : Amp) :
  amp ∈ detector →
  _means st !! ampName amp = None ∨ _vars st !! ampName amp = None →
  calc visPair = Ok st →
  accumulate_pair detector acc st = Raise KeyError
  ∧ estimateGains cfg detector calc [visPair] = Raise KeyError.
Proof.
  intros Hamp Hmiss Hcalc.
  assert (∀ acc, accumulate_pair detector acc st = Raise KeyError) as Hpair.
  { intros acc0. unfold accumulate_pair, breaker.
    rewrite (mapM_raises _ detector amp KeyError); [done|done| |].
    - intros y e'. apply sanity_failed_raises.
    - unfold sanity_failed. destruct Hmiss as [-> | Hv]; [done|].
      destruct (_means st !! ampName amp); [|done]. cbn. by rewrite Hv. }
  split; [apply Hpair|].
  unfold estimateGains, accumulate. cbn [for_each]. rewrite Hcalc. cbn.
  by rewrite Hpair.
Qed.

(** ** [estimateGains]: the two returned dicts *)

(** The last amplifier of a given name in the catalogue. *)
Definition last_named (name : string) (detector : list Amp) : option Amp :=
  last (List.filter (λ amp, bool_decide (ampName amp = name)) detector).

Lemma last_named_cons name amp detector :
  last_named name (amp :: detector)
  = match last_named name detector with
    | Some a => Some a
    | None => if bool_decide (ampName amp = name) then Some amp else None
    end.
Proof.
  unfold last_named. cbn [List.filter].
  case_bool_decide; [|by destruct (last _)].
  destruct (List.filter _ detector) as [|a l]; [done|].
  rewrite last_cons. by destruct (last (a :: l)) eqn:Hl.
Qed.

Lemma gains_loop_dicts `{NumPy} `{AfwMath} cfg acc (detector : list Amp)
    (g0 g : gmap string float * gmap string float) :
  for_each (λ (g : gmap string float * gmap string float) amp,
              gain ← amp_gain cfg acc (ampName amp);
              Ok (<[ampName amp := gain]> g.1,
                  <[ampName amp := ampGain amp]> g.2))
    detector g0 = Ok g →
  dom g.1 = list_to_set (ampName <$> detector) ∪ dom g0.1
  ∧ dom g.2 = list_to_set (ampName <$> detector) ∪ dom g0.2
  ∧ ∀ name, g.2 !! name
            = match last_named name detector with
              | Some amp => Some (ampGain amp)
              | None => g0.2 !! name
              end.
Proof.
  revert g0. induction detector as [|amp detector IH]; intros g0 Hrun.
  - cbn in Hrun. simplify_eq. cbn. rewrite !(left_id_L ∅ (∪)). done.
  - cbn [for_each] in Hrun.
    destruct (amp_gain cfg acc (ampName amp)) as [gain|]; [|done].
    cbn in Hrun. apply IH in Hrun as (Hd1 & Hd2 & Hnom).
    cbn [fst snd] in Hd1, Hd2, Hnom. rewrite dom_insert_L in Hd1, Hd2.
    rewrite fmap_cons. cbn [list_to_set].
    set (names := list_to_set (ampName <$> detector) : gset string) in *.
    split; [by rewrite Hd1, (assoc_L (∪) names), (comm_L (∪) names)|].
    split; [by rewrite Hd2, (assoc_L (∪) names), (comm_L (∪) names)|].
    intros name. rewrite Hnom, last_named_cons.
    destruct (last_named name detector); [done|].
    case_bool_decide as Hname.
    + rewrite Hname. by rewrite lookup_insert_eq.
    + by rewrite lookup_insert_ne.
Qed.

(** X9.  Whenever [estimateGains] returns, [gains] and [nomGains] have
    exactly the amplifier names of the detector as keys, and [nomGains]
    maps a name to the catalogue gain of the last amplifier that bears it
    (so to [amp.getGain()] for every amplifier when names are unique). *)
Theorem estimateGains_nominal_gains `{NumPy} `{AfwMath} {V}
    (cfg : BfTaskConfig) (detector : list Amp)
    (calc : V → result pair_stats) (visitPairs : list V)
    (gains nomGains : gmap string float) :
  estimateGains cfg detector calc visitPairs = Ok (gains, nomGains) →
  dom gains = list_to_set (ampName <$> detector)
  ∧ dom nomGains = list_to_set (ampName <$> detector)
  ∧ (∀ name, nomGains !! name = ampGain <$> last_named name detector)
  ∧ (NoDup (ampName <$> detector) →
     ∀ amp, amp ∈ detector → nomGains !! ampName amp = Some (ampGain amp)).
Proof.
  unfold estimateGains. intros Hrun.
  destruct (accumulate detector calc visitPairs) as [acc|]; [|done].
  cbn in Hrun. apply gains_loop_dicts in Hrun as (Hd1 & Hd2 & Hnom).
  cbn [fst snd] in Hd1, Hd2, Hnom.
  rewrite dom_empty_L, (right_id_L ∅ (∪)) in Hd1.
  rewrite dom_empty_L, (right_id_L ∅ (∪)) in Hd2.
  assert (∀ name, nomGains !! name = ampGain <$> last_named name detector)
    as Hlast.
  { intros name. rewrite Hnom. by destruct (last_named name detector). }
  do 3 (split; [done|]). intros Hnd amp Hamp. rewrite Hlast.
  clear -Hnd Hamp. induction detector as [|a detector IH];
    [by apply elem_of_nil in Hamp|].
  rewrite last_named_cons. rewrite fmap_cons in Hnd.
  apply NoDup_cons in Hnd as [Hfresh Hnd].
  apply elem_of_cons in Hamp as [->|Hamp].
  - assert (last_named (ampName a) detector = None) as ->.
    { unfold last_named.
      assert (List.filter (λ amp, bool_decide (ampName amp = ampName a))
                detector = []) as ->; [|done].
      clear -Hfresh. induction detector as [|b detector IH]; [done|].
      cbn [List.filter]. rewrite fmap_cons in Hfresh.
      apply not_elem_of_cons in Hfresh as [Hne Hfresh].
      case_bool_decide; [congruence|]. by apply IH. }
    by rewrite bool_decide_eq_true_2.
  - specialize (IH Hnd Hamp).
    destruct (last_named (ampName amp) detector); [done|]. done.
Qed.

(** ** [_SOR]: the boundary and the shape of the result *)

Lemma for2_invariant {S} (P : S → Prop) (ri rj : list nat)
    (body : nat → nat → S → S) (s : S) :
  (∀ i j s, i ∈ ri → j ∈ rj → P s → P (body i j s)) → P s →
  P (for2 ri rj body s).
Proof.
  unfold for2. revert s. induction ri as [|i ri IHi]; intros s Hbody Hs;
    [done|].
  cbn [foldl]. apply IHi; [intros; apply Hbody; [by right|done..]|].
  assert (∀ j, j ∈ rj → i ∈ i :: ri ∧ j ∈ rj) as Hin by (split; [by left|done]).
  revert s Hs Hin. generalize rj at 1 3. intros l.
  induction l as [|j l IHj]; intros s Hs Hin; [done|].
  cbn [foldl]. apply IHj; [|intros; apply Hin; by right].
  destruct (Hin j) as [? ?]; [by left|]. by apply Hbody.
Qed.

Lemma elem_of_range2 (start stop i : nat) :
  i ∈ range2 start stop → start ≤ i < stop.
Proof.
  unfold range2. intros (k & -> & Hk)%list_elem_of_fmap.
  apply elem_of_seq in Hk as [_ Hk].
  pose proof (Nat.Div0.mul_div_le (stop - start + 1) 2) as Hq.
  revert Hk Hq. generalize ((stop - start + 1) / 2). intros q Hk Hq. lia.
Qed.

(** The grid of [_SOR] for a source of [r] rows and [c] columns: both
    arrays keep their shape, and [func] is zero outside the square of side
    [r] that the sweeps visit. *)
Definition sor_grid (r c : nat) (fr : ndarray * ndarray) : Prop :=
  rect (r + 2) (c + 2) fr.1 ∧ rect (r + 2) (c + 2) fr.2
  ∧ ∀ i j, i = 0 ∨ j = 0 ∨ r < i ∨ r < j → get2 fr.1 i j = 0%float.

Lemma relax_grid r c source w i j fr :
  r ≤ c → 1 ≤ i ≤ r → 1 ≤ j ≤ r →
  sor_grid r c fr → sor_grid r c (relax source w i j fr).
Proof.
  intros Hrc Hi Hj (Hf & Hr & Hzero). unfold relax.
  split; [by apply rect_set2|]. split; [by apply rect_set2|].
  intros i' j' Hout. cbn [fst].
  rewrite (get2_set2 (r + 2) (c + 2)) by (done || lia).
  case_bool_decide as Heq; [lia|]. by apply Hzero.
Qed.

Lemma half_sweep_grid r c source s :
  r ≤ c → sor_grid r c (func s, resid s) → sor_grid r c (half_sweep source s).
Proof.
  intros Hrc Hgrid. unfold half_sweep.
  assert (shape0 (func s) - 1 = r + 1) as ->.
  { destruct Hgrid as ([Hlen _] & _). unfold shape0. cbn in Hlen. lia. }
  destruct (Nat.even (nIter s)).
  all: do 2 (apply for2_invariant;
             [intros i j fr Hi%elem_of_range2 Hj%elem_of_range2;
              apply relax_grid; lia|]); done.
Qed.

Lemma sor_while_grid r c source rho eLevel inError remaining s :
  r ≤ c → sor_grid r c (func s, resid s) →
  sor_grid r c
    (func (sor_while (sor_body source rho eLevel inError) remaining s),
     resid (sor_while (sor_body source rho eLevel inError) remaining s))
  ∧ nIter (sor_while (sor_body source rho eLevel inError) remaining s)
    ≤ nIter s + remaining.
Proof.
  intros Hrc. revert s. induction remaining as [|remaining IH];
    intros s Hgrid.
  - cbn [sor_while]. split; [done|lia].
  - cbn [sor_while].
    pose proof (half_sweep_grid r c source s Hrc Hgrid) as Hnext.
    destruct (sor_body source rho eLevel inError s) as [s' stop] eqn:Hbody.
    assert (sor_grid r c (func s', resid s') ∧ nIter s' ≤ S (nIter s)
            ∧ (stop = true → nIter s' = nIter s)) as (Hg & Hn & Hstop).
    { unfold sor_body in Hbody. destruct (half_sweep source s) as [f' r'].
      destruct (_ <? _)%float; simplify_eq; cbn [func resid nIter fst snd].
      - split; [done|]. split; [lia|done].
      - split; [done|]. split; [lia|done]. }
    destruct stop.
    + split; [done|]. rewrite Hstop by done. lia.
    + destruct (IH s' Hg) as [Hg' Hn']. split; [done|]. lia.
Qed.

Lemma lookup2_interior r c (a : ndarray) (i j : nat) :
  rect (r + 2) (c + 2) a → i < r → j < c →
  lookup2 (interior a) i j = lookup2 a (S i) (S j).
Proof.
  intros [Hlen Hrows] Hi Hj. unfold lookup2, interior.
  rewrite list_lookup_fmap, lookup_drop, lookup_take_lt by lia.
  replace (1 + i) with (S i) by lia.
  destruct (a !! S i) as [row|] eqn:Hrow; [|done]. cbn.
  rewrite Forall_lookup in Hrows. specialize (Hrows _ _ Hrow).
  rewrite lookup_drop, lookup_take_lt by lia. done.
Qed.

Lemma rect_interior r c (a : ndarray) :
  rect (r + 2) (c + 2) a → rect r c (interior a).
Proof.
  intros [Hlen Hrows]. unfold interior. split.
  - rewrite length_fmap, length_drop, length_take. lia.
  - apply Forall_fmap, Forall_drop, Forall_take.
    eapply Forall_impl; [done|]. intros row Hrow. cbn. cbn beta in Hrow.
    rewrite length_drop, length_take. lia.
Qed.

(** X10.  On a source of [r] rows and [c >= r] columns, and with at least
    one iteration allowed, [_SOR] returns an array of the shape of the
    source after at most [2*maxIter] half-sweeps.  The sweeps take both
    index ranges from the number of rows: the border of the padded grid is
    never written (it stays 0), and neither are the columns from [r] on, so
    the result is 0 there.  With no iteration allowed ([maxIter = 0]) the
    call raises [UnboundLocalError] at the message after the loop. *)
Theorem SOR_result_shape `{NumPy} (cfg : BfTaskConfig) (source : ndarray)
    (r c : nat) (maxIter : option nat) (eLevel : option float) :
  rect r c source → 0 < r → r ≤ c →
  let final := _SOR_run cfg source maxIter eLevel in
  (or_default_nat maxIter (maxIterSOR cfg) = 0 →
   _SOR cfg source maxIter eLevel = Raise UnboundLocalError)
  ∧ (0 < or_default_nat maxIter (maxIterSOR cfg) →
     ∃ out, _SOR cfg source maxIter eLevel = Ok out
       ∧ rect r c out
       ∧ nIter final ≤ or_default_nat maxIter (maxIterSOR cfg) * 2
       ∧ (∀ i j, i = 0 ∨ j = 0 ∨ r < i ∨ r < j →
            get2 (func final) i j = 0%float)
       ∧ (∀ i j, i < r → j < c →
            lookup2 out i j = lookup2 (func final) (S i) (S j))
       ∧ (∀ i j, i < r → r ≤ j < c → lookup2 out i j = Some 0%float)).
Proof.
  intros Hsrc Hr Hrc final.
  assert (shape0 source = r) as Hs0 by apply Hsrc.
  assert (shape1 source = c) as Hs1.
  { destruct Hsrc as [Hlen Hrows]. unfold shape1.
    destruct source as [|row source]; [cbn in Hlen; lia|].
    by apply Forall_cons in Hrows as [? _]. }
  destruct (sor_while_grid r c source (sor_rho source)
              (or_default_float eLevel (eLevelSOR cfg))
              (np_sum (np_abs (resid (sor_init source))))
              (or_default_nat maxIter (maxIterSOR cfg) * 2)
              (sor_init source) Hrc) as [(Hf & Hres & Hzero) Hn].
  { unfold sor_init. cbn [func resid]. rewrite Hs0, Hs1.
    split; [apply rect_np_zeros|]. split.
    - cbn [snd]. unfold initial_resid.
      rewrite shape0_np_zeros, shape1_np_zeros by lia.
      apply (for2_invariant (rect (r + 2) (c + 2))); [|apply rect_np_zeros].
      intros i j s _ _ Hs. by apply rect_set2.
    - intros i j _. apply get2_np_zeros. }
  fold (_SOR_run cfg source maxIter eLevel) in Hf, Hres, Hzero, Hn.
  fold final in Hf, Hres, Hzero, Hn. cbn [fst snd] in Hf, Hres, Hzero.
  split.
  { intros Hbudget. unfold _SOR. rewrite Hs0, Hbudget.
    destruct (Nat.eqb_spec r 0); [lia|]. done. }
  intros Hbudget.
  exists (interior (func final)). split.
  { unfold _SOR. rewrite Hs0, Hs1.
    destruct (Nat.eqb_spec r 0); [lia|].
    destruct (Nat.eqb_spec (or_default_nat maxIter (maxIterSOR cfg)) 0);
      [lia|].
    destruct (Nat.ltb_spec c r); [lia|]. done. }
  split; [by apply rect_interior|]. split; [exact Hn|].
  split; [exact Hzero|].
  split; [intros; by apply (lookup2_interior r c)|].
  intros i j Hi Hj. rewrite (lookup2_interior r c) by (done || lia).
  destruct (lookup2_rect (r + 2) (c + 2) (func final) (S i) (S j))
    as [v Hv]; [done|lia|lia|].
  rewrite Hv. f_equal. specialize (Hzero (S i) (S j)).
  unfold get2 in Hzero. rewrite Hv in Hzero. cbn in Hzero. apply Hzero. lia.
Qed.

(** ** [_generateKernel]: which samples reach the stack *)

Lemma get2_subtract_means mean1 mean2 corr :
  is_Some (lookup2 corr 0 0) →
  get2 (subtract_means mean1 mean2 corr) 0 0
  = (get2 corr 0 0 - (mean1 + mean2))%float.
Proof.
  intros Hin. unfold subtract_means, get2 at 1.
  by rewrite lookup2_set2_eq.
Qed.

Lemma kernel_step_skip `{Libm} rejectLevel acc mean1 mean2 ref corr :
  store acc !! ref = Some corr → is_Some (lookup2 corr 0 0) →
  (0 <? get2 corr 0 0 - (mean1 + mean2))%float = true →
  kernel_step rejectLevel acc ((mean1, mean2), ref)
  = Ok {| store := <[ref := subtract_means mean1 mean2 corr]> (store acc);
          xcorrList := xcorrList acc; fullCorr := fullCorr acc |}.
Proof.
  intros Href [v Hv] Hpos. unfold kernel_step. rewrite Href. cbn.
  rewrite Hv. cbn. rewrite get2_subtract_means by eauto. by rewrite Hpos.
Qed.

Lemma kernel_loop_all_skipped `{Libm} rejectLevel items acc :
  NoDup items.*2 → xcorrList acc = [] →
  (∀ mean1 mean2 ref, ((mean1, mean2), ref) ∈ items →
     ∃ corr, store acc !! ref = Some corr ∧ is_Some (lookup2 corr 0 0)
       ∧ (0 <? get2 corr 0 0 - (mean1 + mean2))%float = true) →
  ∃ acc', for_each (kernel_step rejectLevel) items acc = Ok acc'
    ∧ xcorrList acc' = [].
Proof.
  revert acc. induction items as [|[[mean1 mean2] ref] items IH];
    intros acc Hnd Hempty Hall.
  - by exists acc.
  - rewrite fmap_cons in Hnd. apply NoDup_cons in Hnd as [Hfresh Hnd].
    destruct (Hall mean1 mean2 ref) as (corr & Href & Hin & Hpos); [by left|].
    cbn [for_each]. rewrite (kernel_step_skip _ _ _ _ _ corr) by done. cbn.
    apply IH; [done|done|]. intros m1 m2 r Hitem. cbn [store].
    destruct (Hall m1 m2 r) as (corr' & Hr & Hin' & Hpos'); [by right|].
    exists corr'. split; [|done].
    rewrite list_lookup_insert_ne; [done|]. intros ->. apply Hfresh.
    apply list_elem_of_fmap. by exists ((m1, m2), r).
Qed.

(** X11.  When the sign test skips every sample (the corrected [[0, 0]]
    entry, [corr[0, 0] - (mean1 + mean2)], is positive for each pair of
    means and its array), and in particular when there is no sample at all,
    [_generateKernel] raises [RuntimeError]: all inputs were discarded. *)
Theorem generateKernel_all_skipped `{NumPy} `{AfwMath} `{Libm} (cfg : BfTaskConfig)
    (arrays : list ndarray) (corrs : list nat) (means : list (float * float))
    (rejectLevel : option float) :
  NoDup corrs →
  (∀ k mean1 mean2 ref,
     means !! k = Some (mean1, mean2) → corrs !! k = Some ref →
     ∃ corr, arrays !! ref = Some corr ∧ is_Some (lookup2 corr 0 0)
       ∧ (0 <? get2 corr 0 0 - (mean1 + mean2))%float = true) →
  _generateKernel cfg arrays corrs means rejectLevel = Raise RuntimeError.
Proof.
  intros Hnd Hall. unfold _generateKernel, kernel_loop.
  destruct (kernel_loop_all_skipped
              (or_default_float rejectLevel (xcorrCheckRejectLevel cfg))
              (zip means corrs)
              {| store := arrays; xcorrList := []; fullCorr := None |})
    as (acc & -> & Hempty); [by apply zip_snd_NoDup|done| |].
  - intros mean1 mean2 ref (k & Hk)%list_elem_of_lookup_1.
    apply lookup_zip_with_Some in Hk as (m & r & ? & Hm & Hr). simplify_eq.
    by apply (Hall k).
  - cbn. by rewrite Hempty.
Qed.

Lemma zip_app_l {A B} (l e : list A) (k : list B) :
  length k ≤ length l → zip (l ++ e) k = zip l k.
Proof.
  revert k. induction l as [|x l IH]; intros [|y k] Hlen; cbn in *;
    try done; try lia.
  - by destruct e.
  - f_equal. apply IH. lia.
Qed.

Lemma zip_app_r {A B} (l : list A) (k e : list B) :
  length l ≤ length k → zip l (k ++ e) = zip l k.
Proof.
  revert k. induction l as [|x l IH]; intros [|y k] Hlen; cbn in *;
    try done; try lia.
  f_equal. apply IH. lia.
Qed.

(** X12.  The samples are taken from [zip(means, corrs)]: the surplus of
    the longer list is ignored without any complaint.  Further pairs of
    means, or further arrays, leave the result and the arrays unchanged. *)
Theorem generateKernel_ignores_surplus `{NumPy} `{AfwMath} `{Libm}
    (cfg : BfTaskConfig) (arrays : list ndarray) (corrs more_corrs : list nat)
    (means more_means : list (float * float)) (rejectLevel : option float) :
  (length corrs ≤ length means →
   _generateKernel cfg arrays corrs (means ++ more_means) rejectLevel
   = _generateKernel cfg arrays corrs means rejectLevel)
  ∧ (length means ≤ length corrs →
     _generateKernel cfg arrays (corrs ++ more_corrs) means rejectLevel
     = _generateKernel cfg arrays corrs means rejectLevel).
Proof.
  unfold _generateKernel, kernel_loop. split; intros Hlen.
  - by rewrite zip_app_l.
  - by rewrite zip_app_r.
Qed.

Lemma tileArray_rect (Q out : ndarray) :
  _tileArray Q = Ok out →
  0 < shape0 Q ∧ rect (2 * shape0 Q - 1) (2 * shape0 Q - 1) out.
Proof.
  unfold _tileArray. destruct (negb _); [done|].
  destruct (shape0 Q) as [|len]; [done|]. intros Hrun.
  assert (out = for2 (seq 0 (S len)) (seq 0 (S len)) (tile_body Q len)
                  (np_zeros (2 * len + 1) (2 * len + 1))) as ->
    by congruence.
  split; [lia|]. rewrite for2_flat. replace (2 * S len - 1) with (2 * len + 1) by lia.
  apply tile_fold_rect, rect_np_zeros.
Qed.

Lemma kernel_step_kept `{Libm} rejectLevel acc item acc' :
  kernel_step rejectLevel acc item = Ok acc' →
  xcorrList acc' = xcorrList acc
  ∨ ∃ quarter full, _tileArray quarter = Ok full
      ∧ (rejectLevel <? xcorrCheck full)%float = false
      ∧ xcorrList acc' = xcorrList acc ++ [full].
Proof.
  destruct item as [[mean1 mean2] ref]. unfold kernel_step. intros Hstep.
  do 2 (step_in Hstep; [|done]).
  destruct (0 <? _)%float; [left; by simplify_eq|].
  destruct (norm_factor mean1 mean2) as [d|]; [|done]. cbn in Hstep.
  destruct (_tileArray _) as [full|] eqn:Htile; [|done]. cbn in Hstep.
  destruct (rejectLevel <? _)%float eqn:Hcheck; simplify_eq; [by left|].
  right. by eexists _, full.
Qed.

(** X13.  The stack that [_generateKernel] averages holds at most one array
    per sample, and only tiled arrays (square, of odd side) that passed the
    check: for none of them is [xcorrCheck] above the reject level. *)
Theorem generateKernel_stack_passed_check `{Libm} (rejectLevel : float)
    (arrays : list ndarray) (means : list (float * float)) (corrs : list nat)
    (acc : kernel_acc) :
  kernel_loop rejectLevel arrays means corrs = Ok acc →
  length (xcorrList acc) ≤ length means `min` length corrs
  ∧ ∀ full, full ∈ xcorrList acc →
      (rejectLevel <? xcorrCheck full)%float = false
      ∧ ∃ quarter, _tileArray quarter = Ok full ∧ 0 < shape0 quarter
          ∧ rect (2 * shape0 quarter - 1) (2 * shape0 quarter - 1) full.
Proof.
  unfold kernel_loop. intros Hloop.
  apply (for_each_count _
           (λ n acc, length (xcorrList acc) ≤ n
              ∧ ∀ full, full ∈ xcorrList acc →
                  (rejectLevel <? xcorrCheck full)%float = false
                  ∧ ∃ quarter, _tileArray quarter = Ok full
                      ∧ 0 < shape0 quarter
                      ∧ rect (2 * shape0 quarter - 1)
                          (2 * shape0 quarter - 1) full) _ 0) in Hloop.
  - rewrite length_zip in Hloop. exact Hloop.
  - intros n a item a' [Hlen Hall] Hstep.
    apply kernel_step_kept in Hstep
      as [->|(quarter & full & Htile & Hcheck & ->)]; [split; [lia|done]|].
    split; [rewrite length_app; cbn; lia|].
    intros full' [?|Hnew]%elem_of_app; [by apply Hall|].
    apply list_elem_of_singleton in Hnew as ->. split; [done|]. exists quarter. split; [done|]. by apply tileArray_rect.
  - cbn. split; [lia|]. by intros full ?%elem_of_nil.
Qed.

(** ** [_calcMeansAndVars]: the keys of the three dicts *)

Lemma sum_means_dom ampMeans (amps : list Amp) (m0 m : gmap string float) :
  for_each (sum_means ampMeans) amps m0 = Ok m →
  dom m = list_to_set (ampName <$> amps) ∪ dom m0.
Proof.
  revert m0. induction amps as [|amp amps IH]; intros m0 Hrun.
  - cbn in Hrun. simplify_eq. cbn. by rewrite (left_id_L ∅ (∪)).
  - cbn [for_each] in Hrun.
    destruct (sum_means ampMeans m0 amp) as [m1|] eqn:Hamp; [|done].
    cbn in Hrun. apply IH in Hrun as ->.
    unfold sum_means in Hamp. do 3 (step_in Hamp; [|done]). simplify_eq.
    rewrite dom_insert_L, fmap_cons. cbn [list_to_set].
    set (names := list_to_set (ampName <$> amps) : gset string).
    by rewrite (assoc_L (∪) names), (comm_L (∪) names).
Qed.

Lemma measure_covariance_dom `{AfwMath} cfg detector ampMeans diff
    (amps : list Amp) (acc0 acc : stats_acc) :
  for_each (measure_covariance cfg detector ampMeans diff) amps acc0 = Ok acc →
  dom (variances acc) = list_to_set (ampName <$> amps) ∪ dom (variances acc0)
  ∧ dom (coVars acc) = list_to_set (ampName <$> amps) ∪ dom (coVars acc0)
  ∧ (amps = [] → meansDict acc = meansDict acc0)
  ∧ (amps ≠ [] →
     ∃ means, meansDict acc = Some means
       ∧ dom means = list_to_set (ampName <$> detector)).
Proof.
  revert acc0. induction amps as [|amp amps IH]; intros acc0 Hrun.
  - cbn in Hrun. simplify_eq. cbn. rewrite !(left_id_L ∅ (∪)). done.
  - cbn [for_each] in Hrun.
    destruct (measure_covariance cfg detector ampMeans diff acc0 amp)
      as [acc1|] eqn:Hamp; [|done].
    cbn in Hrun. apply IH in Hrun as (Hv & Hc & Hnil & Hcons).
    unfold measure_covariance in Hamp.
    destruct (amp_xcorr cfg diff amp) as [xcorr|]; [|done]. cbn in Hamp.
    step_in Hamp; [|done].
    destruct (_tileArray xcorr) as [full|]; [|done]. cbn in Hamp.
    destruct (for_each (sum_means ampMeans) detector ∅) as [means|] eqn:Hm;
      [|done].
    cbn in Hamp. simplify_eq. cbn [variances coVars meansDict] in *.
    apply sum_means_dom in Hm.
    rewrite dom_empty_L, (right_id_L ∅ (∪)) in Hm.
    rewrite Hv, Hc, !dom_insert_L, fmap_cons. cbn [list_to_set].
    set (names := list_to_set (ampName <$> amps) : gset string).
    split; [by rewrite (assoc_L (∪) names), (comm_L (∪) names)|].
    split; [by rewrite (assoc_L (∪) names), (comm_L (∪) names)|].
    split; [done|]. intros _.
    destruct amps as [|amp' amps]; [rewrite Hnil by done; eauto|].
    by apply Hcons.
Qed.

Lemma calcMeansAndVars_dicts `{AfwMath} (cfg : BfTaskConfig)
    (detector : list Amp) (im1 im2 : image) (st : pair_stats) :
  _calcMeansAndVars cfg detector im1 im2 = Ok st →
  detector ≠ []
  ∧ dom (_means st) = list_to_set (ampName <$> detector)
  ∧ dom (_vars st) = list_to_set (ampName <$> detector)
  ∧ dom (_covars st) = list_to_set (ampName <$> detector).
Proof.
  unfold _calcMeansAndVars. intros Hrun.
  destruct (for_each _ _ _) as [st1|]; [|done]. cbn in Hrun.
  destruct (for_each _ _ _) as [st2|]; [|done]. cbn in Hrun.
  destruct (negb _); [done|].
  destruct (backgroundBinSize cfg =? 0); [done|].
  step_in Hrun; [|done].
  destruct (negb _); [done|].
  destruct (for_each _ _ _) as [acc|] eqn:Hloop; [|done]. cbn in Hrun.
  apply measure_covariance_dom in Hloop as (Hv & Hc & Hnil & Hcons).
  cbn [variances coVars meansDict] in Hv, Hc, Hnil, Hcons.
  rewrite dom_empty_L, (right_id_L ∅ (∪)) in Hv.
  rewrite dom_empty_L, (right_id_L ∅ (∪)) in Hc.
  destruct (meansDict acc) as [means|] eqn:Hmeans; [|done].
  assert (detector ≠ []) as Hne.
  { intros Hempty. specialize (Hnil Hempty). congruence. }
  destruct (Hcons Hne) as (means' & ? & Hm). simplify_eq.
  cbn [_means _vars _covars]. done.
Qed.

Lemma filter_id_fmap {A} (f : A → bool) (l : list A) :
  List.filter id (f <$> l) = f <$> List.filter f l.
Proof.
  induction l as [|x l IH]; [done|].
  cbn [fmap list_fmap List.filter]. unfold id at 1.
  destruct (f x) eqn:Hx; cbn [fmap list_fmap]; by rewrite IH, ?Hx.
Qed.

(** X14.  Whenever [_calcMeansAndVars] returns, the detector of the
    exposure (that of the first visit) has an amplifier, and the three
    dicts have exactly the amplifier names of that detector as keys ("keys
    are necessarily the same", as [estimateGains] notes).  The sanity check
    of [estimateGains] reads these dicts under the amplifier names of
    another object, the [raw_detector] of the data reference: for a name
    that the exposure's detector has, it evaluates to the sanity condition;
    so when every name of [raw_detector] is one of them the check of the
    pair counts the failing amplifiers, and when [raw_detector] has a name
    that the exposure's detector lacks it raises [KeyError]. *)
Theorem calcMeansAndVars_keys `{AfwMath} (cfg : BfTaskConfig)
    (detector : list Amp) (im1 im2 : image) (st : pair_stats) :
  _calcMeansAndVars cfg detector im1 im2 = Ok st →
  detector ≠ []
  ∧ dom (_means st) = list_to_set (ampName <$> detector)
  ∧ dom (_vars st) = list_to_set (ampName <$> detector)
  ∧ dom (_covars st) = list_to_set (ampName <$> detector)
  ∧ ∀ raw_detector : list Amp,
      (∀ amp, amp ∈ raw_detector → ampName amp ∈ ampName <$> detector →
         sanity_failed st (ampName amp)
         = Ok (fails_sanity st (ampName amp)))
      ∧ ((∀ amp, amp ∈ raw_detector → ampName amp ∈ ampName <$> detector) →
         breaker raw_detector st
         = Ok (length (List.filter (λ amp, fails_sanity st (ampName amp))
                         raw_detector)))
      ∧ ((∃ amp, amp ∈ raw_detector ∧ (ampName amp ∉ ampName <$> detector)) →
         breaker raw_detector st = Raise KeyError).
Proof.
  intros (Hne & Hm & Hv & Hc)%calcMeansAndVars_dicts.
  do 4 (split; [done|]). intros raw_detector.
  assert (∀ amp : Amp, ampName amp ∈ ampName <$> detector →
            sanity_failed st (ampName amp)
            = Ok (fails_sanity st (ampName amp))) as Hcheck.
  { intros amp Hamp. apply sanity_failed_ok.
    assert (ampName amp ∈ (list_to_set (ampName <$> detector) : gset string))
      as Hin by by apply elem_of_list_to_set.
    unfold has_stats.
    split; [apply elem_of_dom; by rewrite Hm|].
    split; [apply elem_of_dom; by rewrite Hv|apply elem_of_dom; by rewrite Hc]. }
  split; [intros amp _; apply Hcheck|]. split.
  - intros Hall. unfold breaker.
    rewrite (mapM_ok _ (λ amp, fails_sanity st (ampName amp)))
      by (intros amp Hamp; by apply Hcheck, Hall).
    cbn. by rewrite filter_id_fmap, length_fmap.
  - intros (amp & Hamp & Hname). unfold breaker.
    rewrite (mapM_raises _ raw_detector amp KeyError); [done|done| |].
    + intros y e'. apply sanity_failed_raises.
    + unfold sanity_failed.
      assert (_means st !! ampName amp = None) as ->; [|done].
      apply not_elem_of_dom. rewrite Hm. by rewrite elem_of_list_to_set.
Qed.

(** X15.  On a detector without amplifiers [_calcMeansAndVars] never
    returns: once the difference image and its background are computed,
    [means] is read without having been bound (it is built inside the loop
    over the amplifiers). *)
Theorem calcMeansAndVars_empty_detector `{AfwMath} (cfg : BfTaskConfig)
    (im1 im2 : image) :
  (∃ e, _calcMeansAndVars cfg [] im1 im2 = Raise e)
  ∧ ∀ bkgd,
      same_dimensions im1 im2 = true → backgroundBinSize cfg ≠ 0 →
      let diff := im_sub im1 im2 in
      let temp := crop (border_box (nPixBorderGainCalc cfg) diff) diff in
      backgroundImage (getWidth temp / backgroundBinSize cfg)
        (getHeight temp / backgroundBinSize cfg) (nSigmaClipGainCalc cfg)
        temp = Some bkgd →
      same_dimensions temp bkgd = true →
      _calcMeansAndVars cfg [] im1 im2 = Raise UnboundLocalError.
Proof.
  split.
  - destruct (_calcMeansAndVars cfg [] im1 im2) as [st|e] eqn:Hrun;
      [|by exists e].
    by apply calcMeansAndVars_dicts in Hrun as [? _].
  - intros bkgd Hdim Hbin diff temp Hbkgd Hsame.
    unfold _calcMeansAndVars. cbn [for_each mbind result_bind fst snd].
    fold diff. fold temp. rewrite Hdim. cbn [negb].
    destruct (Nat.eqb_spec (backgroundBinSize cfg) 0); [done|].
    rewrite Hbkgd. cbn [lib or_raise mbind result_bind].
    rewrite Hsame. done.
Qed.

(** ** [validateIsrConfig]: which configurations pass *)

Lemma check_params_Ok bad (configDict : gmap string py_value) params :
  check_params bad configDict params = Ok ()
  ↔ ∀ p, p ∈ params → ∃ v, configDict !! p = Some v ∧ bad v = false.
Proof.
  unfold check_params. induction params as [|q params IH].
  - split; [by intros _ p ?%elem_of_nil|done].
  - cbn [for_each]. split.
    + intros Hrun. destruct (configDict !! q) as [v|] eqn:Hq; [|done].
      cbn in Hrun. destruct (bad v) eqn:Hbad; [done|]. cbn in Hrun.
      intros p [->|Hp]%elem_of_cons; [by exists v|]. by apply IH.
    + intros Hall. destruct (Hall q) as (v & Hq & Hbad); [by left|].
      rewrite Hq. cbn. rewrite Hbad. apply IH. intros p Hp. apply Hall. by right.
Qed.

Lemma check_params_cases bad (configDict : gmap string py_value) params :
  check_params bad configDict params = Ok ()
  ∨ check_params bad configDict params = Raise KeyError
  ∨ check_params bad configDict params = Raise RuntimeError.
Proof.
  unfold check_params. induction params as [|q params IH]; [by left|].
  cbn [for_each]. destruct (configDict !! q) as [v|]; [|right; by left].
  cbn. destruct (bad v); [right; by right|]. exact IH.
Qed.

Lemma warn_params_Ok (configDict : gmap string py_value) params warned0
    warned :
  for_each (λ warned configParam,
              v ← or_raise KeyError (configDict !! configParam);
              Ok (if is_False v then warned ++ [configParam] else warned))
    params warned0 = Ok warned
  ↔ (∀ p, p ∈ params → is_Some (configDict !! p))
    ∧ warned = warned0
        ++ List.filter
             (λ p, bool_decide (configDict !! p = Some (PyBool false))) params.
Proof.
  revert warned0 warned.
  induction params as [|q params IH]; intros warned0 warned.
  - cbn. rewrite app_nil_r. split.
    + intros ?. simplify_eq. split; [by intros p ?%elem_of_nil|done].
    + by intros [_ ->].
  - cbn [for_each List.filter]. split.
    + intros Hrun. destruct (configDict !! q) as [v|] eqn:Hq; [|done].
      cbn in Hrun. apply IH in Hrun as [Hall ->]. split.
      * intros p [->|Hp]%elem_of_cons; [by rewrite Hq|by apply Hall].
      * destruct v as [[]|]; cbn; [done|by rewrite <-app_assoc|done].
    + intros [Hall ->]. destruct (Hall q) as [v Hq]; [by left|].
      rewrite Hq. cbn. apply IH. split; [intros p Hp; apply Hall; by right|].
      destruct v as [[]|]; cbn; [done|by rewrite <-app_assoc|done].
Qed.

(** X16.  [validateIsrConfig] passes exactly when no mandatory parameter is
    the bool [False], no forbidden parameter is the bool [True], all twenty
    parameters are keys of the config dict, and [doTrim] is set.  The tests
    are identity tests: a mandatory parameter that holds any object other
    than [False] passes.  The warnings are the desirable parameters that
    are [False], in order; they never make the validation fail. *)
Theorem validateIsrConfig_passes (configDict : gmap string py_value)
    (doTrim : bool) (warned : list string) :
  validateIsrConfig configDict doTrim = Ok warned
  ↔ (∀ p, p ∈ mandatory →
       ∃ v, configDict !! p = Some v ∧ v ≠ PyBool false)
    ∧ (∀ p, p ∈ forbidden →
         ∃ v, configDict !! p = Some v ∧ v ≠ PyBool true)
    ∧ (∀ p, p ∈ desirableTrue → is_Some (configDict !! p))
    ∧ doTrim = true
    ∧ warned = List.filter
                 (λ p, bool_decide (configDict !! p = Some (PyBool false)))
                 desirableTrue.
Proof.
  assert (∀ v, is_False v = false ↔ v ≠ PyBool false) as HF
    by (intros [[]|]; cbn; split; congruence).
  assert (∀ v, is_True v = false ↔ v ≠ PyBool true) as HT
    by (intros [[]|]; cbn; split; congruence).
  unfold validateIsrConfig. split.
  - intros Hrun.
    destruct (check_params is_False configDict mandatory) as [[]|] eqn:Hm;
      [|done].
    destruct (check_params is_True configDict forbidden) as [[]|] eqn:Hf;
      [|done].
    cbn [mbind result_bind] in Hrun.
    destruct (warn_params configDict desirableTrue) as [w|] eqn:Hw; [|done].
    cbn [mbind result_bind] in Hrun. destruct doTrim; [|done].
    cbn in Hrun. simplify_eq.
    pose proof (proj1 (check_params_Ok _ _ _) Hm) as Hm'.
    pose proof (proj1 (check_params_Ok _ _ _) Hf) as Hf'.
    unfold warn_params in Hw.
    apply (proj1 (warn_params_Ok _ _ _ _)) in Hw as [Hd ->].
    split; [intros p Hp; destruct (Hm' p Hp) as (v & ? & ?%HF); eauto|].
    split; [intros p Hp; destruct (Hf' p Hp) as (v & ? & ?%HT); eauto|].
    done.
  - intros (Hm & Hf & Hd & -> & ->).
    rewrite (proj2 (check_params_Ok is_False configDict mandatory)).
    2:{ intros p Hp. destruct (Hm p Hp) as (v & ? & ?%HF). eauto. }
    rewrite (proj2 (check_params_Ok is_True configDict forbidden)).
    2:{ intros p Hp. destruct (Hf p Hp) as (v & ? & ?%HT). eauto. }
    cbn [mbind result_bind]. unfold warn_params.
    rewrite (proj2 (warn_params_Ok configDict desirableTrue []
                      (List.filter
                         (λ p, bool_decide
                                 (configDict !! p = Some (PyBool false)))
                         desirableTrue))); [done|].
    split; [done|]. done.
Qed.

Lemma check_params_insert_ne bad (configDict : gmap string py_value) params
    p v :
  p ∉ params →
  check_params bad (<[p := v]> configDict) params
  = check_params bad configDict params.
Proof.
  unfold check_params. induction params as [|q params IH]; [done|].
  intros [Hne Hp]%not_elem_of_cons. cbn [for_each].
  rewrite lookup_insert_ne by done.
  destruct (configDict !! q) as [w|]; [|done]. cbn.
  destruct (bad w); [done|]. by apply IH.
Qed.

Lemma warn_params_insert (configDict : gmap string py_value) params p v :
  is_Some (configDict !! p) →
  (∃ warned, warn_params configDict params = Ok warned)
  ↔ (∃ warned, warn_params (<[p := v]> configDict) params = Ok warned).
Proof.
  intros Hset. unfold warn_params.
  split; intros [warned [Hall _]%warn_params_Ok]; eexists;
    apply warn_params_Ok; (split; [|done]); intros q Hq.
  - destruct (decide (q = p)) as [->|]; [by rewrite lookup_insert_eq|].
    rewrite lookup_insert_ne by done. by apply Hall.
  - destruct (decide (q = p)) as [->|]; [done|].
    specialize (Hall q Hq). by rewrite lookup_insert_ne in Hall by done.
Qed.

(** X17.  [validateIsrConfig] fails with [KeyError] or [RuntimeError] only,
    and the values of the desirable parameters never decide between
    passing and failing: resetting a desirable parameter that is set
    changes the warnings at most. *)
Theorem validateIsrConfig_desirable_never_fatal
    (configDict : gmap string py_value) (doTrim : bool)
    (p : string) (v : py_value) :
  p ∈ desirableTrue → is_Some (configDict !! p) →
  (∀ e, validateIsrConfig configDict doTrim = Raise e →
        e = KeyError ∨ e = RuntimeError)
  ∧ ((∃ warned, validateIsrConfig configDict doTrim = Ok warned)
     ↔ (∃ warned, validateIsrConfig (<[p := v]> configDict) doTrim
                  = Ok warned)).
Proof.
  intros Hp Hset. split.
  - intros e Hrun. unfold validateIsrConfig in Hrun.
    destruct (check_params_cases is_False configDict mandatory)
      as [Hc|[Hc|Hc]]; rewrite Hc in Hrun; cbn [mbind result_bind] in Hrun;
      [|simplify_eq; auto..].
    destruct (check_params_cases is_True configDict forbidden)
      as [Hc'|[Hc'|Hc']]; rewrite Hc' in Hrun;
      cbn [mbind result_bind] in Hrun; [|simplify_eq; auto..].
    unfold warn_params in Hrun.
    destruct (for_each _ desirableTrue []) as [w|e'] eqn:Hw;
      cbn [mbind result_bind] in Hrun.
    + destruct doTrim; cbn in Hrun; simplify_eq; auto.
    + simplify_eq. left.
      eapply (for_each_raises _ (λ e, e = KeyError)); [|exact Hw].
      intros acc x e0 _ Hx. cbn beta in Hx.
      destruct (configDict !! x); cbn in Hx; by simplify_eq.
  - assert ((p ∉ mandatory) ∧ (p ∉ forbidden)) as [Hnm Hnf].
    { unfold desirableTrue in Hp. rewrite !elem_of_cons, elem_of_nil in Hp.
      destruct Hp as [Hp|[Hp|[Hp|[Hp|[Hp|[]]]]]]; subst p;
        split; by apply (bool_decide_unpack _). }
    unfold validateIsrConfig. rewrite !check_params_insert_ne by done.
    destruct (check_params is_False configDict mandatory) as [[]|];
      [|split; by intros [? ?]].
    destruct (check_params is_True configDict forbidden) as [[]|];
      [|split; by intros [? ?]].
    cbn [mbind result_bind].
    pose proof (warn_params_insert configDict desirableTrue p v Hset) as Hw.
    destruct (warn_params configDict desirableTrue) as [w|];
      destruct (warn_params (<[p:=v]> configDict) desirableTrue) as [w'|].
    + cbn. destruct doTrim; cbn; split; intros [? ?]; by eauto.
    + destruct (proj1 Hw) as [? ?]; by eauto.
    + destruct (proj2 Hw) as [? ?]; by eauto.
    + split; by intros [? ?].
Qed.

(** ** [_getNameOfSet]: runs of consecutive values *)

(** The maximal runs of consecutive values of a list, each as its first
    and its last value. *)
Definition prepend_run (r : Z * Z) (rs : list (Z * Z)) : list (Z * Z) :=
  match rs with
  | (c, d) :: rs' => if (c =? r.2 + 1)%Z then (r.1, d) :: rs' else r :: rs
  | [] => [r]
  end.
Definition runs (vals : list Z) : list (Z * Z) :=
  foldr (λ v rs, prepend_run (v, v) rs) [] vals.

(** The values of a run. *)
Definition run_values (r : Z * Z) : list Z :=
  (λ k, r.1 + Z.of_nat k)%Z <$> seq 0 (Z.to_nat (r.2 - r.1 + 1)).

(** The name of a run. *)
Definition run_name (r : Z * Z) : result string :=
  names ← _addPairToName [] r.1 r.2; or_raise IndexError (names !! 0).

Lemma addPairToName_app valName val0 val1 :
  _addPairToName valName val0 val1
  = (name ← run_name (val0, val1); Ok (valName ++ [name])).
Proof.
  unfold run_name, _addPairToName. cbn [fst snd].
  destruct (negb _); [|done].
  destruct (py_int _); done.
Qed.

Lemma prepend_run_merge a b v rs :
  v = (b + 1)%Z →
  prepend_run (a, b) (prepend_run (v, v) rs) = prepend_run (a, v) rs.
Proof.
  intros ->. destruct rs as [|[c d] rs]; cbn.
  - by rewrite Z.eqb_refl.
  - destruct (c =? b + 1 + 1)%Z; cbn; by rewrite Z.eqb_refl.
Qed.

Lemma prepend_run_split a b v rs :
  v ≠ (b + 1)%Z →
  prepend_run (a, b) (prepend_run (v, v) rs) = (a, b) :: prepend_run (v, v) rs.
Proof.
  intros Hne. apply Z.eqb_neq in Hne.
  destruct rs as [|[c d] rs]; cbn; [by rewrite Hne|].
  destruct (c =? v + 1)%Z; cbn; by rewrite Hne.
Qed.

Lemma name_loop_runs rest valName val0 val1 :
  (st ← for_each name_step rest (valName, val0, val1);
   _addPairToName st.1.1 st.1.2 st.2)
  = (names ← mapM run_name (prepend_run (val0, val1) (runs rest));
     Ok (valName ++ names)).
Proof.
  revert valName val0 val1.
  induction rest as [|v rest IH]; intros valName val0 val1.
  - cbn [for_each runs foldr prepend_run mapM mbind result_bind fst snd].
    rewrite addPairToName_app. by destruct (run_name _).
  - cbn [for_each name_step runs foldr]. fold (runs rest).
    destruct (Z.eqb_spec v (val1 + 1)) as [Hv|Hv].
    + cbn [mbind result_bind]. rewrite IH. by rewrite prepend_run_merge.
    + rewrite prepend_run_split by done. cbn [mapM].
      rewrite addPairToName_app.
      destruct (run_name (val0, val1)) as [name|]; [|done].
      cbn [mbind result_bind]. rewrite IH.
      destruct (mapM run_name _) as [names|]; [|done].
      cbn. by rewrite <-app_assoc.
Qed.

Lemma run_values_single v : run_values (v, v) = [v].
Proof.
  unfold run_values. cbn [fst snd]. rewrite Z.sub_diag.
  change (Z.to_nat (0 + 1)) with 1. cbn [seq fmap list_fmap]. f_equal. lia.
Qed.

Lemma run_values_extend a b :
  (a ≤ b)%Z → run_values (a, b + 1)%Z = run_values (a, b) ++ [(b + 1)%Z].
Proof.
  intros Hab. unfold run_values. cbn [fst snd].
  replace (Z.to_nat (b + 1 - a + 1)) with (S (Z.to_nat (b - a + 1))) by lia.
  rewrite seq_S, fmap_app. cbn. do 2 f_equal. lia.
Qed.

Lemma run_values_cons a b :
  (a ≤ b)%Z → run_values (a, b) = a :: run_values (a + 1, b)%Z.
Proof.
  intros Hab. unfold run_values. cbn [fst snd].
  replace (Z.to_nat (b - a + 1)) with (S (Z.to_nat (b - (a + 1) + 1))) by lia.
  cbn [seq fmap list_fmap]. rewrite Z.add_0_r. f_equal.
  rewrite <-fmap_S_seq, <-list_fmap_compose. apply list_fmap_ext.
  intros _ k _. cbn. lia.
Qed.

Lemma runs_values (vals : list Z) :
  Forall (λ r, r.1 ≤ r.2)%Z (runs vals)
  ∧ concat (run_values <$> runs vals) = vals.
Proof.
  induction vals as [|v vals [IHle IH]]; [by split|].
  cbn [runs foldr]. fold (runs vals).
  destruct (runs vals) as [|[c d] rs] eqn:Hruns; cbn [prepend_run fst snd].
  - cbn in IH. subst vals. split; [by repeat constructor|].
    cbn. by rewrite run_values_single.
  - apply Forall_cons in IHle as [Hcd Hrs]. cbn in Hcd.
    destruct (Z.eqb_spec c (v + 1)) as [->|Hne].
    + split; [constructor; [cbn; lia|done]|].
      cbn [fmap list_fmap concat] in IH |- *. rewrite <-IH.
      rewrite (run_values_cons v d) by lia. done.
    + split; [constructor; [cbn; lia|by constructor]|].
      cbn [fmap list_fmap concat] in IH |- *. rewrite <-IH.
      by rewrite run_values_single.
Qed.

Lemma getNameOfSet_runs_aux (vals : list Z) :
  _getNameOfSet vals
  = (names ← mapM run_name (runs vals); Ok (String.concat ", " names)).
Proof.
  destruct vals as [|val0 rest]; [done|].
  unfold _getNameOfSet.
  pose proof (name_loop_runs rest [] val0 val0) as Hloop.
  cbn [runs foldr]. fold (runs rest).
  destruct (for_each name_step rest ([], val0, val0)) as [st|e].
  - cbn [mbind result_bind] in Hloop |- *. rewrite Hloop.
    destruct (mapM run_name _) as [names|]; done.
  - cbn [mbind result_bind] in Hloop |- *.
    destruct (mapM run_name _) as [names|]; cbn in Hloop |- *;
      congruence.
Qed.

(** X18.  [_getNameOfSet] names the maximal runs of consecutive values of
    the list, in order: the result is the names of the runs joined by
    [", "] (the empty text for an empty list), or the error of the first
    run whose name cannot be built.  The runs lose and invent no value:
    spelled out, they give the list back. *)
Theorem getNameOfSet_names_runs (vals : list Z) :
  _getNameOfSet vals
  = (names ← mapM run_name (runs vals); Ok (String.concat ", " names))
  ∧ concat (run_values <$> runs vals) = vals
  ∧ Forall (λ r, r.1 ≤ r.2)%Z (runs vals).
Proof.
  split; [apply getNameOfSet_runs_aux|].
  destruct (runs_values vals) as [Hle Hvals]. by split.
Qed.

Lemma py_int_py_str (z : Z) : py_int (py_str z) = Ok z.
Proof.
  unfold py_int, py_str. rewrite NilZero.isi.
  - by rewrite DecimalZ.of_to.
  - destruct z; cbn; [done| |done]. intros [= Hnil].
    by apply DecimalPos.Unsigned.to_uint_nonnil in Hnil.
  - destruct z; cbn; [done|done|]. intros [= Hnil].
    by apply DecimalPos.Unsigned.to_uint_nonnil in Hnil.
Qed.

Lemma string_from_0 (s : string) : string_from 0 s = s.
Proof.
  unfold string_from. rewrite Nat.sub_0_r.
  induction s as [|c s IH]; [done|]. cbn. by rewrite IH.
Qed.

Lemma string_from_length (s : string) :
  string_from (String.length s) s = EmptyString.
Proof.
  unfold string_from. rewrite Nat.sub_diag.
  induction s as [|c s IH]; [done|]. cbn. exact IH.
Qed.

Lemma runs_run_values (n : nat) (a : Z) :
  runs (run_values (a, a + Z.of_nat n)%Z) = [(a, a + Z.of_nat n)%Z].
Proof.
  revert a. induction n as [|n IH]; intros a.
  - rewrite Z.add_0_r. by rewrite run_values_single.
  - rewrite run_values_cons by lia.
    replace (a + Z.of_nat (S n))%Z with (a + 1 + Z.of_nat n)%Z by lia.
    cbn [runs foldr]. fold (runs (run_values (a + 1, a + 1 + Z.of_nat n)%Z)).
    rewrite IH. cbn. by rewrite Z.eqb_refl.
Qed.

(** X19.  For a list that is one run of consecutive values from [a] to
    [b > a], the name is [a], a dash, and what [int] reads in the text of
    [b] after the longest common prefix of the two texts.  Without a common
    prefix that is ["a-b"]; when the text of [b] is itself a prefix of the
    text of [a] (as for [-10 .. -1]) nothing is left for [int] and
    [_getNameOfSet] raises [ValueError]. *)
Theorem getNameOfSet_single_run (a b : Z) :
  (a < b)%Z →
  let pre := commonprefix (py_str a) (py_str b) in
  _getNameOfSet (run_values (a, b))
  = (suffix ← py_int (string_from (String.length pre) (py_str b));
     Ok (py_str a +:+ "-" +:+ py_str suffix))
  ∧ (pre = EmptyString →
     _getNameOfSet (run_values (a, b))
     = Ok (py_str a +:+ "-" +:+ py_str b))
  ∧ (pre = py_str b →
     _getNameOfSet (run_values (a, b)) = Raise ValueError).
Proof.
  intros Hab pre.
  assert (_getNameOfSet (run_values (a, b))
          = (suffix ← py_int (string_from (String.length pre) (py_str b));
             Ok (py_str a +:+ "-" +:+ py_str suffix))) as Hname.
  { rewrite getNameOfSet_runs_aux.
    replace b with (a + Z.of_nat (Z.to_nat (b - a)))%Z at 1 by lia.
    rewrite runs_run_values.
    replace (a + Z.of_nat (Z.to_nat (b - a)))%Z with b by lia.
    cbn [mapM]. unfold run_name, _addPairToName. cbn [fst snd].
    destruct (Z.eqb_spec a b) as [?|_]; [lia|]. cbn [negb]. fold pre.
    destruct (py_int _) as [suffix|]; [|done]. cbn.
    done. }
  split; [exact Hname|]. split; intros Hpre; rewrite Hname, Hpre.
  - cbn [String.length]. rewrite string_from_0, py_int_py_str. done.
  - by rewrite string_from_length.
Qed.

(** ** [run]: gains, keys and kernels *)

Lemma generateKernel_no_sample `{NumPy} `{AfwMath} `{Libm} cfg arrays means
    rejectLevel :
  _generateKernel cfg arrays [] means rejectLevel = Raise RuntimeError
  ∧ _generateKernel cfg arrays (seq 0 (length arrays)) [] rejectLevel
    = Raise RuntimeError.
Proof.
  unfold _generateKernel, kernel_loop. split.
  - by destruct means.
  - done.
Qed.

Lemma lookup_run_keys_init {A} (keys : list Key) (k : Key) :
  k ∈ keys →
  (list_to_map ((λ k, (k, [])) <$> keys) : gmap Key (list A)) !! k = Some [].
Proof.
  induction keys as [|q keys IH]; [by intros ?%elem_of_nil|].
  intros Hk. cbn. destruct (decide (k = q)) as [->|Hne];
    [by rewrite lookup_insert_eq|].
  rewrite lookup_insert_ne by done. apply IH.
  by apply elem_of_cons in Hk as [?|?].
Qed.

Lemma dom_run_keys_init {A} (keys : list Key) :
  dom (list_to_map ((λ k, (k, [])) <$> keys) : gmap Key (list A))
  = list_to_set keys.
Proof.
  induction keys as [|q keys IH]; cbn;
    [by rewrite dom_empty_L|by rewrite dom_insert_L, IH].
Qed.

Lemma kernel_of_object_no_sample `{NumPy} `{AfwMath} `{Libm} cfg st kernels k :
  xcorrs st !! k = Some [] → is_Some (pairMeans st !! k) →
  kernel_of_object cfg st kernels k = Raise RuntimeError.
Proof.
  intros Hx [ms Hm]. unfold kernel_of_object. rewrite Hx, Hm. cbn.
  by destruct ms.
Qed.

(** X20.  Without gains [run] stops before any ISR run: when gains are not
    to be calculated and the repository holds none, or an empty dict, it
    raises [RuntimeError], whatever the visits are. *)
Theorem run_needs_gains `{NumPy} `{AfwMath} `{Libm} {V} (cfg : BfTaskConfig)
    (ccdNum : Z) (raw_detector : list Amp)
    (bfGain : option (gmap string float)) (isr : V → result Exposure)
    (visitPairs : list (V * V)) :
  bfGain = None ∨ bfGain = Some ∅ →
  run cfg false ccdNum raw_detector bfGain isr visitPairs
  = Raise RuntimeError.
Proof.
  intros [-> | ->]; unfold run, run_gains; [done|].
  by rewrite bool_decide_eq_true_2.
Qed.

(** X21.  With gains from the repository and no visit pair, [run] has no
    correlation to average: at level CCD, and at level AMP on a detector
    with an amplifier, [_generateKernel] raises [RuntimeError] for the
    first detector object; at level AMP on a detector without amplifiers
    [run] returns no kernel at all. *)
Theorem run_without_visits `{NumPy} `{AfwMath} `{Libm} {V} (cfg : BfTaskConfig)
    (ccdNum : Z) (raw_detector : list Amp) (gains : gmap string float)
    (isr : V → result Exposure) :
  gains ≠ ∅ →
  run cfg false ccdNum raw_detector (Some gains) isr []
  = match run_keys cfg ccdNum raw_detector with
    | [] => Ok (gains, ∅)
    | _ :: _ => Raise RuntimeError
    end
  ∧ (run_keys cfg ccdNum raw_detector = []
     ↔ level cfg = AMP ∧ raw_detector = []).
Proof.
  intros Hgains. split.
  - unfold run, run_gains. rewrite bool_decide_eq_false_2 by done.
    cbn [mbind result_bind for_each].
    destruct (run_keys cfg ccdNum raw_detector) as [|k keys] eqn:Hkeys;
      [done|].
    cbn [for_each]. rewrite (kernel_of_object_no_sample cfg _ ∅ k); [done| |].
    + cbn [xcorrs]. apply lookup_run_keys_init. by left.
    + cbn [pairMeans]. rewrite lookup_run_keys_init by by left. done.
  - unfold run_keys. destruct (level cfg); [|split; [done|by intros [? _]]].
    destruct raw_detector as [|amp amps]; [done|].
    cbn. split; [done|by intros [_ ?]].
Qed.

Lemma prepareImage_CCD_dom `{AfwMath} cfg exp gains areas mns :
  _prepareImage cfg exp gains CCD = Ok (areas, mns) →
  dom areas = {[ DetKey (detectorId exp) ]}
  ∧ dom mns = {[ DetKey (detectorId exp) ]}.
Proof.
  unfold _prepareImage, prepare_loop. intros Hrun.
  destruct (for_each _ _ _) as [st|] eqn:Hloop; [|done].
  apply prepare_loop_ccd in Hloop as (Hm & Ha & _).
  cbn [means returnAreas] in Hm, Ha. cbn [mbind result_bind] in Hrun.
  unfold prepare_ccd in Hrun. step_in Hrun; [|done]. step_in Hrun; [|done].
  simplify_eq. rewrite dom_fmap_L. cbn [means returnAreas].
  rewrite Hm, Ha, !dom_insert_L, !dom_empty_L, !(right_id_L ∅ (∪)). done.
Qed.

Lemma correlate_pair_mismatch `{AfwMath} {V} (cfg : BfTaskConfig)
    (isr : V → result Exposure) (gains : gmap string float) (st : run_state)
    (visPair : V * V) (exp1 exp2 : Exposure)
    (prep1 prep2 : gmap Key image * gmap Key float) :
  level cfg = CCD →
  isr visPair.1 = Ok exp1 → isr visPair.2 = Ok exp2 →
  _prepareImage cfg exp1 gains CCD = Ok prep1 →
  _prepareImage cfg exp2 gains CCD = Ok prep2 →
  xcorrs st !! DetKey (detectorId exp1) = None
  ∨ detectorId exp2 ≠ detectorId exp1 →
  correlate_pair cfg isr gains st visPair = Raise KeyError.
Proof.
  intros Hlvl Hisr1 Hisr2 Hprep1 Hprep2 Hid.
  unfold correlate_pair. rewrite Hisr1, Hisr2. cbn [mbind result_bind].
  rewrite Hlvl, Hprep1, Hprep2. cbn [mbind result_bind prepared_keys for_each].
  unfold correlate_object.
  destruct prep1 as [areas1 mns1], prep2 as [areas2 mns2]. cbn [fst snd].
  apply prepareImage_CCD_dom in Hprep1 as [Ha1 _].
  apply prepareImage_CCD_dom in Hprep2 as [Ha2 _].
  destruct (xcorrs st !! DetKey (detectorId exp1)) as [xs|]; [|done].
  destruct Hid as [?|Hid]; [done|]. cbn [or_raise mbind result_bind].
  assert (is_Some (areas1 !! DetKey (detectorId exp1))) as [im1 ->].
  { apply elem_of_dom. rewrite Ha1. by apply elem_of_singleton. }
  cbn [or_raise mbind result_bind].
  assert (areas2 !! DetKey (detectorId exp1) = None) as ->; [|done].
  apply not_elem_of_dom. rewrite Ha2, elem_of_singleton. congruence.
Qed.

(** X22.  At level CCD the lists of [run] are keyed by [dataId['ccd']],
    the prepared images by the detector id of the exposure.  When ISR and
    the preparation of the first visit pair succeed but the detector id of
    the first exposure is not the CCD number, or the second exposure is
    of another detector, [run] raises [KeyError]. *)
Theorem run_detector_mismatch `{NumPy} `{AfwMath} `{Libm} {V} (cfg : BfTaskConfig)
    (doCalcGains : bool) (ccdNum : Z) (raw_detector : list Amp)
    (bfGain : option (gmap string float)) (isr : V → result Exposure)
    (visPair : V * V) (visitPairs : list (V * V)) (gains : gmap string float)
    (exp1 exp2 : Exposure)
    (prep1 prep2 : gmap Key image * gmap Key float) :
  level cfg = CCD →
  run_gains cfg doCalcGains raw_detector bfGain isr (visPair :: visitPairs)
  = Ok gains →
  isr visPair.1 = Ok exp1 → isr visPair.2 = Ok exp2 →
  _prepareImage cfg exp1 gains CCD = Ok prep1 →
  _prepareImage cfg exp2 gains CCD = Ok prep2 →
  detectorId exp1 ≠ ccdNum ∨ detectorId exp2 ≠ detectorId exp1 →
  run cfg doCalcGains ccdNum raw_detector bfGain isr (visPair :: visitPairs)
  = Raise KeyError.
Proof.
  intros Hlvl Hgains Hisr1 Hisr2 Hprep1 Hprep2 Hid.
  unfold run. rewrite Hgains. cbn [mbind result_bind for_each].
  rewrite (correlate_pair_mismatch cfg isr gains _ visPair exp1 exp2
             prep1 prep2); [done..|].
  destruct Hid as [Hid|Hid]; [left|by right].
  cbn [xcorrs]. unfold run_keys. rewrite Hlvl. cbn.
  rewrite lookup_insert_ne by congruence. done.
Qed.

Lemma kernels_loop_dom `{NumPy} `{AfwMath} `{Libm} cfg st keys kernels0 kernels :
  for_each (kernel_of_object cfg st) keys kernels0 = Ok kernels →
  dom kernels = list_to_set keys ∪ dom kernels0
  ∧ ∀ k, k ∈ keys →
      ∃ corrs means r,
        xcorrs st !! k = Some corrs ∧ pairMeans st !! k = Some means
        ∧ _generateKernel cfg corrs (seq 0 (length corrs)) means None = Ok r
        ∧ kernels !! k = Some r.2.
Proof.
  revert kernels0. induction keys as [|k keys IH]; intros kernels0 Hrun.
  - cbn in Hrun. simplify_eq. cbn. rewrite (left_id_L ∅ (∪)).
    split; [done|]. by intros k ?%elem_of_nil.
  - cbn [for_each] in Hrun.
    destruct (kernel_of_object cfg st kernels0 k) as [kernels1|] eqn:Hk;
      [|done].
    cbn in Hrun. pose proof Hrun as Hrest. apply IH in Hrun as [Hdom Hall].
    unfold kernel_of_object in Hk. do 2 (step_in Hk; [|done]).
    destruct (_generateKernel _ _ _ _ _) as [r|] eqn:Hgen; [|done].
    cbn in Hk. simplify_eq. rewrite dom_insert_L in Hdom. split.
    + rewrite Hdom. cbn [list_to_set].
      set (ks := list_to_set keys : gset Key).
      by rewrite (assoc_L (∪) ks), (comm_L (∪) ks).
    + intros k' Hk'. destruct (decide (k' ∈ keys)) as [Hin|Hout];
        [by apply Hall|].
      apply elem_of_cons in Hk' as [->|?]; [|done].
      eexists _, _, r. do 3 (split; [done|]).
      assert (kernels !! k = (<[k:=r.2]> kernels0) !! k) as ->;
        [|by rewrite lookup_insert_eq].
      clear -Hrest Hout. revert Hrest. generalize (<[k:=r.2]> kernels0).
      induction keys as [|q keys IH]; intros g Hrest.
      * cbn in Hrest. by simplify_eq.
      * apply not_elem_of_cons in Hout as [Hne Hout].
        cbn [for_each] in Hrest.
        destruct (kernel_of_object cfg st g q) as [g'|] eqn:Hq; [|done].
        cbn in Hrest. rewrite (IH Hout _ Hrest).
        unfold kernel_of_object in Hq. do 2 (step_in Hq; [|done]).
        destruct (_generateKernel _ _ _ _ _); [|done]. cbn in Hq.
        simplify_eq. by rewrite lookup_insert_ne.
Qed.

(** X23.  Whenever [run] returns, there is exactly one kernel per key of
    the level (the CCD number, or every amplifier name of the raw
    detector), each the result of [_generateKernel] on the correlations
    and means collected for that key; gains that were not to be calculated
    are the stored ones, unchanged and not empty. *)
Theorem run_kernels `{NumPy} `{AfwMath} `{Libm} {V} (cfg : BfTaskConfig)
    (doCalcGains : bool) (ccdNum : Z) (raw_detector : list Amp)
    (bfGain : option (gmap string float)) (isr : V → result Exposure)
    (visitPairs : list (V * V)) (gains : gmap string float)
    (kernels : gmap Key ndarray) :
  run cfg doCalcGains ccdNum raw_detector bfGain isr visitPairs
  = Ok (gains, kernels) →
  dom kernels = list_to_set (run_keys cfg ccdNum raw_detector)
  ∧ (doCalcGains = false → bfGain = Some gains ∧ gains ≠ ∅)
  ∧ ∀ k, k ∈ run_keys cfg ccdNum raw_detector →
      ∃ corrs means r,
        _generateKernel cfg corrs (seq 0 (length corrs)) means None = Ok r
        ∧ kernels !! k = Some r.2.
Proof.
  unfold run. intros Hrun.
  destruct (run_gains _ _ _ _ _ _) as [g|] eqn:Hgains; [|done].
  cbn [mbind result_bind] in Hrun.
  destruct (for_each (correlate_pair cfg isr g) _ _) as [st|]; [|done].
  cbn [mbind result_bind] in Hrun.
  destruct (for_each (kernel_of_object cfg st) _ _) as [ks|] eqn:Hloop;
    [|done].
  cbn in Hrun. simplify_eq.
  apply kernels_loop_dom in Hloop as [Hdom Hall].
  rewrite dom_empty_L, (right_id_L ∅ (∪)) in Hdom. split; [done|]. split.
  - intros ->. unfold run_gains in Hgains.
    destruct bfGain as [stored|]; [|done].
    case_bool_decide; [done|]. by simplify_eq.
  - intros k Hk. destruct (Hall k Hk) as (corrs & means & r & _ & _ & ? & ?).
    by exists corrs, means, r.
Qed.

(* ================================================================== *)
(** * Part III: the functions on concrete inputs *)
(* ================================================================== *)

Section examples.

#[local] Existing Instance ref_numpy.
#[local] Existing Instance ref_afw.
#[local] Existing Instance ref_libm.

(** *** [_SOR] *)

(** The reading of C5 in the specification: the factor is renewed once per
    full iteration, so both half-sweeps of a full iteration run with the
    same factor, and the test is made after a full iteration only, so a
    converged loop is left in a second half-sweep (an odd [nIter]). *)
Definition claimed_omega_per_full_iteration (source : ndarray) : Prop :=
  ∀ k, omega (after_sweeps source (sor_rho source) k)
       = omega_at (sor_rho source) (k / 2).
Definition claimed_stop_after_full_iteration (cfg : BfTaskConfig)
    (source : ndarray) : Prop :=
  let final := _SOR_run cfg source None None in
  sor_converged cfg None final = true → Nat.odd (nIter final) = true.

(** On the source [[4.0]] ([rho = cos(pi) = -1]) the first half-sweep leaves
    [func[1, 1] = -1] and already renews the factor, 1 becoming 2; the
    second half-sweep has no point to update; the third finds a zero
    residual and the loop is left with [nIter = 2], in the middle of the
    second full iteration. *)
Lemma SOR_per_full_iteration_fails :
  sor_body [[4%float]] (-1) (eLevelSOR default_config) 4 (sor_init [[4%float]])
  = ({| func := [[0; 0; 0]; [0; -1; 0]; [0; 0; 0]]%float;
        resid := [[0; 0; 0]; [0; -4; 0]; [0; 0; 0]]%float;
        omega := 2; nIter := 1; outError := 4 |}, false)
  ∧ ¬ claimed_omega_per_full_iteration [[4%float]]
  ∧ ¬ claimed_stop_after_full_iteration default_config [[4%float]].
Proof.
  split; [by vm_compute|]. split.
  - intros Hclaim. specialize (Hclaim 1). vm_compute in Hclaim. discriminate.
  - intros Hclaim. unfold claimed_stop_after_full_iteration in Hclaim.
    vm_compute in Hclaim. specialize (Hclaim eq_refl). discriminate.
Qed.

Lemma SOR_schedule_and_stop_witness :
  _SOR default_config [[4%float]] (Some 5) None
  = Ok (interior (func (_SOR_run default_config [[4%float]] (Some 5) None))).
Proof.
  refine (proj1 (proj2 (proj2 (proj2
            (SOR_schedule_and_stop default_config [[4%float]] (Some 5) None
               _ _)))) _);
    unfold shape0, shape1; simpl; lia.
Defined.

Example SOR_one_cell :
  _SOR default_config [[4%float]] None None = Ok [[(-1)%float]]
  ∧ nIter (_SOR_run default_config [[4%float]] None None) = 2
  ∧ omega (after_sweeps [[4%float]] (-1) 0) = 1%float
  ∧ omega (after_sweeps [[4%float]] (-1) 1) = 2%float.
Proof. by vm_compute. Qed.

(** The reading of C6: on a source of zeros the test succeeds at once. *)
Definition claimed_zero_source_converges (cfg : BfTaskConfig) (n : nat) : Prop :=
  let final := _SOR_run cfg (np_zeros n n) None None in
  sor_converged cfg None final = true ∧ nIter final = 0.

(** With the default configuration the loop on a 2x2 source of zeros runs
    all 20000 half-sweeps and logs the failure to converge. *)
Lemma SOR_zero_source_never_converges :
  (nIter (_SOR_run default_config (np_zeros 2 2) None None) =? 20000) = true
  ∧ sor_converged default_config None
      (_SOR_run default_config (np_zeros 2 2) None None) = false
  ∧ ¬ claimed_zero_source_converges default_config 2.
Proof.
  split; [vm_compute; reflexivity|]. split; [vm_compute; reflexivity|].
  intros [Hconv _]. vm_compute in Hconv. discriminate.
Qed.

Lemma SOR_zero_source_witness :
  _SOR default_config (np_zeros 2 2) (Some 3) None = Ok (np_zeros 2 2)
  ∧ nIter (_SOR_run default_config (np_zeros 2 2) (Some 3) None) = 6
  ∧ sor_converged default_config (Some 3)
      (_SOR_run default_config (np_zeros 2 2) (Some 3) None) = false.
Proof.
  destruct (SOR_zero_source default_config 2 (Some 3) None)
    as (Hreturns & _ & Hn & Hconv).
  - lia.
  - intros k Hk. do 6 (destruct k as [|k]; [reflexivity|]).
    simpl in Hk. lia.
  - split; [apply Hreturns; simpl; lia|]. split; [exact Hn|exact Hconv].
Defined.


#[local] Instance ref_afw_statistics : AfwStatistics (H := ref_afw).
Proof. by split. Qed.

Lemma ref_afw_returns : returns_on_samples (H := ref_afw).
Proof. intros sigma [|v l] Hl; [done|]. by repeat split; eexists. Defined.

(** *** [_generateKernel] *)

(** The reading of C2: a sample whose corrected [[0, 0]] entry is
    non-negative, zero included, is rejected. *)
Definition claimed_rejected (mean1 mean2 : float) (corr : ndarray) : bool :=
  (0 <=? get2 (subtract_means mean1 mean2 corr) 0 0)%float.

(** With means 2 and 3 and [corr[0, 0] = 5] the corrected entry is 0: the
    sample is divided by [-13], tiled and kept. *)
Lemma zero_corrected_sample_is_kept :
  let corr := [[5; -13]; [-13; -13]]%float in
  claimed_rejected 2 3 corr = true
  ∧ get2 (subtract_means 2 3 corr) 0 0 = 0%float
  ∧ xcorrList <$> kernel_loop 1 [corr] [(2, 3)%float] [0]
    = Ok [[[1; 1; 1]; [1; -0; 1]; [1; 1; 1]]%float].
Proof. by vm_compute. Qed.

Lemma kernel_step_outcome_witness :
  kernel_step 1 {| store := [[[-8; -13]; [-13; -13]]%float];
                   xcorrList := []; fullCorr := None |} ((2, 3)%float, 0)
  = Ok {| store := [[[1; 1]; [1; 1]]%float];
          xcorrList := [[[1; 1; 1]; [1; 1; 1]; [1; 1; 1]]%float];
          fullCorr := Some [[1; 1; 1]; [1; 1; 1]; [1; 1; 1]]%float |}.
Proof.
  destruct (kernel_step_outcome 1
              {| store := [[[-8; -13]; [-13; -13]]%float];
                 xcorrList := []; fullCorr := None |}
              2 3 0 [[-8; -13]; [-13; -13]]%float)
    as (_ & _ & _ & Hkept & _).
  - reflexivity.
  - eexists. reflexivity.
  - destruct (Hkept eq_refl) as [Hdivided _].
    destruct (Hdivided 4%float 9%float eq_refl eq_refl) as [_ Htiled].
    apply (Htiled [[1; 1; 1]; [1; 1; 1]; [1; 1; 1]]%float).
    reflexivity.
Defined.


(** *** [estimateGains] *)

(** The reading of C3: a region that fails the sanity check is left out,
    and the other regions of the pair are handled as usual. *)
Definition claimed_accumulate_pair (acc : ptc_acc) (st : pair_stats)
    : result ptc_acc :=
  for_each (λ acc k, if fails_sanity st k then Ok acc else pull_value st acc k)
    (map_to_list (_means st)).*1 acc.

(** Region A fails the check (10 < 100); region B passes it and is within
    the 30 percent band. *)
Definition one_bad_region : pair_stats :=
  {| _means := {[ "A" := 1; "B" := 100 ]}%float;
     _vars := {[ "A" := 100; "B" := 50 ]}%float;
     _covars := {[ "A" := 100; "B" := 50 ]}%float |}.

(** The sample of region B is not collected. *)
Lemma sanity_check_drops_good_region :
  fails_sanity one_bad_region "B" = false
  ∧ dropped one_bad_region "B" = Ok false
  ∧ (acc ← accumulate_pair [amp_A; amp_B] (ptc_init [amp_A; amp_B])
             one_bad_region;
     Ok (ampMeans acc !! "B")) = Ok (Some [])
  ∧ (acc ← claimed_accumulate_pair (ptc_init [amp_A; amp_B]) one_bad_region;
     Ok (ampMeans acc !! "B")) = Ok (Some [100%float]).
Proof. by vm_compute. Qed.

Lemma sanity_check_rejects_whole_pair_witness :
  accumulate_pair [amp_A; amp_B] (ptc_init [amp_A; amp_B]) one_bad_region
  = Ok (ptc_init [amp_A; amp_B]).
Proof.
  rewrite (sanity_check_rejects_whole_pair [amp_A; amp_B]
             (ptc_init [amp_A; amp_B]) one_bad_region).
  - reflexivity.
  - intros amp Hamp.
    apply elem_of_cons in Hamp as [->|Hamp];
      [|apply list_elem_of_singleton in Hamp as ->];
      repeat split; by eexists.
Defined.

(** What [_calcMeansAndVars] returns for a visit pair of two identical,
    noiseless flats of one amplifier with summed mean [mean]: variance and
    covariance are 0.  Two such pairs, of means 1 and 2, are both retained
    and every fit of (mean, covariance) has slope 0. *)
Definition noiseless_pair (mean : float) : result pair_stats :=
  Ok {| _means := {[ "A" := mean ]}; _vars := {[ "A" := 0%float ]};
        _covars := {[ "A" := 0%float ]} |}.

(** The reading of C4: a zero slope is a fatal error. *)
Definition claimed_zero_slope_is_fatal (cfg : BfTaskConfig)
    (detector : list Amp) (visitPairs : list float) : Prop :=
  ∀ acc amp,
    accumulate detector noiseless_pair visitPairs = Ok acc →
    amp ∈ detector → slope_to_use cfg acc (ampName amp) = Ok 0%float →
    ∃ e, estimateGains cfg detector noiseless_pair visitPairs = Raise e.

Lemma zero_slope_gives_infinite_gain :
  estimateGains default_config [amp_A] noiseless_pair [1; 2]%float
  = Ok ({[ "A" := infinity ]}, {[ "A" := 1%float ]})
  ∧ ¬ claimed_zero_slope_is_fatal default_config [amp_A] [1; 2]%float.
Proof.
  split; [by vm_compute|]. intros Hclaim.
  destruct (Hclaim (Build_ptc_acc {[ "A" := [1; 2]%float ]}
                      {[ "A" := [0; 0]%float ]} {[ "A" := [0; 0]%float ]})
              amp_A) as [e He].
  - by vm_compute.
  - by apply list_elem_of_singleton.
  - by vm_compute.
  - vm_compute in He. discriminate.
Qed.

Lemma estimateGains_inverts_slope_witness :
  ∃ gains nomGains,
    estimateGains default_config [amp_A] noiseless_pair [1; 2]%float
    = Ok (gains, nomGains)
    ∧ gains !! "A" = Some infinity.
Proof.
  destruct (estimateGains_inverts_slope default_config [amp_A] noiseless_pair
              [1; 2]%float
              (Build_ptc_acc {[ "A" := [1; 2]%float ]}
                 {[ "A" := [0; 0]%float ]} {[ "A" := [0; 0]%float ]}))
    as (gains & nomGains & Hrun & Hgain).
  - by vm_compute.
  - intros amp Hamp. apply list_elem_of_singleton in Hamp as ->.
    exists 0%float. by vm_compute.
  - exists gains, nomGains. split; [exact Hrun|].
    destruct (Hgain amp_A 0%float) as [Hg _];
      [by apply list_elem_of_singleton|by vm_compute|].
    exact Hg.
Defined.

(** *** [_iterativeRegression] *)

(** The reading of C8: with fewer than 2 points the fit fails. *)
Definition claimed_too_few_points_fail (cfg : BfTaskConfig)
    (x y : list float) (fixThroughOrigin : bool) : Prop :=
  length x < 2 →
  ∃ e, _iterativeRegression cfg x y fixThroughOrigin None None = Raise e.

(** The single point (2, 6) is fitted by the line of slope 3 through the
    origin. *)
Lemma single_point_is_fitted :
  _iterativeRegression default_config [2%float] [6%float] true None None
  = Ok (3%float, 0%float)
  ∧ ¬ claimed_too_few_points_fail default_config [2%float] [6%float] true.
Proof.
  split; [by vm_compute|]. intros Hclaim.
  destruct Hclaim as [e He]; [simpl; lia|]. vm_compute in He. discriminate.
Qed.

Lemma iterativeRegression_counts_no_points_witness :
  _iterativeRegression default_config [2%float] [6%float] true None None
  = Ok (3%float, 0%float).
Proof.
  destruct (iterativeRegression_counts_no_points default_config true None None)
    as [Hsingle _].
  apply (Hsingle 2%float 6%float (3%float, 0%float)).
  - simpl. lia.
  - reflexivity.
  - by eexists.
  - by eexists.
  - by eexists.
Defined.

(** *** [_prepareImage] *)

(** The reading of C1: at the CCD level the whole sensor is one region of
    gain 1.0. *)
Definition claimed_prepare_CCD `{AfwMath} (cfg : BfTaskConfig) (exp : Exposure)
    : result (gmap Key image * gmap Key float) :=
  let sigma := nSigmaClipXCorr cfg in
  let im := maskedImage exp in
  mean ← lib (MEANCLIP sigma (pixels im));
  let scaled := map (map (λ p, pixel_mul p 1)) im in
  m ← lib (MEANCLIP sigma
             (pixels (crop (border_box (nPixBorderXCorr cfg) scaled) scaled)));
  Ok ({[ DetKey (detectorId exp) :=
           map (map (λ p, pixel_sub (pixel_mul p 1) (mean * 1)%float)) im ]},
      {[ DetKey (detectorId exp) := m ]}).

(** With gains 2 and 4 the returned pixels are those of amplifier B times
    4, less 4 times their mean 9.5, and the reported mean 21 is that of the
    gain-scaled pixels 10 and 32 inside the border; with one region of gain
    1.0 they would be the 12 pixels less their mean 6.5, and the mean
    6.5. *)
Lemma prepareImage_CCD_uses_gains :
  _prepareImage example_config two_amp_exposure
    {[ "A" := 2; "B" := 4 ]}%float CCD
  = Ok ({[ DetKey 7 := [[-10; -6; -2]; [2; 6; 10]]%float ]},
        {[ DetKey 7 := 21%float ]})
  ∧ claimed_prepare_CCD example_config two_amp_exposure
    = Ok ({[ DetKey 7 := [[-5.5; -4.5; -3.5]; [-2.5; -1.5; -0.5];
                          [0.5; 1.5; 2.5]; [3.5; 4.5; 5.5]]%float ]},
          {[ DetKey 7 := 6.5%float ]})
  ∧ _prepareImage example_config two_amp_exposure
      {[ "A" := 2; "B" := 4 ]}%float CCD
    ≠ claimed_prepare_CCD example_config two_amp_exposure.
Proof. split; [|split]; by vm_compute. Qed.

Lemma prepareImage_CCD_rescales_witness :
  ∃ before amp working gain mean,
    [amp_A; amp_B] = before ++ [amp]
    ∧ rescaled example_config {[ "A" := 2; "B" := 4 ]}%float before
        (maskedImage two_amp_exposure) = Some working
    ∧ ({[ "A" := 2; "B" := 4 ]}%float : gmap string float) !! ampName amp
      = Some gain
    ∧ ({[ DetKey 7 := [[-10; -6; -2]; [2; 6; 10]]%float ]} : gmap Key image)
      = {[ DetKey 7 :=
             map (map (λ p, pixel_sub (pixel_mul p gain)
                              (mean * gain)%float))
               (crop (ampBBox amp) working) ]}.
Proof.
  destruct (prepareImage_CCD_rescales example_config two_amp_exposure
              {[ "A" := 2; "B" := 4 ]}%float
              {[ DetKey 7 := [[-10; -6; -2]; [2; 6; 10]]%float ]}
              {[ DetKey 7 := 21%float ]})
    as (before & amp & working & gain & mean & m
        & Hcat & Hworking & Hgain & _ & Hareas & _).
  - by vm_compute.
  - exists before, amp, working, gain, mean.
    split; [exact Hcat|]. split; [exact Hworking|].
    split; [exact Hgain|exact Hareas].
Defined.

(** *** [_crossCorrelate] *)

(** The reading of C9: the call fails exactly when the border-cropped
    region is not larger than [maxLag]. *)
Definition claimed_region_too_small (cfg : BfTaskConfig) (im0 im1 : image)
    : bool :=
  let diff := im_sub im0 im1 in
  let cropped := crop (border_box (nPixBorderXCorr cfg) diff) diff in
  (getWidth cropped <=? maxLag cfg) || (getHeight cropped <=? maxLag cfg).

(** C9 (the code on the failing input).  With [maxLag = 0] and two images
    of 5 x 5 pixels the border-cropped region has 3 x 3 pixels, more than
    [maxLag] both ways, so that a 1 x 1 array of lag correlations is due.
    But the reference patch is taken as [diff[0:-maxLag, :-maxLag]], which
    for [maxLag = 0] is [diff[0:0, :0]]: it holds no pixel, whatever the
    image, and the call fails in the statistics engine on the empty
    sample. *)
Lemma zero_lag_fails_on_large_region :
  let diff := im_sub image_5x5 zeros_5x5 in
  let cropped :=
    crop (border_box (nPixBorderXCorr zero_lag_config) diff) diff in
  maxLag zero_lag_config = 0
  ∧ getWidth cropped = 3 ∧ getHeight cropped = 3
  ∧ claimed_region_too_small zero_lag_config image_5x5 zeros_5x5 = false
  ∧ (∀ im, pixels (crop (lag_box (maxLag zero_lag_config) im) im) = [])
  ∧ _crossCorrelate zero_lag_config image_5x5 zeros_5x5 = Raise LibraryError.
Proof.
  cbn zeta. split; [reflexivity|]. split; [by vm_compute|].
  split; [by vm_compute|]. split; [by vm_compute|]. split; [|by vm_compute].
  intros im. apply pixels_crop_empty. by left.
Qed.


(** ** Further instances *)

(** Of the four points the second lies outside the band of one standard
    deviation around the first fit (slope 3.25) and is deleted; the fit of
    the three others (slope 1) is returned. *)
Lemma iterativeRegression_fits_subsample_witness :
  lstsq_origin [1; 1; 1; 1]%float [1; 10; 1; 1]%float = Some 3.25%float
  ∧ ∃ pts, pts `sublist_of` zip [1; 1; 1; 1]%float [1; 10; 1; 1]%float
      ∧ lstsq_origin pts.*1 pts.*2 = Some 1%float ∧ 0%float = 0%float.
Proof.
  split; [reflexivity|].
  apply (iterativeRegression_fits_subsample default_config
           [1; 1; 1; 1]%float [1; 10; 1; 1]%float true (Some 1%float) None
           1 0).
  - reflexivity.
  - vm_compute. reflexivity.
Defined.

(** The first of four points lies outside the band of one standard
    deviation around the fit, the others inside: nothing is deleted. *)
Lemma iterativeRegression_keeps_first_point_witness :
  is_outlier 1 0 4.5 6.75 = true
  ∧ _iterativeRegression default_config [1; 1; 1; 1]%float [10; 1; 1; 1]%float
      true (Some 1%float) None
    = Ok (3.25, 0)%float.
Proof.
  split; [vm_compute; reflexivity|].
  apply (iterativeRegression_keeps_first_point default_config
           [1; 1; 1; 1]%float [10; 1; 1; 1]%float true (Some 1%float) None
           (3.25, 0)%float 0 20.25).
  - cbn. lia.
  - vm_compute. reflexivity.
  - vm_compute. reflexivity.
  - vm_compute. reflexivity.
  - eexists. vm_compute. reflexivity.
  - intros [|[|[|k]]] r Hr; vm_compute in Hr; simplify_eq; vm_compute;
      reflexivity.
Defined.

Lemma crossCorrelate_shape_witness :
  ∃ xcorr, _crossCorrelate example_config image_5x5 zeros_5x5 = Ok xcorr
    ∧ rect 2 2 xcorr.
Proof.
  eexists. split; [vm_compute; reflexivity|].
  apply (crossCorrelate_shape example_config image_5x5 zeros_5x5).
  vm_compute. reflexivity.
Defined.

Lemma prepareImage_needs_every_gain_witness :
  ∃ e, _prepareImage example_config two_amp_exposure {[ "A" := 2%float ]} CCD
       = Raise e
    ∧ (e = KeyError ∨ e = LibraryError).
Proof.
  apply (prepareImage_needs_every_gain example_config two_amp_exposure
           {[ "A" := 2%float ]} CCD amp_B).
  - right. left.
  - vm_compute. reflexivity.
Defined.

Lemma prepareImage_empty_catalogue_witness :
  _prepareImage example_config no_amp_exposure ∅ AMP = Ok (∅, ∅)
  ∧ _prepareImage example_config no_amp_exposure ∅ CCD
    = Raise UnboundLocalError.
Proof.
  destruct (prepareImage_empty_catalogue example_config no_amp_exposure ∅)
    as [Hamp Hccd]; [reflexivity|].
  split; [exact Hamp|]. rewrite Hccd. vm_compute. reflexivity.
Defined.

Lemma prepareImage_AMP_keys_witness :
  ∃ areas mns,
    _prepareImage example_config wide_exposure {[ "L" := 2; "R" := 4 ]}%float
      AMP = Ok (areas, mns)
    ∧ dom areas = list_to_set (AmpKey ∘ ampName <$> [amp_L; amp_R])
    ∧ mns = {[ AmpKey "L" := 10; AmpKey "R" := 56 ]}%float
    ∧ ∃ working,
        rescaled example_config {[ "L" := 2; "R" := 4 ]}%float
          [amp_L; amp_R] (maskedImage wide_exposure) = Some working
        ∧ ∀ name area,
            areas !! AmpKey name = Some area →
            ∃ amp, amp ∈ [amp_L; amp_R] ∧ ampName amp = name
              ∧ area = crop (ampBBox amp) working.
Proof.
  eexists _, _. split; [vm_compute; reflexivity|].
  lazymatch goal with
  | |- dom ?areas = _ ∧ ?mns = _ ∧ _ =>
      destruct (prepareImage_AMP_keys example_config wide_exposure
                  {[ "L" := 2; "R" := 4 ]}%float areas mns)
        as (Hdom & _ & _ & Hareas)
  end.
  - vm_compute. reflexivity.
  - split; [exact Hdom|]. split; [vm_compute; reflexivity|exact Hareas].
Defined.

Lemma estimateGains_lists_in_step_witness :
  ∃ acc, accumulate [amp_A] noiseless_pair [1; 2]%float = Ok acc
    ∧ ∃ d : samples,
        ampMeans acc = column (λ t, t.1.1) d
        ∧ ampVariances acc = column (λ t, t.1.2) d
        ∧ ampCoVariances acc = column (λ t, t.2) d
        ∧ dom d = list_to_set (ampName <$> [amp_A])
        ∧ ∀ k l, d !! k = Some l → length l ≤ 2.
Proof.
  eexists. split; [vm_compute; reflexivity|].
  apply (estimateGains_lists_in_step [amp_A] noiseless_pair [1; 2]%float).
  vm_compute. reflexivity.
Defined.

(** The statistics of the pair hold amplifier A only. *)
Lemma estimateGains_missing_statistics_witness :
  estimateGains default_config [amp_A; amp_B] noiseless_pair [1%float]
  = Raise KeyError.
Proof.
  refine (proj2 (estimateGains_missing_statistics default_config
                   [amp_A; amp_B] noiseless_pair (ptc_init [amp_A; amp_B])
                   {| _means := {[ "A" := 1%float ]};
                      _vars := {[ "A" := 0%float ]};
                      _covars := {[ "A" := 0%float ]} |}
                   1%float amp_B _ _ _)).
  - right. left.
  - left. vm_compute. reflexivity.
  - reflexivity.
Defined.

Lemma estimateGains_nominal_gains_witness :
  ∃ gains nomGains,
    estimateGains default_config [amp_A] noiseless_pair [1; 2]%float
    = Ok (gains, nomGains)
    ∧ nomGains !! "A" = Some 1%float.
Proof.
  eexists _, _. split; [vm_compute; reflexivity|].
  refine (proj2 (proj2 (proj2
            (estimateGains_nominal_gains default_config [amp_A]
               noiseless_pair [1; 2]%float _ _ _))) _ amp_A _).
  - vm_compute. reflexivity.
  - apply NoDup_singleton.
  - left.
Defined.

(** A source of one row and two columns: the second column is not
    solved. *)
Lemma SOR_result_shape_witness :
  ∃ out, _SOR default_config [[4; 5]]%float None None = Ok out
    ∧ rect 1 2 out ∧ lookup2 out 0 1 = Some 0%float.
Proof.
  destruct (SOR_result_shape default_config [[4; 5]]%float 1 2 None None)
    as [_ Hreturns].
  - split; [reflexivity|]. repeat constructor.
  - lia.
  - lia.
  - destruct Hreturns as (out & Hrun & Hrect & _ & _ & _ & Hzero).
    + apply Nat.ltb_lt. vm_compute. reflexivity.
    + exists out. split; [exact Hrun|]. split; [exact Hrect|].
      apply Hzero; lia.
Defined.

Lemma generateKernel_all_skipped_witness :
  _generateKernel default_config [[[9; 1]; [1; 1]]%float] [0] [(2, 3)%float]
    None
  = Raise RuntimeError.
Proof.
  apply (generateKernel_all_skipped default_config
           [[[9; 1]; [1; 1]]%float] [0] [(2, 3)%float] None).
  - apply NoDup_singleton.
  - intros [|k] mean1 mean2 ref Hm Hr; [|done]. cbn in Hm, Hr. simplify_eq.
    eexists. split; [reflexivity|]. split; [by eexists|].
    vm_compute. reflexivity.
Defined.

Lemma generateKernel_ignores_surplus_witness :
  _generateKernel default_config [[[-8; -13]; [-13; -13]]%float] [0]
    ([(2, 3)%float] ++ [(1, 1)%float]) None
  = _generateKernel default_config [[[-8; -13]; [-13; -13]]%float] [0]
      [(2, 3)%float] None.
Proof.
  apply (generateKernel_ignores_surplus default_config
           [[[-8; -13]; [-13; -13]]%float] [0] [] [(2, 3)%float]
           [(1, 1)%float] None).
  cbn. lia.
Defined.

Lemma generateKernel_stack_passed_check_witness :
  ∃ acc, kernel_loop 1 [[[-8; -13]; [-13; -13]]%float] [(2, 3)%float] [0]
         = Ok acc
    ∧ length (xcorrList acc) ≤ 1.
Proof.
  eexists. split; [vm_compute; reflexivity|].
  refine (proj1 (generateKernel_stack_passed_check 1
                   [[[-8; -13]; [-13; -13]]%float] [(2, 3)%float] [0] _ _)).
  vm_compute. reflexivity.
Defined.

(** The exposure has the single amplifier A; a [raw_detector] that also
    lists an amplifier B makes the sanity check raise. *)
Lemma calcMeansAndVars_keys_witness :
  ∃ st, _calcMeansAndVars example_config [amp_whole] image_5x5 zeros_5x5
        = Ok st
    ∧ dom (_means st) = list_to_set (ampName <$> [amp_whole])
    ∧ breaker [amp_whole] st = Ok 0
    ∧ breaker [amp_whole; amp_B] st = Raise KeyError.
Proof.
  eexists. split; [vm_compute; reflexivity|].
  lazymatch goal with
  | |- dom (_means ?st) = _ ∧ _ =>
      destruct (calcMeansAndVars_keys example_config [amp_whole]
                  image_5x5 zeros_5x5 st)
        as (_ & Hdom & _ & _ & Hcheck)
  end.
  - vm_compute. reflexivity.
  - split; [exact Hdom|]. split; [vm_compute; reflexivity|].
    apply (Hcheck [amp_whole; amp_B]). exists amp_B.
    split; [right; left|].
    intros Hin. apply list_elem_of_singleton in Hin. discriminate Hin.
Defined.

Lemma calcMeansAndVars_empty_detector_witness :
  _calcMeansAndVars example_config [] image_5x5 zeros_5x5
  = Raise UnboundLocalError.
Proof.
  refine (proj2 (calcMeansAndVars_empty_detector example_config
                   image_5x5 zeros_5x5) _ _ _ _ _).
  - vm_compute. reflexivity.
  - vm_compute. lia.
  - vm_compute. reflexivity.
  - vm_compute. reflexivity.
Defined.

Lemma validateIsrConfig_desirable_never_fatal_witness :
  validateIsrConfig good_isr_config true = Ok []
  ∧ validateIsrConfig (<["doBias" := PyBool false]> good_isr_config) true
    = Ok ["doBias"]
  ∧ ((∃ warned, validateIsrConfig good_isr_config true = Ok warned)
     ↔ (∃ warned,
          validateIsrConfig (<["doBias" := PyBool false]> good_isr_config)
            true = Ok warned)).
Proof.
  split; [vm_compute; reflexivity|]. split; [vm_compute; reflexivity|].
  refine (proj2 (validateIsrConfig_desirable_never_fatal good_isr_config true
                   "doBias" (PyBool false) _ _)).
  - left.
  - eexists. vm_compute. reflexivity.
Defined.

Lemma getNameOfSet_single_run_witness :
  _getNameOfSet [-10; -9; -8; -7; -6; -5; -4; -3; -2; -1]%Z
  = Raise ValueError
  ∧ _getNameOfSet [8; 9; 10; 11]%Z = Ok "8-11"
  ∧ _getNameOfSet [1; 2; 3; 4; 5; 6; 7; 8; 9; 10]%Z = Ok "1-0"
  ∧ _getNameOfSet [3; 5; 6; 7; 20]%Z = Ok "3, 5-7, 20".
Proof.
  split; [|split; [|split]].
  - refine (proj2 (proj2 (getNameOfSet_single_run (-10) (-1) _)) _);
      [lia|vm_compute; reflexivity].
  - refine (proj1 (proj2 (getNameOfSet_single_run 8 11 _)) _);
      [lia|vm_compute; reflexivity].
  - vm_compute. reflexivity.
  - vm_compute. reflexivity.
Defined.

Lemma run_needs_gains_witness :
  run example_config false 7 [amp_whole] (Some ∅) example_isr [(1, 2)%Z]
  = Raise RuntimeError.
Proof.
  apply (run_needs_gains example_config 7 [amp_whole] (Some ∅) example_isr
           [(1, 2)%Z]).
  right. reflexivity.
Defined.

Lemma run_without_visits_witness :
  run example_config false 7 [amp_whole] (Some {[ "A" := 1%float ]})
    example_isr []
  = Raise RuntimeError.
Proof.
  destruct (run_without_visits example_config 7 [amp_whole]
              {[ "A" := 1%float ]} example_isr) as [Hrun _].
  - apply map_non_empty_singleton.
  - exact Hrun.
Defined.

(** The repository is asked for CCD 8, the exposures are of detector 7. *)
Lemma run_detector_mismatch_witness :
  run example_config false 8 [amp_whole] (Some {[ "A" := 1%float ]})
    example_isr [(1, 2)%Z]
  = Raise KeyError.
Proof.
  eapply (run_detector_mismatch example_config false 8 [amp_whole]
            (Some {[ "A" := 1%float ]}) example_isr (1, 2)%Z []
            {[ "A" := 1%float ]} (exposure_of image_5x5)
            (exposure_of zeros_5x5)).
  - reflexivity.
  - vm_compute. reflexivity.
  - reflexivity.
  - reflexivity.
  - vm_compute. reflexivity.
  - vm_compute. reflexivity.
  - left. cbn. lia.
Defined.

Lemma run_kernels_witness :
  ∃ gains kernels,
    run example_config false 7 [amp_whole] (Some {[ "A" := 1%float ]})
      example_isr [(1, 2)%Z] = Ok (gains, kernels)
    ∧ dom kernels = list_to_set (run_keys example_config 7 [amp_whole]).
Proof.
  eexists _, _. split; [vm_compute; reflexivity|].
  refine (proj1 (run_kernels example_config false 7 [amp_whole]
                   (Some {[ "A" := 1%float ]}) example_isr [(1, 2)%Z]
                   _ _ _)).
  vm_compute. reflexivity.
Defined.

End examples.
